(** * Six degrees of separation: the bidirectional co-star search

    A shallow embedding of [server/src/lib/six-degrees.ts].  The external
    collaborators (the TMDB client and the deceased-persons table) are the
    fields of a [Providers] record; every call to one of them is written to
    a trace, and the module-level [filmographyCache] is part of the [World]
    threaded through the search. *)

From Stdlib Require Import ZArith QArith Lia.
From stdpp Require Import gmap list sorting strings pretty.

Local Open Scope Z_scope.

(** ** Data as the provider and the search have it *)

(** The result of [parseInt]: a JS number that is an integer or [NaN]. *)
Inductive JsNumber :=
  | NaN
  | Int (z : Z).

(** One entry of [TMDBPersonCredits.cast]; [release_date] may be missing or
    empty, [popularity] is a finite number. *)
Record TMDBCredit := {
  credit_id : Z;
  credit_title : string;
  release_date : option string;
  popularity : Q
}.

Record TMDBPersonCredits := { cast : list TMDBCredit }.

(** [getMovieCredits(id).cast], of which only the [id] fields are read. *)
Record TMDBMovieCredits := { movie_cast : list Z }.

Record TMDBPerson := {
  person_id : Z;
  person_name : string;
  profile_path : option string;
  person_deathday : option string
}.

Record DeceasedRow := {
  tmdb_id : Z;
  row_name : string;
  row_deathday : option string;
  cause_of_death : option string;
  age_at_death : option Z
}.

Record PathActor := {
  actor_id : Z;
  actor_name : string;
  profilePath : option string;
  isDeceased : bool
}.

Record PathMovie := {
  pm_id : Z;
  pm_title : string;
  pm_year : option JsNumber;
  posterPath : option string
}.

Record PathSegment := {
  actor : PathActor;
  movie : option PathMovie
}.

Record DeceasedOnPath := {
  dop_id : Z;
  dop_name : string;
  deathday : option string;
  causeOfDeath : option string;
  ageAtDeath : option Z
}.

Record ConnectionResult := {
  degrees : Z;
  path : list PathSegment;
  totalDeceased : Z;
  deceasedOnPath : list DeceasedOnPath
}.

(** The value type of the co-star map. *)
Record MovieInfo := {
  movieId : Z;
  movieTitle : string;
  movieYear : option JsNumber
}.

(** [BFSNode["movie"]]. *)
Record NodeMovie := {
  nm_id : Z;
  nm_title : string;
  nm_year : option JsNumber
}.

(** Nodes are never mutated after they are created, so the parent reference
    is modelled by the parent's value. *)
#[local] Unset Elimination Schemes.
Inductive BFSNode := mkNode {
  actorId : Z;
  parent : option BFSNode;
  node_movie : option NodeMovie
}.
#[local] Set Elimination Schemes.

Record MeetingPoint := {
  mp_actorId : Z;
  movieFromA : option NodeMovie;
  movieFromB : option NodeMovie
}.

Record Options := { maxDegrees : option Z }.

(** ** External calls, errors and the world *)

Inductive Call :=
  | FetchPersonCredits (actorId : Z)
  | FetchMovieCredits (movieId : Z)
  | FetchPersonDetails (actorId : Z)
  | FetchDeceasedPersons (actorIds : list Z).

Inductive Error :=
  | ProviderError (c : Call)
  | TypeError.

Inductive Outcome (A : Type) :=
  | Ok (a : A)
  | Throw (e : Error)
  | OutOfFuel.
Arguments Ok {A} a.
Arguments Throw {A} e.
Arguments OutOfFuel {A}.

(** [trace] lists the external calls issued so far, the latest first. *)
Record World := {
  filmographyCache : gmap Z TMDBPersonCredits;
  trace : list Call
}.

Definition M (A : Type) : Type := World -> Outcome A * World.

Definition ret {A} (a : A) : M A := fun w => (Ok a, w).

Definition throw {A} (e : Error) : M A := fun w => (Throw e, w).

Definition bind {A B} (m : M A) (k : A -> M B) : M B :=
  fun w =>
    match m w with
    | (Ok a, w') => k a w'
    | (Throw e, w') => (Throw e, w')
    | (OutOfFuel, w') => (OutOfFuel, w')
    end.

Notation "x <- m ;; k" := (bind m (fun x => k))
  (at level 100, m at next level, right associativity).
Notation "m ;;; k" := (bind m (fun _ => k))
  (at level 100, right associativity).

(** [try { m } catch { handler }]: running out of fuel is not an exception. *)
Definition tryCatch {A} (m : M A) (handler : Error -> M A) : M A :=
  fun w =>
    match m w with
    | (Throw e, w') => handler e w'
    | r => r
    end.

(** An awaited provider call: logged, and rejected when the provider fails. *)
Definition call {A} (c : Call) (response : option A) : M A :=
  fun w =>
    let w' := {| filmographyCache := filmographyCache w; trace := c :: trace w |} in
    match response with
    | Some a => (Ok a, w')
    | None => (Throw (ProviderError c), w')
    end.

(** JS truthiness of a [string | null | undefined]. *)
Definition truthy (s : option string) : bool :=
  match s with
  | Some s' => negb (String.eqb s' "")
  | None => false
  end.

(** [String.prototype.slice(0, n)]. *)
Definition slice0 (n : nat) (s : string) : string := String.substring 0 n s.

(** [Array.prototype.sort((a, b) => b.popularity - a.popularity)]: a stable
    sort, so an entry stays in front of the later entries it ties with. *)
Definition popularityLt (a b : TMDBCredit) : bool :=
  if Qlt_le_dec (popularity a) (popularity b) then true else false.

Fixpoint insertByPopularity (x : TMDBCredit) (l : list TMDBCredit) : list TMDBCredit :=
  match l with
  | [] => [x]
  | y :: l' =>
      if popularityLt x y then y :: insertByPopularity x l' else x :: y :: l'
  end.

Fixpoint sortByPopularityDesc (l : list TMDBCredit) : list TMDBCredit :=
  match l with
  | [] => []
  | x :: l' => insertByPopularity x (sortByPopularityDesc l')
  end.

(** The co-star [Map]: iteration follows insertion order, and [set] is only
    ever called for an absent key, which appends. *)
Definition CoStars : Type := list (Z * MovieInfo).

Definition coStarsHas (coStars : CoStars) (k : Z) : bool :=
  bool_decide (k ∈ coStars.*1).

Definition nodeMovieOf (movieInfo : MovieInfo) : NodeMovie :=
  {| nm_id := movieId movieInfo;
     nm_title := movieTitle movieInfo;
     nm_year := movieYear movieInfo |}.

Record SearchState := {
  visitedFromA : gmap Z BFSNode;
  visitedFromB : gmap Z BFSNode;
  queueA : list BFSNode;
  queueB : list BFSNode;
  degreesFromA : Z;
  degreesFromB : Z;
  meetingPoint : option MeetingPoint
}.

Inductive Flow := Continue | Break.

Record Providers := {
  parseInt : string -> JsNumber;
  getPersonCredits : Z -> option TMDBPersonCredits;
  getMovieCredits : Z -> option TMDBMovieCredits;
  getPersonDetails : Z -> option TMDBPerson;
  getDeceasedPersons : list Z -> option (gmap Z DeceasedRow)
}.

(** ** The search, over a fixed set of provider responses *)

Section Search.

Context (P : Providers).

(** [getFilmography]: the provider is asked only when the cache has no
    entry, and a successful answer is stored. *)
Definition getFilmography (actorId : Z) : M TMDBPersonCredits :=
  fun w =>
    match filmographyCache w !! actorId with
    | Some credits => (Ok credits, w)
    | None =>
        (credits <- call (FetchPersonCredits actorId) (getPersonCredits P actorId) ;;
         fun w' =>
           (Ok credits,
            {| filmographyCache := <[actorId := credits]> (filmographyCache w');
               trace := trace w' |})) w
    end.

Definition clearFilmographyCache : M unit :=
  fun w => (Ok tt, {| filmographyCache := ∅; trace := trace w |}).

Definition topMovies (filmography : TMDBPersonCredits) : list TMDBCredit :=
  take 20 (sortByPopularityDesc
             (filter (fun movie => truthy (release_date movie) = true) (cast filmography))).

Definition yearOf (movie : TMDBCredit) : option JsNumber :=
  match release_date movie with
  | Some d => if truthy (Some d) then Some (parseInt P (slice0 4 d)) else None
  | None => None
  end.

(** The loop over [credits.cast.slice(0, 30)]. *)
Fixpoint addCastMembers (actorId : Z) (movie : TMDBCredit) (year : option JsNumber)
    (castMembers : list Z) (coStars : CoStars) : CoStars :=
  match castMembers with
  | [] => coStars
  | castMember :: rest =>
      let coStars' :=
        if negb (castMember =? actorId) && negb (coStarsHas coStars castMember)
        then coStars ++ [(castMember,
                          {| movieId := credit_id movie;
                             movieTitle := credit_title movie;
                             movieYear := year |})]
        else coStars in
      addCastMembers actorId movie year rest coStars'
  end.

(** The loop over [topMovies], with its [try]/[catch] around each movie. *)
Fixpoint addMovies (actorId : Z) (movies : list TMDBCredit) (coStars : CoStars)
    : M CoStars :=
  match movies with
  | [] => ret coStars
  | movie :: rest =>
      coStars' <- tryCatch
        (credits <- call (FetchMovieCredits (credit_id movie))
                         (getMovieCredits P (credit_id movie)) ;;
         ret (addCastMembers actorId movie (yearOf movie)
                (take 30 (movie_cast credits)) coStars))
        (fun _ => ret coStars) ;;
      addMovies actorId rest coStars'
  end.

Definition getCoStars (actorId : Z) : M CoStars :=
  filmography <- getFilmography actorId ;;
  addMovies actorId (topMovies filmography) [].

(** *** One level of the A side *)

(** The [for (const [coStarId, movieInfo] of coStars)] loop of the A side;
    reaching a meeting point leaves the loop. *)
Fixpoint scanCoStarsA (current : BFSNode) (coStars : CoStars) (st : SearchState)
    : SearchState :=
  match coStars with
  | [] => st
  | (coStarId, movieInfo) :: rest =>
      let node := {| actorId := coStarId;
                     parent := Some current;
                     node_movie := Some (nodeMovieOf movieInfo) |} in
      match visitedFromB st !! coStarId with
      | Some nodeB =>
          {| visitedFromA := <[coStarId := node]> (visitedFromA st);
             visitedFromB := visitedFromB st;
             queueA := queueA st;
             queueB := queueB st;
             degreesFromA := degreesFromA st;
             degreesFromB := degreesFromB st;
             meetingPoint :=
               Some {| mp_actorId := coStarId;
                       movieFromA := Some (nodeMovieOf movieInfo);
                       movieFromB := node_movie nodeB |} |}
      | None =>
          scanCoStarsA current rest
            match visitedFromA st !! coStarId with
            | Some _ => st
            | None =>
                {| visitedFromA := <[coStarId := node]> (visitedFromA st);
                   visitedFromB := visitedFromB st;
                   queueA := queueA st ++ [node];
                   queueB := queueB st;
                   degreesFromA := degreesFromA st;
                   degreesFromB := degreesFromB st;
                   meetingPoint := meetingPoint st |}
            end
      end
  end.

(** The [for (let i = 0; i < currentLevelSize; i++)] loop of the A side;
    [queueA.shift()] of an empty queue gives [undefined], whose [actorId]
    is a [TypeError]. *)
Fixpoint levelLoopA (n : nat) (st : SearchState) : M SearchState :=
  match n with
  | O => ret st
  | S n' =>
      match queueA st with
      | [] => throw TypeError
      | current :: rest =>
          coStars <- getCoStars (actorId current) ;;
          let st' :=
            scanCoStarsA current coStars
              {| visitedFromA := visitedFromA st;
                 visitedFromB := visitedFromB st;
                 queueA := rest;
                 queueB := queueB st;
                 degreesFromA := degreesFromA st;
                 degreesFromB := degreesFromB st;
                 meetingPoint := meetingPoint st |} in
          match meetingPoint st' with
          | Some _ => ret st'
          | None => levelLoopA n' st'
          end
      end
  end.

Definition expandA (st : SearchState) : M SearchState :=
  levelLoopA (length (queueA st))
    {| visitedFromA := visitedFromA st;
       visitedFromB := visitedFromB st;
       queueA := queueA st;
       queueB := queueB st;
       degreesFromA := degreesFromA st + 1;
       degreesFromB := degreesFromB st;
       meetingPoint := meetingPoint st |}.

(** *** One level of the B side *)

Fixpoint scanCoStarsB (current : BFSNode) (coStars : CoStars) (st : SearchState)
    : SearchState :=
  match coStars with
  | [] => st
  | (coStarId, movieInfo) :: rest =>
      let node := {| actorId := coStarId;
                     parent := Some current;
                     node_movie := Some (nodeMovieOf movieInfo) |} in
      match visitedFromA st !! coStarId with
      | Some nodeA =>
          {| visitedFromA := visitedFromA st;
             visitedFromB := <[coStarId := node]> (visitedFromB st);
             queueA := queueA st;
             queueB := queueB st;
             degreesFromA := degreesFromA st;
             degreesFromB := degreesFromB st;
             meetingPoint :=
               Some {| mp_actorId := coStarId;
                       movieFromA := node_movie nodeA;
                       movieFromB := Some (nodeMovieOf movieInfo) |} |}
      | None =>
          scanCoStarsB current rest
            match visitedFromB st !! coStarId with
            | Some _ => st
            | None =>
                {| visitedFromA := visitedFromA st;
                   visitedFromB := <[coStarId := node]> (visitedFromB st);
                   queueA := queueA st;
                   queueB := queueB st ++ [node];
                   degreesFromA := degreesFromA st;
                   degreesFromB := degreesFromB st;
                   meetingPoint := meetingPoint st |}
            end
      end
  end.

Fixpoint levelLoopB (n : nat) (st : SearchState) : M SearchState :=
  match n with
  | O => ret st
  | S n' =>
      match queueB st with
      | [] => throw TypeError
      | current :: rest =>
          coStars <- getCoStars (actorId current) ;;
          let st' :=
            scanCoStarsB current coStars
              {| visitedFromA := visitedFromA st;
                 visitedFromB := visitedFromB st;
                 queueA := queueA st;
                 queueB := rest;
                 degreesFromA := degreesFromA st;
                 degreesFromB := degreesFromB st;
                 meetingPoint := meetingPoint st |} in
          match meetingPoint st' with
          | Some _ => ret st'
          | None => levelLoopB n' st'
          end
      end
  end.

Definition expandB (st : SearchState) : M SearchState :=
  levelLoopB (length (queueB st))
    {| visitedFromA := visitedFromA st;
       visitedFromB := visitedFromB st;
       queueA := queueA st;
       queueB := queueB st;
       degreesFromA := degreesFromA st;
       degreesFromB := degreesFromB st + 1;
       meetingPoint := meetingPoint st |}.

(** *** The [while] loop *)

Definition nonEmpty {A} (l : list A) : bool :=
  match l with [] => false | _ => true end.

Definition hasMeetingPoint (st : SearchState) : bool :=
  match meetingPoint st with Some _ => true | None => false end.

(** The two [if] blocks of one iteration, after its bound check passed. *)
Definition expandBothSides (st : SearchState) : M (Flow * SearchState) :=
  r <- (if nonEmpty (queueA st) && (degreesFromA st <=? degreesFromB st)
        then st' <- expandA st ;;
             ret (if hasMeetingPoint st' then Break else Continue, st')
        else ret (Continue, st)) ;;
  match r with
  | (Break, st') => ret (Break, st')
  | (Continue, st') =>
      if nonEmpty (queueB st') && negb (hasMeetingPoint st')
      then st'' <- expandB st' ;;
           ret (if hasMeetingPoint st'' then Break else Continue, st'')
      else ret (Continue, st')
  end.

(** The body of the [while]: the bound check, then the two blocks. *)
Definition loopBody (maxDeg : Z) (st : SearchState) : M (Flow * SearchState) :=
  if maxDeg <=? degreesFromA st + degreesFromB st
  then ret (Break, st)
  else expandBothSides st.

(** The [while] loop; [fuel] bounds the number of iterations. *)
Fixpoint searchLoop (fuel : nat) (maxDeg : Z) (st : SearchState) : M SearchState :=
  match fuel with
  | O => fun w => (OutOfFuel, w)
  | S fuel' =>
      if nonEmpty (queueA st) || nonEmpty (queueB st)
      then r <- loopBody maxDeg st ;;
           match r with
           | (Break, st') => ret st'
           | (Continue, st') => searchLoop fuel' maxDeg st'
           end
      else ret st
  end.

Definition initialState (actorAId actorBId : Z) : SearchState :=
  let rootA := {| actorId := actorAId; parent := None; node_movie := None |} in
  let rootB := {| actorId := actorBId; parent := None; node_movie := None |} in
  {| visitedFromA := <[actorAId := rootA]> ∅;
     visitedFromB := <[actorBId := rootB]> ∅;
     queueA := [rootA];
     queueB := [rootB];
     degreesFromA := 0;
     degreesFromB := 0;
     meetingPoint := None |}.

(** *** Path reconstruction *)

Record PathEntry := {
  pe_actorId : Z;
  pe_movie : option NodeMovie
}.

(** The nodes from [n] up to its root, [n] first. *)
Fixpoint walkUp (n : BFSNode) : list PathEntry :=
  match n with
  | mkNode a p m =>
      {| pe_actorId := a; pe_movie := m |} ::
      match p with
      | Some p' => walkUp p'
      | None => []
      end
  end.

Definition walkUpFrom (n : option BFSNode) : list PathEntry :=
  match n with
  | Some n' => walkUp n'
  | None => []
  end.

(** [pathFromA] is filled with [unshift], [pathFromB] with [push]. *)
Definition pathFromA (st : SearchState) (mp : MeetingPoint) : list PathEntry :=
  reverse (walkUpFrom (visitedFromA st !! mp_actorId mp)).

Definition pathFromB (st : SearchState) (mp : MeetingPoint) : list PathEntry :=
  walkUpFrom (visitedFromB st !! mp_actorId mp ≫= parent).

Definition combinedPath (st : SearchState) (mp : MeetingPoint) : list PathEntry :=
  pathFromA st mp ++ pathFromB st mp.

(** *** Enrichment *)

Record ActorInfo := {
  info_name : string;
  info_profilePath : option string;
  info_isDeceased : bool
}.

Fixpoint fetchActorDetails (actorIds : list Z) (actorDetails : gmap Z ActorInfo)
    : M (gmap Z ActorInfo) :=
  match actorIds with
  | [] => ret actorDetails
  | actorId :: rest =>
      info <- tryCatch
        (person <- call (FetchPersonDetails actorId) (getPersonDetails P actorId) ;;
         ret {| info_name := person_name person;
                info_profilePath := profile_path person;
                info_isDeceased := truthy (person_deathday person) |})
        (fun _ =>
           ret {| info_name := "Actor " +:+ pretty actorId;
                  info_profilePath := None;
                  info_isDeceased := false |}) ;;
      fetchActorDetails rest (<[actorId := info]> actorDetails)
  end.

(** The segment pushed at index [i]; [actorDetails.get(...)!] of an absent
    id would be [undefined], and reading its [name] a [TypeError]. *)
Definition finalSegment (combined : list PathEntry) (actorDetails : gmap Z ActorInfo)
    (i : nat) (segment : PathEntry) : option PathSegment :=
  actorInfo ← actorDetails !! pe_actorId segment;
  let connectingMovie :=
    match combined !! S i with
    | Some nextSegment =>
        match pe_movie nextSegment with
        | Some m => Some {| pm_id := nm_id m;
                            pm_title := nm_title m;
                            pm_year := nm_year m;
                            posterPath := None |}
        | None => None
        end
    | None => None
    end in
  Some {| actor := {| actor_id := pe_actorId segment;
                      actor_name := info_name actorInfo;
                      profilePath := info_profilePath actorInfo;
                      isDeceased := info_isDeceased actorInfo |};
          movie := connectingMovie |}.

Definition buildFinalPath (combined : list PathEntry) (actorDetails : gmap Z ActorInfo)
    : option (list PathSegment) :=
  mapM (fun '(i, segment) => finalSegment combined actorDetails i segment)
       (imap pair combined).

Fixpoint collectDeceased (deceasedActorIds : list Z) (deceasedInfoMap : gmap Z DeceasedRow)
    : list DeceasedOnPath :=
  match deceasedActorIds with
  | [] => []
  | actorId :: rest =>
      match deceasedInfoMap !! actorId with
      | Some d =>
          {| dop_id := tmdb_id d;
             dop_name := row_name d;
             deathday := row_deathday d;
             causeOfDeath := cause_of_death d;
             ageAtDeath := age_at_death d |} :: collectDeceased rest deceasedInfoMap
      | None => collectDeceased rest deceasedInfoMap
      end
  end.

Definition deceasedSegments (finalPath : list PathSegment) : list PathSegment :=
  filter (fun p => isDeceased (actor p) = true) finalPath.

(** Everything after the loop found a meeting point. *)
Definition buildResult (st : SearchState) (mp : MeetingPoint) : M ConnectionResult :=
  let combined := combinedPath st mp in
  let actorIds := pe_actorId <$> combined in
  actorDetails <- fetchActorDetails actorIds ∅ ;;
  match buildFinalPath combined actorDetails with
  | None => throw TypeError
  | Some finalPath =>
      let deceasedActorIds := (fun p => actor_id (actor p)) <$> deceasedSegments finalPath in
      deceasedInfoMap <- call (FetchDeceasedPersons deceasedActorIds)
                              (getDeceasedPersons P deceasedActorIds) ;;
      let deceasedOnPath := collectDeceased deceasedActorIds deceasedInfoMap in
      clearFilmographyCache ;;;
      ret {| degrees := Z.of_nat (length finalPath) - 1;
             path := finalPath;
             totalDeceased := Z.of_nat (length (deceasedSegments finalPath));
             deceasedOnPath := deceasedOnPath |}
  end.

(** The answer for [actorAId === actorBId]. *)
Definition sameActor (actorAId : Z) : M (option ConnectionResult) :=
  person <- call (FetchPersonDetails actorAId) (getPersonDetails P actorAId) ;;
  ret (Some
    {| degrees := 0;
       path := [ {| actor := {| actor_id := person_id person;
                                actor_name := person_name person;
                                profilePath := profile_path person;
                                isDeceased := truthy (person_deathday person) |};
                    movie := None |} ];
       totalDeceased := if truthy (person_deathday person) then 1 else 0;
       deceasedOnPath := [] |}).

(** [findConnection]; [None] is the [null] of "no connection". *)
Definition findConnection (fuel : nat) (actorAId actorBId : Z) (options : Options)
    : M (option ConnectionResult) :=
  let maxDeg := default 6 (maxDegrees options) in
  if decide (actorAId = actorBId) then sameActor actorAId
  else
    clearFilmographyCache ;;;
    st <- searchLoop fuel maxDeg (initialState actorAId actorBId) ;;
    match meetingPoint st with
    | None => clearFilmographyCache ;;; ret None
    | Some mp => result <- buildResult st mp ;; ret (Some result)
    end.

End Search.

(** ** Stub providers for the concrete scenarios *)

Definition digitOf (c : Ascii.ascii) : option Z :=
  let n := Z.of_N (Ascii.N_of_ascii c) in
  if (48 <=? n) && (n <=? 57) then Some (n - 48) else None.

Fixpoint parseDigits (s : string) (acc : option Z) : option Z :=
  match s with
  | EmptyString => acc
  | String c s' =>
      match digitOf c with
      | Some d => parseDigits s' (Some (10 * default 0 acc + d))
      | None => acc
      end
  end.

(** [parseInt] on the strings the stubs use: leading decimal digits. *)
Definition parseIntDec (s : string) : JsNumber :=
  match parseDigits s None with
  | Some z => Int z
  | None => NaN
  end.

Definition mkCredit (id : Z) (title date : string) (pop : Q) : TMDBCredit :=
  {| credit_id := id;
     credit_title := title;
     release_date := Some date;
     popularity := pop |}.

Definition movie10 : TMDBCredit := mkCredit 10 "Ten" "2010-05-01" (5 # 1).
Definition movie20 : TMDBCredit := mkCredit 20 "Twenty" "2020-06-01" (7 # 1).

Definition stubPerson (a : Z) : TMDBPerson :=
  {| person_id := a;
     person_name := "Actor " +:+ pretty a;
     profile_path := None;
     person_deathday := None |}.

(** Actor 1 and actor 3 share movie 10, actor 3 and actor 2 share movie 20,
    and there is no other link. *)
Definition twoHop : Providers :=
  {| parseInt := parseIntDec;
     getPersonCredits := fun a =>
       if decide (a = 1) then Some {| cast := [movie10] |}
       else if decide (a = 3) then Some {| cast := [movie10; movie20] |}
       else if decide (a = 2) then Some {| cast := [movie20] |}
       else Some {| cast := [] |};
     getMovieCredits := fun m =>
       if decide (m = 10) then Some {| movie_cast := [1; 3] |}
       else if decide (m = 20) then Some {| movie_cast := [3; 2] |}
       else None;
     getPersonDetails := fun a => Some (stubPerson a);
     getDeceasedPersons := fun _ => Some ∅ |}.

(** The two-hop graph with the filmography fetch of actor 1 failing. *)
Definition twoHopCreditsDown : Providers :=
  {| parseInt := parseIntDec;
     getPersonCredits := fun a =>
       if decide (a = 1) then None else getPersonCredits twoHop a;
     getMovieCredits := getMovieCredits twoHop;
     getPersonDetails := getPersonDetails twoHop;
     getDeceasedPersons := getDeceasedPersons twoHop |}.

(** The two-hop graph with the cast fetch of movie 10 and the detail fetch
    of actor 3 failing. *)
Definition twoHopFlaky : Providers :=
  {| parseInt := parseIntDec;
     getPersonCredits := fun a =>
       if decide (a = 1)
       then Some {| cast := [movie10; mkCredit 11 "Eleven" "2011-01-01" (4 # 1)] |}
       else getPersonCredits twoHop a;
     getMovieCredits := fun m =>
       if decide (m = 10) then None
       else if decide (m = 11) then Some {| movie_cast := [1; 3] |}
       else getMovieCredits twoHop m;
     getPersonDetails := fun a =>
       if decide (a = 3) then None else Some (stubPerson a);
     getDeceasedPersons := fun _ => Some ∅ |}.

(** Actor 1 and actor 3 share movie 10, actor 3 and actor 4 share movie 20,
    and actor 2 has no credits at all. *)
Definition strandedB : Providers :=
  {| parseInt := parseIntDec;
     getPersonCredits := fun a =>
       if decide (a = 1) then Some {| cast := [movie10] |}
       else if decide (a = 3) then Some {| cast := [movie10; movie20] |}
       else if decide (a = 4) then Some {| cast := [movie20] |}
       else Some {| cast := [] |};
     getMovieCredits := fun m =>
       if decide (m = 10) then Some {| movie_cast := [1; 3] |}
       else if decide (m = 20) then Some {| movie_cast := [3; 4] |}
       else None;
     getPersonDetails := fun a => Some (stubPerson a);
     getDeceasedPersons := fun _ => Some ∅ |}.

(** Actor 7 died, and the details provider says so. *)
Definition lateActor : Providers :=
  {| parseInt := parseIntDec;
     getPersonCredits := fun _ => Some {| cast := [] |};
     getMovieCredits := fun _ => None;
     getPersonDetails := fun a =>
       Some {| person_id := a;
               person_name := "Late Actor";
               profile_path := Some "/late.jpg";
               person_deathday := Some "1999-03-07" |};
     getDeceasedPersons := fun _ => None |}.

(** Actor 1 played with actor 5 in a little known movie (30), in a well
    known one (31), and in an undated one (40) that is better known still. *)
Definition precedenceCredits : TMDBPersonCredits :=
  {| cast := [ mkCredit 30 "Low" "1990-01-01" (1 # 1);
               {| credit_id := 40; credit_title := "Undated";
                  release_date := Some ""; popularity := 99 # 1 |};
               mkCredit 31 "High" "1991-01-01" (9 # 1) ] |}.

Definition precedence : Providers :=
  {| parseInt := parseIntDec;
     getPersonCredits := fun a =>
       if decide (a = 1) then Some precedenceCredits else Some {| cast := [] |};
     getMovieCredits := fun m =>
       if decide (m = 30) then Some {| movie_cast := [1; 5] |}
       else if decide (m = 31) then Some {| movie_cast := [5; 1; 6] |}
       else if decide (m = 40) then Some {| movie_cast := [5; 7] |}
       else None;
     getPersonDetails := fun a => Some (stubPerson a);
     getDeceasedPersons := fun _ => Some ∅ |}.

(** Actor 1 has 25 dated movies, with ids 100 to 124 and a popularity that
    grows with the id, and actor [200 + i] is the co-star of movie [100 + i],
    billed after 35 extras. *)
Definition manyMovies : list TMDBCredit :=
  (fun i => mkCredit (100 + i) "Movie" "2000-01-01" (inject_Z i)) <$> seqZ 0 25.

Definition prolific : Providers :=
  {| parseInt := parseIntDec;
     getPersonCredits := fun a =>
       if decide (a = 1) then Some {| cast := manyMovies |}
       else Some {| cast := [] |};
     getMovieCredits := fun m =>
       Some {| movie_cast := [1; 100 + m] ++ ((fun i => 1000 + i) <$> seqZ 0 35) ++ [900] |};
     getPersonDetails := fun a => Some (stubPerson a);
     getDeceasedPersons := fun _ => Some ∅ |}.

Definition emptyWorld : World := {| filmographyCache := ∅; trace := [] |}.

Definition segmentOf (a : Z) (m : option PathMovie) : PathSegment :=
  {| actor := {| actor_id := a;
                 actor_name := "Actor " +:+ pretty a;
                 profilePath := None;
                 isDeceased := false |};
     movie := m |}.

(** What the search answers on the two-hop graph. *)
Definition twoHopResult : ConnectionResult :=
  {| degrees := 2;
     path := [ segmentOf 1 (Some {| pm_id := 10;
                                    pm_title := "Ten";
                                    pm_year := Some (Int 2010);
                                    posterPath := None |});
               segmentOf 3 None;
               segmentOf 2 None ];
     totalDeceased := 0;
     deceasedOnPath := [] |}.

(** ** Predicates used by the statements *)

(** A state in which the [while] loop spins without expanding anything:
    the A side is ahead, and the B side has nothing left to expand. *)
Definition stuck (maxDeg : Z) (st : SearchState) : Prop :=
  queueA st <> [] /\ queueB st = [] /\
  degreesFromB st < degreesFromA st /\
  degreesFromA st + degreesFromB st < maxDeg.

(** [m] keeps the invariant [I] of the world when it returns, and leaves the
    world in [E] when it throws or runs out of fuel. *)
Definition keeps {A} (I E : World -> Prop) (m : M A) : Prop :=
  forall w, I w ->
    match m w with
    | (Ok _, w') => I w'
    | (_, w') => E w'
    end.

(** The actor ids of the filmography fetches of a trace. *)
Definition creditFetches (t : list Call) : list Z :=
  omap (fun c => match c with FetchPersonCredits a => Some a | _ => None end) t.

Definition isDeceasedCall (c : Call) : Prop :=
  match c with FetchDeceasedPersons _ => True | _ => False end.

(** Since the trace was [t0]: every filmography fetch was for a different
    actor, and its answer is in the cache. *)
Definition fetchedOnce (t0 : list Call) (w : World) : Prop :=
  exists new, trace w = new ++ t0 /\ NoDup (creditFetches new) /\
    forall a, a ∈ creditFetches new -> is_Some (filmographyCache w !! a).

Definition fetchedOnceAtMost (t0 : list Call) (w : World) : Prop :=
  exists new, trace w = new ++ t0 /\ NoDup (creditFetches new).

(** Since the trace was [t0], the deceased-records store was not asked. *)
Definition noDeceasedCall (t0 : list Call) (w : World) : Prop :=
  exists new, trace w = new ++ t0 /\ Forall (fun c => ~ isDeceasedCall c) new.

(** Whatever the outcome of [m], it leaves the world in [E]. *)
Definition ends {A} (I E : World -> Prop) (m : M A) : Prop :=
  forall w, I w -> E (m w).2.

Definition notCreditsCall (c : Call) : Prop :=
  match c with FetchPersonCredits _ => False | _ => True end.

Definition traceExtends (t0 : list Call) (w : World) : Prop :=
  exists new, trace w = new ++ t0.

(** [x] is in front of [y] in descending popularity. *)
Definition byPopularity (x y : TMDBCredit) : Prop :=
  (popularity y <= popularity x)%Q.

(** The entry the expander records for a co-star found in [movie]. *)
Definition infoOf (P : Providers) (movie : TMDBCredit) : MovieInfo :=
  {| movieId := credit_id movie;
     movieTitle := credit_title movie;
     movieYear := yearOf P movie |}.

(** The cast fetch of [movie] succeeds and bills [c] among the first 30. *)
Definition castIncludes (P : Providers) (movie : TMDBCredit) (c : Z) : Prop :=
  exists credits,
    getMovieCredits P (credit_id movie) = Some credits /\
    c ∈ take 30 (movie_cast credits).

Definition dated (movie : TMDBCredit) : Prop := truthy (release_date movie) = true.

(** ** The two sides mirror each other *)

Definition swapMeeting (mp : MeetingPoint) : MeetingPoint :=
  {| mp_actorId := mp_actorId mp;
     movieFromA := movieFromB mp;
     movieFromB := movieFromA mp |}.

Definition swapState (st : SearchState) : SearchState :=
  {| visitedFromA := visitedFromB st;
     visitedFromB := visitedFromA st;
     queueA := queueB st;
     queueB := queueA st;
     degreesFromA := degreesFromB st;
     degreesFromB := degreesFromA st;
     meetingPoint := swapMeeting <$> meetingPoint st |}.

Definition mapOutcome {A B} (f : A -> B) (r : Outcome A * World) : Outcome B * World :=
  match r with
  | (Ok a, w) => (Ok (f a), w)
  | (Throw e, w) => (Throw e, w)
  | (OutOfFuel, w) => (OutOfFuel, w)
  end.

(** [queueA] after [queueA.shift()]. *)
Definition shiftA (st : SearchState) : SearchState :=
  {| visitedFromA := visitedFromA st;
     visitedFromB := visitedFromB st;
     queueA := tail (queueA st);
     queueB := queueB st;
     degreesFromA := degreesFromA st;
     degreesFromB := degreesFromB st;
     meetingPoint := meetingPoint st |}.



(** ** Invariants of the two frontiers *)

(** The actor ids from a node up to the root of its tree. *)
Definition chainIds (n : BFSNode) : list Z := pe_actorId <$> walkUp n.

(** Every node of a visited map sits under its own actor id, no actor
    occurs twice on its way to the root, and all of them are visited. *)
Definition wfVisited (V : gmap Z BFSNode) : Prop :=
  forall k n, V !! k = Some n ->
    actorId n = k /\ NoDup (chainIds n) /\
    forall x, x ∈ chainIds n -> is_Some (V !! x).

(** The queued nodes are the ones stored in the visited map. *)
Definition registered (V : gmap Z BFSNode) (queue : list BFSNode) : Prop :=
  forall n, n ∈ queue -> V !! actorId n = Some n.

(** The state of a search that has not met yet. *)
Definition running (st : SearchState) : Prop :=
  meetingPoint st = None /\
  wfVisited (visitedFromA st) /\ wfVisited (visitedFromB st) /\
  (forall x, is_Some (visitedFromA st !! x) -> is_Some (visitedFromB st !! x) -> False) /\
  registered (visitedFromA st) (queueA st) /\
  registered (visitedFromB st) (queueB st).

(** The state of a search that met at [mp]. *)
Definition met (st : SearchState) (mp : MeetingPoint) : Prop :=
  exists nA nB,
    visitedFromA st !! mp_actorId mp = Some nA /\
    visitedFromB st !! mp_actorId mp = Some nB /\
    actorId nA = mp_actorId mp /\ actorId nB = mp_actorId mp /\
    NoDup (chainIds nA) /\ NoDup (chainIds nB) /\
    (forall x, x ∈ chainIds nA -> x ∈ chainIds nB -> x = mp_actorId mp) /\
    (forall x, is_Some (visitedFromA st !! x) -> is_Some (visitedFromB st !! x) ->
               x = mp_actorId mp).

Definition good (st : SearchState) : Prop :=
  match meetingPoint st with
  | None => running st
  | Some mp => met st mp
  end.

Definition segmentIds (p : list PathSegment) : list Z :=
  (fun s => actor_id (actor s)) <$> p.

(** ** Provider failures *)

(** The search between [a] and [b] rejects for no number of iterations. *)
Definition neverRejects (P : Providers) (a b : Z) (options : Options) (w : World)
    : Prop :=
  forall fuel e, (findConnection P fuel a b options w).1 <> Throw e.

(** The providers whose failure the search does not catch always answer. *)
Definition creditsAnswered (P : Providers) : Prop :=
  (forall a, is_Some (getPersonCredits P a)) /\
  (forall ids, is_Some (getDeceasedPersons P ids)).

(** ** Further predicates: exits, enrichment, and the shape of the path *)

(** The two-hop graph with the deceased-records store failing. *)
Definition twoHopStoreDown : Providers :=
  {| parseInt := parseIntDec;
     getPersonCredits := getPersonCredits twoHop;
     getMovieCredits := getMovieCredits twoHop;
     getPersonDetails := getPersonDetails twoHop;
     getDeceasedPersons := fun _ => None |}.

(** Since the trace was [t0], every filmography the provider answered with
    is still in the cache. *)
Definition cachedSince (P : Providers) (t0 : list Call) (w : World) : Prop :=
  exists new, trace w = new ++ t0 /\
    forall x credits, x ∈ creditFetches new -> getPersonCredits P x = Some credits ->
                      filmographyCache w !! x = Some credits.

(** What the enrichment stores for actor [x]: the details of the provider,
    or the placeholder when the fetch fails. *)
Definition detailsOf (P : Providers) (x : Z) : ActorInfo :=
  match getPersonDetails P x with
  | Some person =>
      {| info_name := person_name person;
         info_profilePath := profile_path person;
         info_isDeceased := truthy (person_deathday person) |}
  | None =>
      {| info_name := "Actor " +:+ pretty x;
         info_profilePath := None;
         info_isDeceased := false |}
  end.

Definition actorOf (P : Providers) (x : Z) : PathActor :=
  {| actor_id := x;
     actor_name := info_name (detailsOf P x);
     profilePath := info_profilePath (detailsOf P x);
     isDeceased := info_isDeceased (detailsOf P x) |}.

Definition toPathMovie (m : NodeMovie) : PathMovie :=
  {| pm_id := nm_id m;
     pm_title := nm_title m;
     pm_year := nm_year m;
     posterPath := None |}.

(** The final path of a combined path whose actors all have their details. *)
Definition finalPathOf (P : Providers) (combined : list PathEntry) : list PathSegment :=
  imap (fun i segment =>
          {| actor := actorOf P (pe_actorId segment);
             movie := toPathMovie <$> (combined !! S i ≫= pe_movie) |})
       combined.

Definition deceasedIdsOf (finalPath : list PathSegment) : list Z :=
  (fun p => actor_id (actor p)) <$> deceasedSegments finalPath.

Definition rowToDeceased (d : DeceasedRow) : DeceasedOnPath :=
  {| dop_id := tmdb_id d;
     dop_name := row_name d;
     deathday := row_deathday d;
     causeOfDeath := cause_of_death d;
     ageAtDeath := age_at_death d |}.

(** The two-hop graph where actor 3 died, the details of actor 2 cannot be
    fetched, and the store knows actor 3. *)
Definition twoHopMourning : Providers :=
  {| parseInt := parseIntDec;
     getPersonCredits := getPersonCredits twoHop;
     getMovieCredits := getMovieCredits twoHop;
     getPersonDetails := fun a =>
       if decide (a = 3)
       then Some {| person_id := 3; person_name := "Three";
                    profile_path := Some "/three.jpg";
                    person_deathday := Some "2001-02-03" |}
       else if decide (a = 2) then None
       else Some (stubPerson a);
     getDeceasedPersons := fun ids =>
       Some (<[3 := {| tmdb_id := 3; row_name := "Three";
                       row_deathday := Some "2001-02-03";
                       cause_of_death := Some "old age";
                       age_at_death := Some 90 |}]> ∅) |}.

Definition twoHopMourningResult : ConnectionResult :=
  {| degrees := 2;
     path := [ segmentOf 1 (Some {| pm_id := 10; pm_title := "Ten";
                                    pm_year := Some (Int 2010);
                                    posterPath := None |});
               {| actor := {| actor_id := 3; actor_name := "Three";
                              profilePath := Some "/three.jpg";
                              isDeceased := true |};
                  movie := None |};
               segmentOf 2 None ];
     totalDeceased := 1;
     deceasedOnPath := [ {| dop_id := 3; dop_name := "Three";
                            deathday := Some "2001-02-03";
                            causeOfDeath := Some "old age";
                            ageAtDeath := Some 90 |} ] |}.

(** ** Further invariants: roots, depths and hops *)

(** Actor [y] is a co-star of actor [x]: one of the top movies of [x] bills
    [y] among its first 30, and [info] is what is recorded of that movie. *)
Definition coStarVia (P : Providers) (x y : Z) (info : MovieInfo) : Prop :=
  y <> x /\
  exists fg movie,
    getPersonCredits P x = Some fg /\ movie ∈ topMovies fg /\
    castIncludes P movie y /\ info = infoOf P movie.

(** The entry of a node and the entry of its parent: the node's actor is a
    co-star of the parent's, in the movie the node's entry carries. *)
Definition entryLinked (P : Providers) (child parent : PathEntry) : Prop :=
  exists info,
    coStarVia P (pe_actorId parent) (pe_actorId child) info /\
    pe_movie child = Some (nodeMovieOf info).

(** Every two consecutive elements of [l] are related by [R]. *)
Definition eachHop {A} (R : A -> A -> Prop) (l : list A) : Prop :=
  forall i x y, l !! i = Some x -> l !! S i = Some y -> R x y.

(** A node of the tree rooted at [root], at most [d] hops away from it:
    its way up ends at the movie-less entry of the root, and each hop of it
    is a co-star link. *)
Definition nodeOk (P : Providers) (root d : Z) (n : BFSNode) : Prop :=
  Z.of_nat (length (walkUp n)) <= d + 1 /\
  last (walkUp n) = Some {| pe_actorId := root; pe_movie := None |} /\
  eachHop (entryLinked P) (walkUp n).

(** What the cache holds is what the provider answers. *)
Definition cacheSound (P : Providers) (w : World) : Prop :=
  forall x credits,
    filmographyCache w !! x = Some credits -> getPersonCredits P x = Some credits.

(** The trees of a search between [a] and [b], between two levels. *)
Definition tracked (P : Providers) (a b : Z) (st : SearchState) (w : World) : Prop :=
  cacheSound P w /\
  (forall k n, visitedFromA st !! k = Some n -> nodeOk P a (degreesFromA st) n) /\
  (forall k n, visitedFromB st !! k = Some n -> nodeOk P b (degreesFromB st) n).

(** The same within a level of the A side that has [n] nodes left: these
    are the first [n] of the queue, one level above the one being built. *)
Definition trackedLevel (P : Providers) (a b : Z) (n : nat) (st : SearchState)
    (w : World) : Prop :=
  tracked P a b st w /\
  (n <= length (queueA st))%nat /\
  Forall (fun nd => Z.of_nat (length (walkUp nd)) <= degreesFromA st)
         (take n (queueA st)).

(** Two actors share a movie, seen from one of them. *)
Definition hop (P : Providers) (x y : Z) : Prop :=
  exists info, coStarVia P x y info \/ coStarVia P y x info.

(** The two degree counters of a search with bound [maxDeg] move together:
    they are equal, or the A side is one ahead of an exhausted B side, or the
    A side is exhausted and behind. *)
Definition paced (st : SearchState) : Prop :=
  degreesFromA st = degreesFromB st \/
  (degreesFromA st = degreesFromB st + 1 /\ queueB st = []) \/
  (queueA st = [] /\ degreesFromA st <= degreesFromB st).

(** How far the two counters get: one past the bound, and not past an even
    bound. *)
Definition bounded (maxDeg : Z) (st : SearchState) : Prop :=
  degreesFromA st + degreesFromB st <= Z.max 0 (maxDeg + 1) /\
  (Z.even maxDeg = true -> degreesFromA st + degreesFromB st <= Z.max 0 maxDeg).

(** A chain of four hops: 1 - movie 10 - 3 - movie 20 - 4 - movie 30 - 5 -
    movie 40 - 2. *)
Definition movie30 : TMDBCredit := mkCredit 30 "Thirty" "2030-01-01" (3 # 1).
Definition movie40 : TMDBCredit := mkCredit 40 "Forty" "2040-01-01" (4 # 1).

Definition fourHop : Providers :=
  {| parseInt := parseIntDec;
     getPersonCredits := fun x =>
       if decide (x = 1) then Some {| cast := [movie10] |}
       else if decide (x = 3) then Some {| cast := [movie10; movie20] |}
       else if decide (x = 4) then Some {| cast := [movie20; movie30] |}
       else if decide (x = 5) then Some {| cast := [movie30; movie40] |}
       else if decide (x = 2) then Some {| cast := [movie40] |}
       else Some {| cast := [] |};
     getMovieCredits := fun m =>
       if decide (m = 10) then Some {| movie_cast := [1; 3] |}
       else if decide (m = 20) then Some {| movie_cast := [3; 4] |}
       else if decide (m = 30) then Some {| movie_cast := [4; 5] |}
       else if decide (m = 40) then Some {| movie_cast := [5; 2] |}
       else None;
     getPersonDetails := fun x => Some (stubPerson x);
     getDeceasedPersons := fun _ => Some ∅ |}.

(** ** The actor search route ([server/src/routes/six-degrees.ts]) *)

Record TMDBKnownFor := {
  kf_title : option string;
  kf_name : option string
}.

Record TMDBSearchPerson := {
  sp_id : Z;
  sp_name : string;
  sp_profile_path : option string;
  known_for_department : option string;
  known_for : list TMDBKnownFor
}.

Record TMDBSearchResponse := { results : list TMDBSearchPerson }.

(** An entry of the answer; [knownFor] holds what [item.title || item.name]
    evaluates to, [None] standing for [undefined]. *)
Record ActorSearchResult := {
  result_id : Z;
  result_name : string;
  result_profilePath : option string;
  knownFor : list (option string)
}.

Inductive ResponseBody :=
  | ResultsBody (actors : list ActorSearchResult)
  | ErrorBody (message : string).

(** What [res.json] sends, with the status set before it (200 when none). *)
Record Response := {
  status : Z;
  body : ResponseBody
}.

(** The code units below 256 that [String.prototype.trim] strips: the
    white space TAB, VT, FF, SP, NBSP and the line terminators LF, CR. *)
Definition isWhiteSpace (c : Ascii.ascii) : bool :=
  let n := Ascii.nat_of_ascii c in
  (n =? 9)%nat || (n =? 10)%nat || (n =? 11)%nat || (n =? 12)%nat ||
  (n =? 13)%nat || (n =? 32)%nat || (n =? 160)%nat.

Fixpoint trimStart (s : string) : string :=
  match s with
  | EmptyString => EmptyString
  | String c s' => if isWhiteSpace c then trimStart s' else s
  end.

Fixpoint trimEnd (s : string) : string :=
  match s with
  | EmptyString => EmptyString
  | String c s' =>
      match trimEnd s' with
      | EmptyString => if isWhiteSpace c then EmptyString else String c EmptyString
      | t => String c t
      end
  end.

Definition trim (s : string) : string := trimEnd (trimStart s).

(** [x || y] on two values that are strings or [undefined]. *)
Definition orElse (x y : option string) : option string :=
  if truthy x then x else y.

Definition isActing (person : TMDBSearchPerson) : Prop :=
  known_for_department person = Some "Acting".

Definition formatActor (person : TMDBSearchPerson) : ActorSearchResult :=
  {| result_id := sp_id person;
     result_name := sp_name person;
     result_profilePath := sp_profile_path person;
     knownFor :=
       (fun item => orElse (kf_title item) (kf_name item))
         <$> take 3 (filter (fun item => truthy (orElse (kf_title item) (kf_name item)) = true)
                            (known_for person)) |}.

(** What Express hands over as [req.query.q]: a string, the array that a
    repeated parameter gives ([?q=a&q=b]), or what a bracketed parameter
    gives ([?q[k]=v]), an object or an array of objects of which the handler
    reads nothing but [trim].  The handler only casts it ([as string]). *)
Inductive QueryValue :=
  | QueryString (s : string)
  | QueryStrings (items : list string)
  | QueryNested.

(** [!query]: of the values above only the empty string is falsy. *)
Definition truthyQuery (query : QueryValue) : bool :=
  match query with
  | QueryString s => truthy (Some s)
  | QueryStrings _ | QueryNested => true
  end.

(** [query.trim()]: an array or an object of the query parser has no
    function [trim], and the call is a [TypeError]. *)
Definition trimQuery (query : QueryValue) : option string :=
  match query with
  | QueryString s => Some (trim s)
  | QueryStrings _ | QueryNested => None
  end.

(** [searchActorsRoute], with the response it sends and the queries it
    passes to [searchPerson]; [q] is [req.query.q], [None] when the request
    has no such parameter.  Whatever is thrown inside the [try], by
    [query.trim()] or by [searchPerson], ends in the [catch]. *)
Definition searchActorsRoute (searchPerson : string -> option TMDBSearchResponse)
    (q : option QueryValue) : Response * list string :=
  let empty := {| status := 200; body := ResultsBody [] |} in
  let failed := {| status := 500; body := ErrorBody "Failed to search actors" |} in
  match q with
  | None => (empty, [])
  | Some query =>
      if negb (truthyQuery query) then (empty, [])
      else
        match trimQuery query with
        | None => (failed, [])
        | Some trimmed =>
            if (String.length trimmed <? 2)%nat then (empty, [])
            else
              match trimQuery query with
              | None => (failed, [])
              | Some sentQuery =>
                  match searchPerson sentQuery with
                  | Some response =>
                      ({| status := 200;
                          body := ResultsBody
                                    (formatActor
                                       <$> take 10 (filter isActing (results response))) |},
                       [sentQuery])
                  | None => (failed, [sentQuery])
                  end
              end
        end
  end.

(** A stub of [searchPerson]: a director, then twelve actors; the first
    actor is known for four things, one of them nameless. *)
Definition stubSearch (query : string) : option TMDBSearchResponse :=
  if String.eqb query "tom h"
  then Some {| results :=
         {| sp_id := 500; sp_name := "Tom Hooper"; sp_profile_path := None;
            known_for_department := Some "Directing"; known_for := [] |}
         :: {| sp_id := 600; sp_name := "Tom Hanks"; sp_profile_path := Some "/th.jpg";
               known_for_department := Some "Acting";
               known_for := [ {| kf_title := Some "Big"; kf_name := None |};
                              {| kf_title := Some ""; kf_name := None |};
                              {| kf_title := None; kf_name := Some "Show" |};
                              {| kf_title := Some "Cast Away"; kf_name := None |};
                              {| kf_title := Some "Sully"; kf_name := None |} ] |}
         :: ((fun i => {| sp_id := 601 + i; sp_name := "Tom H"; sp_profile_path := None;
                          known_for_department := Some "Acting"; known_for := [] |})
               <$> seqZ 0 11) |}
  else None.

(** Every character of [s] is stripped by [trim]. *)
Fixpoint blank (s : string) : bool :=
  match s with
  | EmptyString => true
  | String c s' => isWhiteSpace c && blank s'
  end.

Definition firstChar (s : string) : option Ascii.ascii := String.get 0 s.

Definition lastChar (s : string) : option Ascii.ascii :=
  String.get (String.length s - 1) s.

Definition solid (c : option Ascii.ascii) : Prop :=
  exists x, c = Some x /\ isWhiteSpace x = false.

(** The provider has no answer to the call [c]. *)
Definition failedCall (P : Providers) (c : Call) : Prop :=
  match c with
  | FetchPersonCredits x => getPersonCredits P x = None
  | FetchMovieCredits m => getMovieCredits P m = None
  | FetchPersonDetails x => getPersonDetails P x = None
  | FetchDeceasedPersons ids => getDeceasedPersons P ids = None
  end.

(** A rejection with the failure of a filmography fetch, the last call made. *)
Definition creditsRejection (P : Providers) (e : Error) (w : World) : Prop :=
  exists x, e = ProviderError (FetchPersonCredits x) /\
            getPersonCredits P x = None /\
            head (trace w) = Some (FetchPersonCredits x).

(** Actor 1 has an undated entry, better known than all the others, in
    front of 20 dated ones with ids 100 to 119. *)
Definition undatedFirst : list TMDBCredit :=
  {| credit_id := 99; credit_title := "Announced"; release_date := None;
     popularity := 100 # 1 |}
  :: ((fun i => mkCredit (100 + i) "Movie" "2000-01-01" (inject_Z i)) <$> seqZ 0 20).

Definition crowded : Providers :=
  {| parseInt := parseIntDec;
     getPersonCredits := fun a =>
       if decide (a = 1) then Some {| cast := undatedFirst |}
       else Some {| cast := [] |};
     getMovieCredits := getMovieCredits prolific;
     getPersonDetails := fun a => Some (stubPerson a);
     getDeceasedPersons := fun _ => Some ∅ |}.

(** * Properties *)

(** ** The monad *)

Lemma bind_ok {A B} (m : M A) (k : A -> M B) w a w' :
  m w = (Ok a, w') -> bind m k w = k a w'.
Proof. intros H. unfold bind. now rewrite H. Qed.

Lemma bind_fuel {A B} (m : M A) (k : A -> M B) w w' :
  m w = (OutOfFuel, w') -> bind m k w = (OutOfFuel, w').
Proof. intros H. unfold bind. now rewrite H. Qed.

Lemma bind_inv_ok {A B} (m : M A) (k : A -> M B) w b w'' :
  bind m k w = (Ok b, w'') ->
  exists a w', m w = (Ok a, w') /\ k a w' = (Ok b, w'').
Proof.
  unfold bind. destruct (m w) as [[a|e|] w'] eqn:E; intros H; try discriminate.
  eauto.
Qed.

(** ** The concrete scenarios *)

(** C1 (the code departs from the claim): on the two-hop graph the search
    finds the two degrees and the path 1, 3, 2, and actor 1 carries movie 10,
    but actor 3 carries no movie at all instead of movie 20: the shift to
    "the movie of the next segment" reads the root node of the B side. *)
Theorem C1_two_hop_loses_movie20 (fuel : nat) :
  (findConnection twoHop (S fuel) 1 2 {| maxDegrees := Some 6 |} emptyWorld).1 =
    Ok (Some twoHopResult) /\
  movie <$> path twoHopResult =
    [ Some {| pm_id := 10; pm_title := "Ten"; pm_year := Some (Int 2010);
              posterPath := None |};
      None;
      None ].
Proof. split; vm_compute; reflexivity. Qed.

(** C3 (the code departs from the claim): with [maxDegrees = 1] the two
    actors of the two-hop graph are at distance 2, and the search still
    answers with a path of 2 degrees: the bound is checked once for the two
    levels that one iteration expands. *)
Theorem C3_bound_one_returns_two_degrees (fuel : nat) :
  exists r,
    (findConnection twoHop (S fuel) 1 2 {| maxDegrees := Some 1 |} emptyWorld).1 =
      Ok (Some r) /\
    degrees r = 2 /\
    (fun p => actor_id (actor p)) <$> path r = [1; 3; 2].
Proof. eexists. vm_compute. repeat split; reflexivity. Qed.

(** ** The loop that never ends *)

Section Loop.

Context (P : Providers).

Lemma searchLoop_continue fuel maxDeg st st' w :
  nonEmpty (queueA st) || nonEmpty (queueB st) = true ->
  (loopBody P maxDeg st w).1 = Ok (Continue, st') ->
  searchLoop P (S fuel) maxDeg st w =
  searchLoop P fuel maxDeg st' (loopBody P maxDeg st w).2.
Proof.
  intros Hq Hbody. cbn [searchLoop]. rewrite Hq.
  unfold bind at 1. destruct (loopBody P maxDeg st w) as [o w'].
  cbn in Hbody. subst o. reflexivity.
Qed.

Lemma stuck_loopBody maxDeg st w :
  stuck maxDeg st -> loopBody P maxDeg st w = (Ok (Continue, st), w).
Proof.
  intros (HqA & HqB & Hlt & Hsum). unfold loopBody, expandBothSides.
  replace (maxDeg <=? degreesFromA st + degreesFromB st) with false by lia.
  replace (degreesFromA st <=? degreesFromB st) with false by lia.
  rewrite andb_false_r. unfold bind, ret. rewrite HqB. reflexivity.
Qed.

(** Once stuck, the loop uses up any number of iterations. *)
Lemma stuck_forever maxDeg st :
  stuck maxDeg st ->
  forall fuel w, searchLoop P fuel maxDeg st w = (OutOfFuel, w).
Proof.
  intros Hst fuel. induction fuel as [|fuel IH]; intros w; [reflexivity|].
  rewrite (searchLoop_continue fuel maxDeg st st w).
  - rewrite stuck_loopBody by assumption. apply IH.
  - destruct Hst as (HqA & _). destruct (queueA st); [congruence|reflexivity].
  - now rewrite stuck_loopBody.
Qed.

Lemma findConnection_distinct fuel a b options w :
  a <> b ->
  findConnection P fuel a b options w =
  (st <- searchLoop P fuel (default 6 (maxDegrees options)) (initialState a b) ;;
   match meetingPoint st with
   | None => clearFilmographyCache ;;; ret None
   | Some mp => result <- buildResult P st mp ;; ret (Some result)
   end) {| filmographyCache := ∅; trace := trace w |}.
Proof.
  intros Hne. unfold findConnection. destruct (decide (a = b)); [contradiction|].
  reflexivity.
Qed.

End Loop.

(** With the default bound of 6, the search between actor 1 and the
    stranded actor 2 never returns: after two iterations the A side is one
    level ahead, the B queue is empty, and no branch of the loop body runs. *)
Lemma stranded_search_never_returns (fuel : nat) :
  (findConnection strandedB fuel 1 2 {| maxDegrees := None |} emptyWorld).1 = OutOfFuel.
Proof.
  destruct fuel as [|[|fuel]]; [vm_compute; reflexivity ..|].
  rewrite findConnection_distinct by discriminate.
  unfold bind at 1.
  erewrite searchLoop_continue; [|vm_compute; reflexivity ..].
  erewrite searchLoop_continue; [|vm_compute; reflexivity ..].
  rewrite stuck_forever; [reflexivity|].
  unfold stuck. vm_compute. repeat split; congruence.
Qed.

(** ** Invariants of the world along the search *)

Lemma ends_of_keeps {A} (I E : World -> Prop) (m : M A) :
  (forall w, I w -> E w) -> keeps I E m -> ends I E m.
Proof.
  intros HIE Hm w Hw. specialize (Hm w Hw).
  destruct (m w) as [[a|e|] w']; cbn; auto.
Qed.

Lemma ends_bind {A B} (I E : World -> Prop) (m : M A) (k : A -> M B) :
  keeps I E m -> (forall a, ends I E (k a)) -> ends I E (bind m k).
Proof.
  intros Hm Hk w Hw. specialize (Hm w Hw). unfold bind.
  destruct (m w) as [[a|e|] w']; cbn; auto. now apply Hk.
Qed.

Section Keeps.

Context (P : Providers).
Context (I E : World -> Prop) (okCall : Call -> Prop).
Hypothesis I_E : forall w, I w -> E w.
Hypothesis keeps_call :
  forall A c (r : option A), okCall c -> keeps I I (call c r).
Hypothesis keeps_getFilmography :
  forall a, keeps I E (getFilmography P a).
Hypothesis ok_movie : forall m, okCall (FetchMovieCredits m).
Hypothesis ok_details : forall a, okCall (FetchPersonDetails a).

Lemma keeps_ret {A} (a : A) : keeps I E (ret a).
Proof. intros w Hw. exact Hw. Qed.

Lemma keeps_throw {A} e : keeps I E (@throw A e).
Proof. intros w Hw. cbn. auto. Qed.

Lemma keeps_bind {A B} (m : M A) (k : A -> M B) :
  keeps I E m -> (forall a, keeps I E (k a)) -> keeps I E (bind m k).
Proof.
  intros Hm Hk w Hw. specialize (Hm w Hw). unfold bind.
  destruct (m w) as [[a|e|] w']; auto. now apply Hk.
Qed.

Lemma keeps_weaken {A} (m : M A) : keeps I I m -> keeps I E m.
Proof.
  intros Hm w Hw. specialize (Hm w Hw). destruct (m w) as [[a|e|] w']; auto.
Qed.

Lemma keeps_tryCatch {A} (m : M A) (h : Error -> M A) :
  keeps I I m -> (forall e, keeps I E (h e)) -> keeps I E (tryCatch m h).
Proof.
  intros Hm Hh w Hw. specialize (Hm w Hw). unfold tryCatch.
  destruct (m w) as [[a|e|] w']; auto. now apply Hh.
Qed.

Lemma keeps_bind_strong {A B} (m : M A) (k : A -> M B) :
  keeps I I m -> (forall a, keeps I I (k a)) -> keeps I I (bind m k).
Proof.
  intros Hm Hk w Hw. specialize (Hm w Hw). unfold bind.
  destruct (m w) as [[a|e|] w']; auto. now apply Hk.
Qed.

Lemma keeps_addMovies a movies coStars :
  keeps I E (addMovies P a movies coStars).
Proof.
  revert coStars. induction movies as [|movie rest IH]; intros coStars; cbn.
  - apply keeps_ret.
  - apply keeps_bind; [|intros; apply IH].
    apply keeps_tryCatch; [|intros; apply keeps_ret].
    apply keeps_bind_strong; [now apply keeps_call|].
    intros credits w Hw. exact Hw.
Qed.

Lemma keeps_getCoStars a : keeps I E (getCoStars P a).
Proof.
  apply keeps_bind; [apply keeps_getFilmography|].
  intros. apply keeps_addMovies.
Qed.

Lemma keeps_levelLoopA n st : keeps I E (levelLoopA P n st).
Proof.
  revert st. induction n as [|n IH]; intros st; cbn; [apply keeps_ret|].
  destruct (queueA st) as [|current rest]; [apply keeps_throw|].
  apply keeps_bind; [apply keeps_getCoStars|]. intros coStars.
  destruct (meetingPoint _); [apply keeps_ret|apply IH].
Qed.

Lemma keeps_levelLoopB n st : keeps I E (levelLoopB P n st).
Proof.
  revert st. induction n as [|n IH]; intros st; cbn; [apply keeps_ret|].
  destruct (queueB st) as [|current rest]; [apply keeps_throw|].
  apply keeps_bind; [apply keeps_getCoStars|]. intros coStars.
  destruct (meetingPoint _); [apply keeps_ret|apply IH].
Qed.

Lemma keeps_expandBothSides st : keeps I E (expandBothSides P st).
Proof.
  apply keeps_bind.
  - destruct (_ && _); [|apply keeps_ret].
    apply keeps_bind; [apply keeps_levelLoopA|]. intros; apply keeps_ret.
  - intros [[] st']; [|apply keeps_ret].
    destruct (_ && _); [|apply keeps_ret].
    apply keeps_bind; [apply keeps_levelLoopB|]. intros; apply keeps_ret.
Qed.

Lemma keeps_loopBody maxDeg st : keeps I E (loopBody P maxDeg st).
Proof.
  unfold loopBody. destruct (_ <=? _); [apply keeps_ret|].
  apply keeps_expandBothSides.
Qed.

Lemma keeps_searchLoop fuel maxDeg st : keeps I E (searchLoop P fuel maxDeg st).
Proof.
  revert st. induction fuel as [|fuel IH]; intros st; cbn.
  - intros w Hw. cbn. auto.
  - destruct (_ || _); [|apply keeps_ret].
    apply keeps_bind; [apply keeps_loopBody|].
    intros [[] st']; [apply IH|apply keeps_ret].
Qed.

Lemma keeps_fetchActorDetails actorIds actorDetails :
  keeps I E (fetchActorDetails P actorIds actorDetails).
Proof.
  revert actorDetails. induction actorIds as [|a rest IH]; intros actorDetails; cbn.
  - apply keeps_ret.
  - apply keeps_bind; [|intros; apply IH].
    apply keeps_tryCatch; [|intros; apply keeps_ret].
    apply keeps_bind_strong; [now apply keeps_call|].
    intros person w Hw. exact Hw.
Qed.

(** What follows the loop: the answer for no meeting point, or the path. *)
Lemma ends_afterLoop st :
  (forall ids, okCall (FetchDeceasedPersons ids)) ->
  (forall w, I w -> E {| filmographyCache := ∅; trace := trace w |}) ->
  ends I E
    match meetingPoint st with
    | None => clearFilmographyCache ;;; ret None
    | Some mp => result <- buildResult P st mp ;; ret (Some result)
    end.
Proof.
  intros Hok Hclear. destruct (meetingPoint st) as [mp|].
  - unfold buildResult. intros w Hw. unfold bind at 1.
    pose proof (keeps_fetchActorDetails
                  (pe_actorId <$> combinedPath st mp) ∅ w Hw) as H1.
    unfold bind at 1.
    destruct (fetchActorDetails _ _ _ w) as [[details|e|] w1]; cbn; auto.
    destruct (buildFinalPath _ details) as [finalPath|]; cbn; auto.
    unfold bind at 1.
    pose proof (keeps_call _ (FetchDeceasedPersons
                  ((fun p => actor_id (actor p)) <$> deceasedSegments finalPath))
                  (getDeceasedPersons P
                     ((fun p => actor_id (actor p)) <$> deceasedSegments finalPath))
                  (Hok _) w1 H1) as H2.
    destruct (call _ _ w1) as [[infoMap|e|] w2]; cbn; auto.
  - intros w Hw. cbn. auto.
Qed.

End Keeps.

(** ** The filmography cache *)

Section Cache.

Context (P : Providers) (t0 : list Call).

Lemma fetchedOnce_weaken w : fetchedOnce t0 w -> fetchedOnceAtMost t0 w.
Proof. intros (new & Ht & Hnd & _). now exists new. Qed.

Lemma fetchedOnce_call {A} c (r : option A) :
  notCreditsCall c -> keeps (fetchedOnce t0) (fetchedOnce t0) (call c r).
Proof.
  intros Hc w (new & Ht & Hnd & Hin).
  assert (Hnew : fetchedOnce t0
            {| filmographyCache := filmographyCache w; trace := c :: trace w |}).
  { exists (c :: new). cbn. rewrite Ht. split; [reflexivity|].
    destruct c; cbn in *; try contradiction; auto. }
  unfold call. destruct r; exact Hnew.
Qed.

(** A cache hit answers with the stored value and asks nobody. *)
Lemma getFilmography_hit a credits w :
  filmographyCache w !! a = Some credits ->
  getFilmography P a w = (Ok credits, w).
Proof. intros H. unfold getFilmography. now rewrite H. Qed.

(** A cache miss asks the provider once and stores the answer. *)
Lemma getFilmography_miss a credits w :
  filmographyCache w !! a = None ->
  getPersonCredits P a = Some credits ->
  getFilmography P a w =
    (Ok credits,
     {| filmographyCache := <[a := credits]> (filmographyCache w);
        trace := FetchPersonCredits a :: trace w |}).
Proof.
  intros Hmiss Hp. unfold getFilmography, bind, call. rewrite Hmiss, Hp.
  reflexivity.
Qed.

Lemma getFilmography_fail a w :
  filmographyCache w !! a = None ->
  getPersonCredits P a = None ->
  getFilmography P a w =
    (Throw (ProviderError (FetchPersonCredits a)),
     {| filmographyCache := filmographyCache w;
        trace := FetchPersonCredits a :: trace w |}).
Proof.
  intros Hmiss Hp. unfold getFilmography, bind, call. rewrite Hmiss, Hp.
  reflexivity.
Qed.

Lemma fetchedOnce_getFilmography a :
  keeps (fetchedOnce t0) (fetchedOnceAtMost t0) (getFilmography P a).
Proof.
  intros w (new & Ht & Hnd & Hin).
  destruct (filmographyCache w !! a) as [credits|] eqn:Hc.
  - rewrite (getFilmography_hit a credits w Hc). now exists new.
  - assert (Hfresh : a ∉ creditFetches new).
    { intros Ha. apply Hin in Ha. rewrite Hc in Ha. now destruct Ha. }
    destruct (getPersonCredits P a) as [credits|] eqn:Hp.
    + rewrite (getFilmography_miss a credits w Hc Hp).
      exists (FetchPersonCredits a :: new). cbn. rewrite Ht.
      split; [reflexivity|]. split; [now constructor|].
      intros a' Ha'. destruct (decide (a' = a)) as [->|Hne].
      * rewrite lookup_insert_eq. eauto.
      * rewrite lookup_insert_ne by congruence. apply Hin.
        apply elem_of_cons in Ha'. destruct Ha'; [contradiction|assumption].
    + rewrite (getFilmography_fail a w Hc Hp).
      exists (FetchPersonCredits a :: new). cbn. rewrite Ht.
      split; [reflexivity|]. now constructor.
Qed.

Lemma fetchedOnce_findConnection fuel a b options w :
  trace w = t0 ->
  fetchedOnceAtMost t0 (findConnection P fuel a b options w).2.
Proof.
  intros Ht. destruct (decide (a = b)) as [->|Hne].
  - unfold findConnection. destruct (decide (b = b)); [|contradiction].
    unfold sameActor, bind, call. exists [FetchPersonDetails b].
    destruct (getPersonDetails P b); cbn; rewrite Ht; split; auto; constructor.
  - rewrite findConnection_distinct by assumption.
    apply (ends_bind (fetchedOnce t0) (fetchedOnceAtMost t0)).
    + apply (keeps_searchLoop P _ _ notCreditsCall).
      * apply fetchedOnce_weaken.
      * intros; now apply fetchedOnce_call.
      * apply fetchedOnce_getFilmography.
      * intros; exact Logic.I.
    + intros st. apply (ends_afterLoop P _ _ notCreditsCall).
      * apply fetchedOnce_weaken.
      * intros; now apply fetchedOnce_call.
      * intros; exact Logic.I.
      * intros; exact Logic.I.
      * intros w' (new & Hnew & Hnd & _). now exists new.
    + exists []. cbn. split; [now rewrite Ht|]. split; [constructor|].
      intros a' Ha'. now apply elem_of_nil in Ha'.
Qed.

End Cache.

(** C8: within one invocation no actor's filmography is fetched from the
    provider twice; an access that finds the actor in the cache answers with
    the stored value without asking the provider, and the first access stores
    what the provider answered. *)
Theorem C8_filmography_fetched_at_most_once (P : Providers) :
  (forall fuel a b options w,
      exists new,
        trace (findConnection P fuel a b options w).2 = new ++ trace w /\
        NoDup (creditFetches new)) /\
  (forall a credits w,
      filmographyCache w !! a = Some credits ->
      getFilmography P a w = (Ok credits, w)) /\
  (forall a credits w,
      filmographyCache w !! a = None ->
      getPersonCredits P a = Some credits ->
      exists w',
        getFilmography P a w = (Ok credits, w') /\
        filmographyCache w' !! a = Some credits /\
        trace w' = FetchPersonCredits a :: trace w).
Proof.
  split; [|split].
  - intros. now apply fetchedOnce_findConnection.
  - apply getFilmography_hit.
  - intros a credits w Hmiss Hp. eexists. split.
    + now apply getFilmography_miss.
    + cbn. split; [apply lookup_insert_eq|reflexivity].
Qed.

(** ** The same actor on both ends *)

Section Identity.

Context (P : Providers).

Lemma findConnection_same fuel x options w person :
  getPersonDetails P x = Some person ->
  findConnection P fuel x x options w =
    (Ok (Some
       {| degrees := 0;
          path := [ {| actor := {| actor_id := person_id person;
                                   actor_name := person_name person;
                                   profilePath := profile_path person;
                                   isDeceased := truthy (person_deathday person) |};
                       movie := None |} ];
          totalDeceased := if truthy (person_deathday person) then 1 else 0;
          deceasedOnPath := [] |}),
     {| filmographyCache := filmographyCache w;
        trace := FetchPersonDetails x :: trace w |}).
Proof.
  intros Hp. unfold findConnection.
  destruct (decide (x = x)); [|contradiction].
  unfold sameActor, bind, call. rewrite Hp. reflexivity.
Qed.

Lemma traceExtends_call t0 {A} c (r : option A) :
  keeps (traceExtends t0) (traceExtends t0) (call c r).
Proof.
  intros w (new & Ht). unfold call.
  destruct r; exists (c :: new); cbn; now rewrite Ht.
Qed.

Lemma traceExtends_getFilmography t0 a :
  keeps (traceExtends t0) (traceExtends t0) (getFilmography P a).
Proof.
  intros w (new & Ht). unfold getFilmography.
  destruct (filmographyCache w !! a); [now exists new|].
  unfold bind, call.
  destruct (getPersonCredits P a); exists (FetchPersonCredits a :: new);
    cbn; now rewrite Ht.
Qed.

Lemma noDeceasedCall_call t0 {A} c (r : option A) :
  ~ isDeceasedCall c ->
  keeps (noDeceasedCall t0) (noDeceasedCall t0) (call c r).
Proof.
  intros Hc w (new & Ht & Hall). unfold call.
  destruct r; exists (c :: new); cbn; rewrite Ht; split; auto.
Qed.

Lemma noDeceasedCall_getFilmography t0 a :
  keeps (noDeceasedCall t0) (noDeceasedCall t0) (getFilmography P a).
Proof.
  intros w (new & Ht & Hall). unfold getFilmography.
  destruct (filmographyCache w !! a); [now exists new|].
  unfold bind, call.
  destruct (getPersonCredits P a); exists (FetchPersonCredits a :: new);
    cbn; rewrite Ht; (split; [reflexivity|]); constructor; auto.
Qed.

(** The deceased-records store is asked only after the loop of a search
    between two different actors ended with a meeting point. *)
Lemma deceased_lookup_only_after_meeting fuel a b options w :
  exists new,
    trace (findConnection P fuel a b options w).2 = new ++ trace w /\
    (Exists isDeceasedCall new ->
     a <> b /\
     exists st mp w1,
       searchLoop P fuel (default 6 (maxDegrees options)) (initialState a b)
         {| filmographyCache := ∅; trace := trace w |} = (Ok st, w1) /\
       meetingPoint st = Some mp).
Proof.
  destruct (decide (a = b)) as [->|Hne].
  - exists [FetchPersonDetails b]. unfold findConnection.
    destruct (decide (b = b)); [|contradiction].
    unfold sameActor, bind, call. split.
    + now destruct (getPersonDetails P b).
    + intros Hex. apply Exists_cons in Hex. destruct Hex as [[]|Hex].
      now apply Exists_nil in Hex.
  - rewrite findConnection_distinct by assumption.
    set (w0 := {| filmographyCache := ∅; trace := trace w |}).
    assert (H0 : noDeceasedCall (trace w) w0) by (exists []; split; [reflexivity|constructor]).
    assert (Hloop : keeps (noDeceasedCall (trace w)) (noDeceasedCall (trace w))
              (searchLoop P fuel (default 6 (maxDegrees options)) (initialState a b))).
    { apply (keeps_searchLoop P _ _ (fun c => ~ isDeceasedCall c)).
      - auto.
      - intros; now apply noDeceasedCall_call.
      - apply noDeceasedCall_getFilmography.
      - intros m H; exact H. }
    specialize (Hloop w0 H0).
    unfold bind at 1.
    destruct (searchLoop P fuel _ _ w0) as [[st|e|] w1] eqn:Hrun;
      destruct Hloop as (new1 & Ht1 & Hall1).
    + destruct (meetingPoint st) as [mp|] eqn:Hmp.
      * assert (H1 : traceExtends (trace w1) w1) by (now exists []).
        assert (Htail : ends (traceExtends (trace w1)) (traceExtends (trace w1))
                  match meetingPoint st with
                  | None => clearFilmographyCache ;;; ret None
                  | Some mp => result <- buildResult P st mp ;; ret (Some result)
                  end).
        { apply (ends_afterLoop P _ _ (fun _ => True)).
          - auto.
          - intros; apply traceExtends_call.
          - intros; exact Logic.I.
          - intros; exact Logic.I.
          - intros w' (new & Hnew). now exists new. }
        destruct (Htail w1 H1) as (new2 & Ht2).
        rewrite Hmp in Ht2.
        exists (new2 ++ new1). split.
        -- rewrite Ht2, Ht1. now rewrite <- app_assoc.
        -- intros _. split; [assumption|]. now exists st, mp, w1.
      * exists new1. cbn. split; [assumption|].
        intros Hex. apply Exists_exists in Hex. destruct Hex as (c & Hin & Hc).
        rewrite Forall_forall in Hall1. now apply Hall1 in Hin.
    + exists new1. cbn. split; [assumption|].
      intros Hex. apply Exists_exists in Hex. destruct Hex as (c & Hin & Hc).
      rewrite Forall_forall in Hall1. now apply Hall1 in Hin.
    + exists new1. cbn. split; [assumption|].
      intros Hex. apply Exists_exists in Hex. destruct Hex as (c & Hin & Hc).
      rewrite Forall_forall in Hall1. now apply Hall1 in Hin.
Qed.

End Identity.

(** C7: when both ids are the same actor [x], whose details the provider
    returns, the answer has degrees 0 and the single segment of [x] with no
    connecting movie; the only external call is that detail fetch, the cache
    is untouched, and no iteration of the search loop is needed (any [fuel],
    also none, gives the answer). *)
Theorem C7_same_actor_zero_degrees (P : Providers) (fuel : nat) (x : Z)
    (options : Options) (w : World) (person : TMDBPerson) :
  getPersonDetails P x = Some person ->
  person_id person = x ->
  exists r w',
    findConnection P fuel x x options w = (Ok (Some r), w') /\
    degrees r = 0 /\
    path r = [ {| actor := {| actor_id := x;
                              actor_name := person_name person;
                              profilePath := profile_path person;
                              isDeceased := truthy (person_deathday person) |};
                  movie := None |} ] /\
    trace w' = FetchPersonDetails x :: trace w /\
    filmographyCache w' = filmographyCache w.
Proof.
  intros Hp Hid. do 2 eexists. split.
  - apply findConnection_same, Hp.
  - cbn. rewrite Hid. repeat split.
Qed.

Lemma C7_same_actor_witness :
  exists r w',
    findConnection lateActor 0 7 7 {| maxDegrees := Some 3 |} emptyWorld = (Ok (Some r), w') /\
    degrees r = 0 /\
    path r = [ {| actor := {| actor_id := 7;
                              actor_name := "Late Actor";
                              profilePath := Some "/late.jpg";
                              isDeceased := true |};
                  movie := None |} ] /\
    trace w' = FetchPersonDetails 7 :: trace emptyWorld /\
    filmographyCache w' = filmographyCache emptyWorld.
Proof.
  apply (C7_same_actor_zero_degrees lateActor 0 7 {| maxDegrees := Some 3 |} emptyWorld
           {| person_id := 7;
              person_name := "Late Actor";
              profile_path := Some "/late.jpg";
              person_deathday := Some "1999-03-07" |});
    reflexivity.
Defined.

(** C10: the identity call answers with an empty [deceasedOnPath], also for
    an actor who died (then [totalDeceased] is 1), and its only external call
    is the detail fetch; over all calls of [findConnection], a query of the
    deceased-records store is found in the trace only when the two ids
    differ and the loop ended with a meeting point. *)
Theorem C10_identity_skips_deceased_lookup (P : Providers) (fuel : nat) (x : Z)
    (options : Options) (w : World) (person : TMDBPerson) :
  getPersonDetails P x = Some person ->
  (exists r w',
      findConnection P fuel x x options w = (Ok (Some r), w') /\
      deceasedOnPath r = [] /\
      totalDeceased r = (if truthy (person_deathday person) then 1 else 0) /\
      trace w' = FetchPersonDetails x :: trace w) /\
  (forall a b,
      exists new,
        trace (findConnection P fuel a b options w).2 = new ++ trace w /\
        (Exists isDeceasedCall new ->
         a <> b /\
         exists st mp w1,
           searchLoop P fuel (default 6 (maxDegrees options)) (initialState a b)
             {| filmographyCache := ∅; trace := trace w |} = (Ok st, w1) /\
           meetingPoint st = Some mp)).
Proof.
  intros Hp. split.
  - do 2 eexists. split; [apply findConnection_same, Hp|]. cbn. repeat split.
  - intros a b. apply deceased_lookup_only_after_meeting.
Qed.

Lemma C10_identity_witness :
  (exists r w',
      findConnection lateActor 0 7 7 {| maxDegrees := None |} emptyWorld = (Ok (Some r), w') /\
      deceasedOnPath r = [] /\
      totalDeceased r = 1 /\
      trace w' = FetchPersonDetails 7 :: trace emptyWorld) /\
  (forall a b,
      exists new,
        trace (findConnection lateActor 0 a b {| maxDegrees := None |} emptyWorld).2 =
          new ++ trace emptyWorld /\
        (Exists isDeceasedCall new ->
         a <> b /\
         exists st mp w1,
           searchLoop lateActor 0 (default 6 (maxDegrees {| maxDegrees := None |}))
             (initialState a b)
             {| filmographyCache := ∅; trace := trace emptyWorld |} = (Ok st, w1) /\
           meetingPoint st = Some mp)).
Proof.
  apply (C10_identity_skips_deceased_lookup lateActor 0 7 {| maxDegrees := None |}
           emptyWorld
           {| person_id := 7;
              person_name := "Late Actor";
              profile_path := Some "/late.jpg";
              person_deathday := Some "1999-03-07" |}).
  reflexivity.
Defined.

(** ** The co-star expander *)

Lemma insertByPopularity_perm x l : insertByPopularity x l ≡ₚ x :: l.
Proof.
  induction l as [|y l IH]; cbn; [reflexivity|].
  destruct (popularityLt x y); [|reflexivity].
  rewrite IH. apply Permutation_swap.
Qed.

Lemma sortByPopularityDesc_perm l : sortByPopularityDesc l ≡ₚ l.
Proof.
  induction l as [|x l IH]; cbn; [reflexivity|].
  rewrite insertByPopularity_perm. now rewrite IH.
Qed.

Lemma insertByPopularity_sorted x l :
  StronglySorted byPopularity l ->
  StronglySorted byPopularity (insertByPopularity x l).
Proof.
  induction 1 as [|y l Hs IH Hall]; cbn.
  - repeat constructor.
  - unfold popularityLt. destruct (Qlt_le_dec (popularity x) (popularity y)) as [Hlt|Hle].
    + constructor; [exact IH|].
      rewrite insertByPopularity_perm. constructor; [|exact Hall].
      now apply Qlt_le_weak.
    + constructor; [now constructor|].
      constructor; [exact Hle|].
      eapply Forall_impl; [exact Hall|]. unfold byPopularity. intros z Hz.
      now apply Qle_trans with (popularity y).
Qed.

Lemma sortByPopularityDesc_sorted l :
  StronglySorted byPopularity (sortByPopularityDesc l).
Proof.
  induction l as [|x l IH]; cbn; [constructor|].
  now apply insertByPopularity_sorted.
Qed.

Lemma sorted_lookup (l : list TMDBCredit) :
  StronglySorted byPopularity l ->
  forall i j x y, (i <= j)%nat -> l !! i = Some x -> l !! j = Some y ->
                  byPopularity x y.
Proof.
  induction 1 as [|z l Hs IH Hall]; intros i j x y Hij Hi Hj.
  - now rewrite lookup_nil in Hi.
  - destruct i as [|i], j as [|j]; cbn in Hi, Hj.
    + injection Hi as <-. injection Hj as <-. apply Qle_refl.
    + injection Hi as <-. rewrite Forall_forall in Hall. apply Hall.
      eapply list_elem_of_lookup_2. exact Hj.
    + lia.
    + apply (IH i j); [lia|assumption..].
Qed.

Lemma topMovies_sorted fg : StronglySorted byPopularity (topMovies fg).
Proof.
  unfold topMovies.
  set (l := sortByPopularityDesc _).
  assert (Hs : StronglySorted byPopularity l) by apply sortByPopularityDesc_sorted.
  rewrite <- (take_drop 20 l) in Hs.
  now apply StronglySorted_app_1_l in Hs.
Qed.

Lemma topMovies_length fg : (length (topMovies fg) <= 20)%nat.
Proof. unfold topMovies. rewrite length_take. lia. Qed.

(** The cap keeps 20 dated entries, or all of them when there are fewer:
    an undated entry takes no place among the 20. *)
Lemma topMovies_count fg :
  length (topMovies fg) = Nat.min 20 (length (filter dated (cast fg))).
Proof.
  unfold topMovies. rewrite length_take.
  f_equal. apply Permutation_length, sortByPopularityDesc_perm.
Qed.

(** The entries left out by the cap are the dated entries of least
    popularity. *)
Lemma topMovies_highest fg :
  exists rest,
    topMovies fg ++ rest ≡ₚ filter dated (cast fg) /\
    forall m m', m ∈ topMovies fg -> m' ∈ rest -> byPopularity m m'.
Proof.
  unfold topMovies.
  set (l := sortByPopularityDesc _).
  exists (drop 20 l). split.
  - rewrite take_drop. apply sortByPopularityDesc_perm.
  - intros m m' Hm Hm'.
    assert (Hs : StronglySorted byPopularity l) by apply sortByPopularityDesc_sorted.
    rewrite <- (take_drop 20 l) in Hs.
    eapply StronglySorted_app_1_elem_of; eassumption.
Qed.

Lemma topMovies_dated fg m : m ∈ topMovies fg -> m ∈ cast fg /\ dated m.
Proof.
  intros Hm. destruct (topMovies_highest fg) as (rest & Hperm & _).
  assert (Hin : m ∈ filter dated (cast fg)).
  { rewrite <- Hperm. apply elem_of_app. now left. }
  apply list_elem_of_filter in Hin. tauto.
Qed.

Section CoStars.

Context (P : Providers).

Lemma coStarsHas_true coStars k : coStarsHas coStars k = true <-> k ∈ coStars.*1.
Proof. unfold coStarsHas. apply bool_decide_eq_true. Qed.

Lemma addCastMembers_spec a movie castMembers (coStars : CoStars) :
  exists new,
    addCastMembers a movie (yearOf P movie) castMembers coStars = coStars ++ new /\
    (forall c info, (c, info) ∈ new ->
       c ∈ castMembers /\ c <> a /\ (c ∉ coStars.*1) /\ info = infoOf P movie) /\
    (NoDup (coStars.*1) -> NoDup ((coStars ++ new).*1)) /\
    (forall c, c ∈ castMembers -> c <> a -> c ∈ ((coStars ++ new).*1)).
Proof.
  revert coStars. induction castMembers as [|m rest IH]; intros coStars; cbn;
    fold (infoOf P movie).
  - exists []. rewrite app_nil_r. split; [reflexivity|]. split; [|split]; auto.
    + intros c info H. now apply elem_of_nil in H.
    + intros c H. now apply elem_of_nil in H.
  - destruct (negb (m =? a) && negb (coStarsHas coStars m)) eqn:Hcond.
    + apply andb_true_iff in Hcond. destruct Hcond as [Hma Hnew].
      apply negb_true_iff in Hma, Hnew. apply Z.eqb_neq in Hma.
      assert (Hfresh : m ∉ coStars.*1).
      { intros H. apply coStarsHas_true in H. congruence. }
      destruct (IH (coStars ++ [(m, infoOf P movie)]))
        as (new & Heq & Hnew' & Hnd & Hall).
      exists ((m, infoOf P movie) :: new).
      rewrite Heq, <- app_assoc. cbn. split; [reflexivity|].
      rewrite <- app_assoc in Hnd, Hall. cbn in Hnd, Hall.
      split; [|split].
      * intros c info Hin. apply elem_of_cons in Hin.
        destruct Hin as [Heq'|Hin].
        -- injection Heq' as -> ->. repeat split; auto. apply elem_of_cons; auto.
        -- destruct (Hnew' c info Hin) as (H1 & H2 & H3 & H4).
           repeat split; auto.
           ++ apply elem_of_cons; auto.
           ++ intros Hc. apply H3. rewrite fmap_app. apply elem_of_app. now left.
      * intros Hnd0. apply Hnd. rewrite fmap_app. cbn.
        apply NoDup_app. repeat split; auto.
        -- intros x Hx Hx'. apply list_elem_of_singleton in Hx'. now subst.
        -- apply NoDup_singleton.
      * intros c Hc Hca. apply elem_of_cons in Hc. destruct Hc as [->|Hc]; auto.
        rewrite fmap_app. cbn. apply elem_of_app. right. apply elem_of_cons. now left.
    + destruct (IH coStars) as (new & Heq & Hnew' & Hnd & Hall).
      exists new. split; [exact Heq|]. split; [|split]; auto.
      * intros c info Hin. destruct (Hnew' c info Hin) as (H1 & H2 & H3 & H4).
        repeat split; auto. apply elem_of_cons; auto.
      * intros c Hc Hca. apply elem_of_cons in Hc. destruct Hc as [->|Hc]; auto.
        apply andb_false_iff in Hcond. destruct Hcond as [Hcond|Hcond].
        -- apply negb_false_iff, Z.eqb_eq in Hcond. contradiction.
        -- apply negb_false_iff, coStarsHas_true in Hcond.
           rewrite fmap_app. apply elem_of_app. now left.
Qed.

Lemma addMovies_spec a movies (coStars : CoStars) w :
  exists res,
    addMovies P a movies coStars w =
      (Ok res,
       {| filmographyCache := filmographyCache w;
          trace := reverse ((fun m => FetchMovieCredits (credit_id m)) <$> movies)
                     ++ trace w |}) /\
    (NoDup (coStars.*1) -> NoDup (res.*1)) /\
    (forall c info, (c, info) ∈ res ->
       (c, info) ∈ coStars \/
       ((c ∉ coStars.*1) /\ c <> a /\
        exists i movie,
          movies !! i = Some movie /\ info = infoOf P movie /\
          castIncludes P movie c /\
          forall j movie', movies !! j = Some movie' -> castIncludes P movie' c ->
                           (i <= j)%nat)) /\
    (forall c movie, c <> a -> movie ∈ movies -> castIncludes P movie c ->
                     c ∈ res.*1) /\
    (forall c, c ∈ coStars.*1 -> c ∈ res.*1).
Proof.
  revert coStars w. induction movies as [|movie rest IH]; intros coStars w.
  - exists coStars. cbn. split; [now destruct w|]. split; [auto|].
    split; [auto|]. split; [|auto].
    intros c movie _ Hin. now apply elem_of_nil in Hin.
  - replace (reverse ((fun m => FetchMovieCredits (credit_id m)) <$> movie :: rest)
               ++ trace w)
      with (reverse ((fun m => FetchMovieCredits (credit_id m)) <$> rest)
              ++ FetchMovieCredits (credit_id movie) :: trace w)
      by (rewrite fmap_cons, reverse_cons, <- app_assoc; reflexivity).
    cbn [addMovies]. unfold bind at 1, tryCatch, bind at 1, call.
    destruct (getMovieCredits P (credit_id movie)) as [credits|] eqn:Hfetch; cbn [ret].
    + destruct (addCastMembers_spec a movie (take 30 (movie_cast credits)) coStars)
        as (new & Heq & Hnew & Hnd & Hall).
      rewrite Heq.
      destruct (IH (coStars ++ new)
                  {| filmographyCache := filmographyCache w;
                     trace := FetchMovieCredits (credit_id movie) :: trace w |})
        as (res & Hrun & Hnd' & Hres & Hcov & Hmono).
      exists res. rewrite Hrun. split; [reflexivity|].
      split; [auto|]. split; [|split].
      * intros c info Hin. destruct (Hres c info Hin) as [Hacc|(Hfresh & Hca & i & mv & Hi & Hinfo & Hq & Hmin)].
        -- apply elem_of_app in Hacc. destruct Hacc as [Hacc|Hacc]; [now left|].
           destruct (Hnew c info Hacc) as (H1 & H2 & H3 & H4).
           right. split; [assumption|]. split; [assumption|].
           exists 0%nat, movie. split; [reflexivity|]. split; [assumption|].
           split; [now exists credits|]. intros; lia.
        -- right. split.
           { intros Hc. apply Hfresh. rewrite fmap_app. apply elem_of_app. now left. }
           split; [assumption|].
           exists (S i), mv. split; [exact Hi|]. split; [assumption|].
           split; [assumption|].
           intros [|j] mv' Hj Hq'; [|pose proof (Hmin j mv' Hj Hq'); lia].
           cbn in Hj. injection Hj as <-.
           destruct Hq' as (credits' & Hfetch' & Hc').
           rewrite Hfetch in Hfetch'. injection Hfetch' as <-.
           exfalso. apply Hfresh. now apply Hall.
      * intros c mv Hca Hin Hq. apply elem_of_cons in Hin.
        destruct Hin as [->|Hin]; [|now apply (Hcov c mv)].
        destruct Hq as (credits' & Hfetch' & Hc').
        rewrite Hfetch in Hfetch'. injection Hfetch' as <-.
        apply Hmono. now apply Hall.
      * intros c Hc. apply Hmono. rewrite fmap_app. apply elem_of_app. now left.
    + destruct (IH coStars
                  {| filmographyCache := filmographyCache w;
                     trace := FetchMovieCredits (credit_id movie) :: trace w |})
        as (res & Hrun & Hnd' & Hres & Hcov & Hmono).
      exists res. rewrite Hrun. split; [reflexivity|].
      split; [auto|]. split; [|split].
      * intros c info Hin. destruct (Hres c info Hin) as [Hacc|(Hfresh & Hca & i & mv & Hi & Hinfo & Hq & Hmin)].
        -- now left.
        -- right. split; [assumption|]. split; [assumption|].
           exists (S i), mv. split; [exact Hi|]. split; [assumption|].
           split; [assumption|].
           intros [|j] mv' Hj Hq'; [|pose proof (Hmin j mv' Hj Hq'); lia].
           cbn in Hj. injection Hj as <-.
           destruct Hq' as (credits' & Hfetch' & _). congruence.
      * intros c mv Hca Hin Hq. apply elem_of_cons in Hin.
        destruct Hin as [->|Hin]; [|now apply (Hcov c mv)].
        destruct Hq as (credits' & Hfetch' & _). congruence.
      * exact Hmono.
Qed.

End CoStars.

Section Expander.

Context (P : Providers).

Lemma getCoStars_run a w fg w1 :
  getFilmography P a w = (Ok fg, w1) ->
  getCoStars P a w = addMovies P a (topMovies fg) [] w1.
Proof. intros H. unfold getCoStars. now rewrite (bind_ok _ _ _ _ _ H). Qed.

End Expander.

(** C5: the expander has one entry per co-star, and the entry of a co-star
    is the first movie, in descending popularity among the fetched top
    movies, whose cast lists them; no movie listing them comes earlier or is
    more popular, so a later movie never replaces the entry.  Every actor
    listed by a fetched movie other than the expanded one has an entry. *)
Theorem C5_costar_keeps_most_popular_movie (P : Providers) (a : Z) (w : World)
    (fg : TMDBPersonCredits) (w1 : World) :
  getFilmography P a w = (Ok fg, w1) ->
  exists coStars w',
    getCoStars P a w = (Ok coStars, w') /\
    NoDup (coStars.*1) /\
    (forall c info, (c, info) ∈ coStars ->
       c <> a /\
       exists i movie,
         topMovies fg !! i = Some movie /\
         info = infoOf P movie /\
         castIncludes P movie c /\
         forall j movie',
           topMovies fg !! j = Some movie' -> castIncludes P movie' c ->
           (i <= j)%nat /\ (popularity movie' <= popularity movie)%Q) /\
    (forall c movie,
       c <> a -> movie ∈ topMovies fg -> castIncludes P movie c -> c ∈ coStars.*1).
Proof.
  intros Hfg. rewrite (getCoStars_run P a w fg w1 Hfg).
  destruct (addMovies_spec P a (topMovies fg) [] w1)
    as (res & Hrun & Hnd & Hres & Hcov & _).
  exists res. eexists. split; [exact Hrun|].
  split; [apply Hnd; constructor|]. split; [|exact Hcov].
  intros c info Hin.
  destruct (Hres c info Hin) as [Hnil|(_ & Hca & i & movie & Hi & Hinfo & Hq & Hmin)].
  { now apply elem_of_nil in Hnil. }
  split; [assumption|]. exists i, movie. repeat (split; [assumption|]).
  intros j movie' Hj Hq'. pose proof (Hmin j movie' Hj Hq') as Hij.
  split; [assumption|].
  exact (sorted_lookup _ (topMovies_sorted fg) i j movie movie' Hij Hi Hj).
Qed.

Lemma C5_costar_precedence_witness :
  exists coStars w',
    getCoStars precedence 1 emptyWorld = (Ok coStars, w') /\
    NoDup (coStars.*1) /\
    (forall c info, (c, info) ∈ coStars ->
       c <> 1 /\
       exists i movie,
         topMovies precedenceCredits !! i = Some movie /\
         info = infoOf precedence movie /\
         castIncludes precedence movie c /\
         forall j movie',
           topMovies precedenceCredits !! j = Some movie' ->
           castIncludes precedence movie' c ->
           (i <= j)%nat /\ (popularity movie' <= popularity movie)%Q) /\
    (forall c movie,
       c <> 1 -> movie ∈ topMovies precedenceCredits ->
       castIncludes precedence movie c -> c ∈ coStars.*1).
Proof.
  apply (C5_costar_keeps_most_popular_movie precedence 1 emptyWorld
           precedenceCredits
           {| filmographyCache := <[1 := precedenceCredits]> ∅;
              trace := [FetchPersonCredits 1] |}).
  reflexivity.
Defined.

(** On that filmography the co-star 5 is recorded with movie 31, the more
    popular of the two dated movies, and the undated movie 40 is not asked. *)
Example precedence_run :
  (getCoStars precedence 1 emptyWorld).1 =
    Ok [ (5, {| movieId := 31; movieTitle := "High"; movieYear := Some (Int 1991) |});
         (6, {| movieId := 31; movieTitle := "High"; movieYear := Some (Int 1991) |}) ] /\
  trace (getCoStars precedence 1 emptyWorld).2 =
    [FetchMovieCredits 30; FetchMovieCredits 31; FetchPersonCredits 1].
Proof. vm_compute. split; reflexivity. Qed.

(** C6: one expansion step asks for the cast of the top movies, in their
    order, and of no other.  The top movies are 20 dated entries of the
    filmography, or all its dated entries when these are fewer, so that an
    undated entry takes no place among them; they stand in descending
    popularity, and none is less popular than a dated entry left out.  The
    recorded co-stars are the actors other than the expanded one among the
    first 30 billed of a top movie whose cast fetch succeeded: each of these
    is recorded, and each recorded co-star is among the first 30 billed of
    the movie recorded with them. *)
Theorem C6_fan_out_caps (P : Providers) (a : Z) (w : World)
    (fg : TMDBPersonCredits) (w1 : World) :
  getFilmography P a w = (Ok fg, w1) ->
  exists coStars w',
    getCoStars P a w = (Ok coStars, w') /\
    trace w' =
      reverse ((fun m => FetchMovieCredits (credit_id m)) <$> topMovies fg) ++ trace w1 /\
    (length (topMovies fg) <= 20)%nat /\
    length (topMovies fg) =
      Nat.min 20 (length (filter (fun m => truthy (release_date m) = true) (cast fg))) /\
    (forall m, m ∈ topMovies fg -> m ∈ cast fg /\ truthy (release_date m) = true) /\
    (forall i j m m', (i <= j)%nat ->
       topMovies fg !! i = Some m -> topMovies fg !! j = Some m' ->
       (popularity m' <= popularity m)%Q) /\
    (exists rest,
       topMovies fg ++ rest ≡ₚ
         filter (fun m => truthy (release_date m) = true) (cast fg) /\
       forall m m', m ∈ topMovies fg -> m' ∈ rest ->
                    (popularity m' <= popularity m)%Q) /\
    (forall c info, (c, info) ∈ coStars ->
       c <> a /\
       exists movie credits,
         movie ∈ topMovies fg /\
         movieId info = credit_id movie /\
         getMovieCredits P (credit_id movie) = Some credits /\
         c ∈ take 30 (movie_cast credits)) /\
    (forall c movie credits,
       movie ∈ topMovies fg ->
       getMovieCredits P (credit_id movie) = Some credits ->
       c ∈ take 30 (movie_cast credits) -> c <> a ->
       c ∈ coStars.*1).
Proof.
  intros Hfg. rewrite (getCoStars_run P a w fg w1 Hfg).
  destruct (addMovies_spec P a (topMovies fg) [] w1)
    as (res & Hrun & _ & Hres & Hall & _).
  exists res. eexists. split; [exact Hrun|]. cbn [trace].
  split; [reflexivity|]. split; [apply topMovies_length|].
  split; [apply topMovies_count|].
  split; [apply topMovies_dated|].
  split; [exact (sorted_lookup (topMovies fg) (topMovies_sorted fg))|].
  split; [apply topMovies_highest|].
  split.
  - intros c info Hin.
    destruct (Hres c info Hin) as [Hnil|(_ & Hne & i & movie & Hi & -> & Hq & _)].
    { now apply elem_of_nil in Hnil. }
    split; [exact Hne|].
    destruct Hq as (credits & Hfetch & Hc).
    exists movie, credits. split; [|auto].
    eapply list_elem_of_lookup_2. exact Hi.
  - intros c movie credits Hmovie Hfetch Hc Hne.
    apply (Hall c movie Hne Hmovie). now exists credits.
Qed.

Lemma C6_fan_out_witness :
  exists coStars w',
    getCoStars prolific 1 emptyWorld = (Ok coStars, w') /\
    trace w' =
      reverse ((fun m => FetchMovieCredits (credit_id m))
                 <$> topMovies {| cast := manyMovies |})
        ++ [FetchPersonCredits 1] /\
    (length (topMovies {| cast := manyMovies |}) <= 20)%nat /\
    length (topMovies {| cast := manyMovies |}) =
      Nat.min 20 (length (filter (fun m => truthy (release_date m) = true) manyMovies)) /\
    (forall m, m ∈ topMovies {| cast := manyMovies |} ->
               m ∈ manyMovies /\ truthy (release_date m) = true) /\
    (forall i j m m', (i <= j)%nat ->
       topMovies {| cast := manyMovies |} !! i = Some m ->
       topMovies {| cast := manyMovies |} !! j = Some m' ->
       (popularity m' <= popularity m)%Q) /\
    (exists rest,
       topMovies {| cast := manyMovies |} ++ rest ≡ₚ
         filter (fun m => truthy (release_date m) = true) manyMovies /\
       forall m m', m ∈ topMovies {| cast := manyMovies |} -> m' ∈ rest ->
                    (popularity m' <= popularity m)%Q) /\
    (forall c info, (c, info) ∈ coStars ->
       c <> 1 /\
       exists movie credits,
         movie ∈ topMovies {| cast := manyMovies |} /\
         movieId info = credit_id movie /\
         getMovieCredits prolific (credit_id movie) = Some credits /\
         c ∈ take 30 (movie_cast credits)) /\
    (forall c movie credits,
       movie ∈ topMovies {| cast := manyMovies |} ->
       getMovieCredits prolific (credit_id movie) = Some credits ->
       c ∈ take 30 (movie_cast credits) -> c <> 1 ->
       c ∈ coStars.*1).
Proof.
  apply (C6_fan_out_caps prolific 1 emptyWorld {| cast := manyMovies |}
           {| filmographyCache := <[1 := {| cast := manyMovies |}]> ∅;
              trace := [FetchPersonCredits 1] |}).
  reflexivity.
Defined.

(** Of the 25 movies of that filmography the 20 with ids 124 down to 105 are
    asked for their cast, and actor 900, billed 38th, is no co-star. *)
Example prolific_run :
  creditFetches (trace (getCoStars prolific 1 emptyWorld).2) = [1] /\
  omap (fun c => match c with FetchMovieCredits m => Some m | _ => None end)
       (reverse (trace (getCoStars prolific 1 emptyWorld).2)) =
    reverse (seqZ 105 20) /\
  match (getCoStars prolific 1 emptyWorld).1 with
  | Ok coStars => bool_decide (900 ∈ coStars.*1) = false /\
                  bool_decide (1028 ∈ coStars.*1) = false /\
                  bool_decide (1027 ∈ coStars.*1) = true
  | _ => False
  end.
Proof. vm_compute. repeat split; reflexivity. Qed.

(** An undated entry is dropped before the cap is applied: with it in front
    of 20 dated entries, all 20 are asked for their cast. *)
Example undated_takes_no_place :
  omap (fun c => match c with FetchMovieCredits m => Some m | _ => None end)
       (reverse (trace (getCoStars crowded 1 emptyWorld).2)) =
    reverse (seqZ 100 20).
Proof. vm_compute. reflexivity. Qed.

(** ** The B side is the A side mirrored *)

Lemma swapMeeting_involutive mp : swapMeeting (swapMeeting mp) = mp.
Proof. now destruct mp. Qed.

Lemma swapState_involutive st : swapState (swapState st) = st.
Proof.
  destruct st as [vA vB qA qB dA dB [mp|]]; unfold swapState; cbn;
    [rewrite swapMeeting_involutive|]; reflexivity.
Qed.

Lemma swapState_literal vA vB qA qB dA dB mp :
  swapState {| visitedFromA := vA; visitedFromB := vB; queueA := qA; queueB := qB;
               degreesFromA := dA; degreesFromB := dB; meetingPoint := mp |} =
  {| visitedFromA := vB; visitedFromB := vA; queueA := qB; queueB := qA;
     degreesFromA := dB; degreesFromB := dA; meetingPoint := swapMeeting <$> mp |}.
Proof. reflexivity. Qed.

Lemma scanCoStarsB_swap current coStars st :
  scanCoStarsB current coStars st =
  swapState (scanCoStarsA current coStars (swapState st)).
Proof.
  revert st. induction coStars as [|[c info] rest IH]; intros st.
  - cbn. now rewrite swapState_involutive.
  - cbn [scanCoStarsB scanCoStarsA]. cbn [visitedFromB visitedFromA swapState].
    destruct (visitedFromA st !! c) as [nodeA|].
    + reflexivity.
    + rewrite IH. destruct (visitedFromB st !! c); reflexivity.
Qed.

Section Sides.

Context (P : Providers).

Lemma levelLoopB_swap n st w :
  levelLoopB P n st w = mapOutcome swapState (levelLoopA P n (swapState st) w).
Proof.
  revert st w. induction n as [|n IH]; intros st w.
  - cbn. now rewrite swapState_involutive.
  - cbn [levelLoopB levelLoopA]. cbn [queueA swapState].
    destruct (queueB st) as [|current rest]; [reflexivity|].
    unfold bind. destruct (getCoStars P (actorId current) w) as [[coStars|e|] w1];
      [|reflexivity..].
    rewrite scanCoStarsB_swap, swapState_literal.
    cbn [swapState visitedFromA visitedFromB queueA queueB
      degreesFromA degreesFromB meetingPoint].
    match goal with
    | |- context [scanCoStarsA current coStars ?s] =>
        set (st1 := scanCoStarsA current coStars s)
    end.
    cbn [meetingPoint swapState].
    destruct (meetingPoint st1) as [mp|] eqn:Hmp; cbn.
    + reflexivity.
    + rewrite IH. now rewrite swapState_involutive.
Qed.

Lemma expandB_swap st w :
  expandB P st w = mapOutcome swapState (expandA P (swapState st) w).
Proof. unfold expandB, expandA. now rewrite levelLoopB_swap. Qed.

(** *** What a level of the A side leaves alone *)

(** A property of the state that every co-star scan of the A side keeps is
    kept by a whole level. *)
Lemma levelLoopA_keeps (R : SearchState -> Prop) :
  (forall st current coStars,
      R st -> meetingPoint st = None ->
      head (queueA st) = Some current ->
      R (scanCoStarsA current coStars (shiftA st))) ->
  forall n st w st' w',
    R st -> meetingPoint st = None ->
    levelLoopA P n st w = (Ok st', w') -> R st'.
Proof.
  intros Hscan n. induction n as [|n IH]; intros st w st' w' HR Hmp Hrun.
  - cbn in Hrun. injection Hrun as <- _. exact HR.
  - cbn [levelLoopA] in Hrun.
    destruct (queueA st) as [|current rest] eqn:Hq; [discriminate|].
    apply bind_inv_ok in Hrun. destruct Hrun as (coStars & w1 & _ & Hrun).
    assert (HR1 : R (scanCoStarsA current coStars (shiftA st))).
    { apply Hscan; auto. now rewrite Hq. }
    unfold shiftA in HR1. rewrite Hq in HR1. cbn [tail] in HR1.
    destruct (meetingPoint (scanCoStarsA current coStars _)) as [mp|] eqn:Hmp1.
    + injection Hrun as <- _. exact HR1.
    + eapply IH; eauto.
Qed.

Lemma scanCoStarsA_other_side current coStars st :
  let st' := scanCoStarsA current coStars st in
  visitedFromB st' = visitedFromB st /\ queueB st' = queueB st /\
  degreesFromA st' = degreesFromA st /\ degreesFromB st' = degreesFromB st.
Proof.
  revert st. induction coStars as [|[c info] rest IH]; intros st; cbn.
  - auto.
  - destruct (visitedFromB st !! c); [cbn; auto|].
    destruct (visitedFromA st !! c); [apply IH|].
    destruct (IH {| visitedFromA :=
                      <[c := {| actorId := c; parent := Some current;
                                node_movie := Some (nodeMovieOf info) |}]> (visitedFromA st);
                    visitedFromB := visitedFromB st;
                    queueA := queueA st ++
                                [{| actorId := c; parent := Some current;
                                    node_movie := Some (nodeMovieOf info) |}];
                    queueB := queueB st;
                    degreesFromA := degreesFromA st;
                    degreesFromB := degreesFromB st;
                    meetingPoint := meetingPoint st |}) as (H1 & H2 & H3 & H4).
    auto.
Qed.

Lemma expandA_other_side st w st' w' :
  meetingPoint st = None ->
  expandA P st w = (Ok st', w') ->
  visitedFromB st' = visitedFromB st /\ queueB st' = queueB st /\
  degreesFromA st' = degreesFromA st + 1 /\ degreesFromB st' = degreesFromB st.
Proof.
  intros Hmp Hrun. unfold expandA in Hrun.
  eapply (levelLoopA_keeps
            (fun s => visitedFromB s = visitedFromB st /\ queueB s = queueB st /\
                      degreesFromA s = degreesFromA st + 1 /\
                      degreesFromB s = degreesFromB st)) in Hrun; auto.
  intros s current coStars (H1 & H2 & H3 & H4) _ _.
  destruct (scanCoStarsA_other_side current coStars (shiftA s)) as (G1 & G2 & G3 & G4).
  cbn in G1, G2, G3, G4. rewrite G1, G2, G3, G4. auto.
Qed.

Lemma expandB_other_side st w st' w' :
  meetingPoint st = None ->
  expandB P st w = (Ok st', w') ->
  visitedFromA st' = visitedFromA st /\ queueA st' = queueA st /\
  degreesFromB st' = degreesFromB st + 1 /\ degreesFromA st' = degreesFromA st.
Proof.
  intros Hmp Hrun. rewrite expandB_swap in Hrun.
  destruct (expandA P (swapState st) w) as [[s|e|] w1] eqn:HA; try discriminate.
  cbn in Hrun. injection Hrun as <- <-.
  apply expandA_other_side in HA; [|cbn; now rewrite Hmp].
  exact HA.
Qed.

End Sides.

(** ** One iteration of the loop *)

Section Iteration.

Context (P : Providers).

Lemma hasMeetingPoint_false st : hasMeetingPoint st = false <-> meetingPoint st = None.
Proof. unfold hasMeetingPoint. destruct (meetingPoint st); split; congruence. Qed.

Lemma hasMeetingPoint_true st : hasMeetingPoint st = true <-> meetingPoint st <> None.
Proof. unfold hasMeetingPoint. destruct (meetingPoint st); split; congruence. Qed.

(** The shape of an iteration that returns: the state [stA] after the block
    of the A side, and then the block of the B side. *)
Lemma expandBothSides_inv st w flow st' w' :
  meetingPoint st = None ->
  expandBothSides P st w = (Ok (flow, st'), w') ->
  exists stA wA,
    (if nonEmpty (queueA st) && (degreesFromA st <=? degreesFromB st)
     then expandA P st w = (Ok stA, wA)
     else stA = st /\ wA = w) /\
    (if hasMeetingPoint stA
     then st' = stA /\ w' = wA /\ flow = Break
     else if nonEmpty (queueB stA)
          then expandB P stA wA = (Ok st', w') /\
               flow = (if hasMeetingPoint st' then Break else Continue)
          else st' = stA /\ w' = wA /\ flow = Continue).
Proof.
  intros Hmp Hrun. unfold expandBothSides in Hrun.
  apply bind_inv_ok in Hrun. destruct Hrun as ([flowA stA] & wA & HA & HB).
  exists stA, wA.
  destruct (nonEmpty (queueA st) && (degreesFromA st <=? degreesFromB st)).
  - apply bind_inv_ok in HA. destruct HA as (s & w1 & HA & Hret).
    injection Hret as <- <- <-. split; [exact HA|].
    destruct (hasMeetingPoint s) eqn:Hm.
    + injection HB as <- <- <-. auto.
    + rewrite andb_true_r in HB. destruct (nonEmpty (queueB s)).
      * apply bind_inv_ok in HB. destruct HB as (s' & w2 & HB & Hret).
        injection Hret as <- <- <-. auto.
      * injection HB as <- <- <-. auto.
  - injection HA as <- <- <-. split; [auto|].
    apply hasMeetingPoint_false in Hmp. rewrite Hmp in *.
    rewrite andb_true_r in HB. destruct (nonEmpty (queueB st)).
    + apply bind_inv_ok in HB. destruct HB as (s' & w2 & HB & Hret).
      injection Hret as <- <- <-. auto.
    + injection HB as <- <- <-. auto.
Qed.

(** How one iteration moves the two degree counters. *)
Lemma loopBody_degrees maxDeg st w flow st' w' :
  meetingPoint st = None ->
  degreesFromA st + degreesFromB st < maxDeg ->
  loopBody P maxDeg st w = (Ok (flow, st'), w') ->
  degreesFromA st' =
    degreesFromA st +
    (if nonEmpty (queueA st) && (degreesFromA st <=? degreesFromB st) then 1 else 0) /\
  (degreesFromB st' = degreesFromB st \/ degreesFromB st' = degreesFromB st + 1) /\
  (degreesFromB st' = degreesFromB st + 1 -> nonEmpty (queueB st) = true) /\
  (meetingPoint st' = None ->
   degreesFromB st' = degreesFromB st + (if nonEmpty (queueB st) then 1 else 0)) /\
  (flow = Break <-> meetingPoint st' <> None).
Proof.
  intros Hmp Hbound Hrun. unfold loopBody in Hrun.
  replace (maxDeg <=? degreesFromA st + degreesFromB st) with false in Hrun by lia.
  apply expandBothSides_inv in Hrun; [|assumption].
  destruct Hrun as (stA & wA & HA & HB).
  assert (HstA : visitedFromB stA = visitedFromB st /\ queueB stA = queueB st /\
                 degreesFromA stA =
                   degreesFromA st +
                   (if nonEmpty (queueA st) && (degreesFromA st <=? degreesFromB st)
                    then 1 else 0) /\
                 degreesFromB stA = degreesFromB st).
  { destruct (nonEmpty (queueA st) && (degreesFromA st <=? degreesFromB st)).
    - now apply expandA_other_side in HA.
    - destruct HA as [-> _]. repeat split; lia. }
  destruct HstA as (_ & HqB & HdA & HdB).
  destruct (hasMeetingPoint stA) eqn:HmA.
  - destruct HB as (-> & -> & ->). apply hasMeetingPoint_true in HmA.
    repeat split; auto; try lia. intros; contradiction.
  - rewrite HqB in HB. destruct (nonEmpty (queueB st)).
    + destruct HB as (HB & ->).
      apply expandB_other_side in HB; [|now apply hasMeetingPoint_false].
      destruct HB as (_ & _ & HdB' & HdA').
      split; [lia|]. split; [lia|]. split; [auto|]. split; [intros; lia|].
      destruct (hasMeetingPoint st') eqn:Hm'.
      * apply hasMeetingPoint_true in Hm'. tauto.
      * apply hasMeetingPoint_false in Hm'. split; congruence.
    + destruct HB as (-> & -> & ->). apply hasMeetingPoint_false in HmA.
      split; [lia|]. split; [lia|]. split; [intros; lia|]. split; [intros; lia|].
      split; congruence.
Qed.

End Iteration.




(** That iteration, evaluated: both counters went up, and nothing met. *)
Example stranded_first_iteration :
  match (loopBody strandedB 6 (initialState 1 2) emptyWorld).1 with
  | Ok (flow, st') =>
      flow = Continue /\ degreesFromA st' = 1 /\ degreesFromB st' = 1 /\
      meetingPoint st' = None /\ actorId <$> queueA st' = [3] /\ queueB st' = []
  | _ => False
  end.
Proof. vm_compute. repeat split; reflexivity. Qed.

(** ** The two frontiers *)

Lemma walkUp_unfold n :
  walkUp n = {| pe_actorId := actorId n; pe_movie := node_movie n |}
               :: walkUpFrom (parent n).
Proof. destruct n as [a [p|] m]; reflexivity. Qed.

Lemma chainIds_unfold n :
  chainIds n = actorId n :: (pe_actorId <$> walkUpFrom (parent n)).
Proof. unfold chainIds. now rewrite walkUp_unfold. Qed.

Lemma chainIds_child c current m :
  chainIds {| actorId := c; parent := Some current; node_movie := m |} =
  c :: chainIds current.
Proof. reflexivity. Qed.

Lemma swapState_running st : running st -> running (swapState st).
Proof.
  intros (Hmp & HwA & HwB & Hdis & HrA & HrB). unfold running. cbn.
  rewrite Hmp. split; [reflexivity|]. split; [exact HwB|]. split; [exact HwA|].
  split; [|split; assumption]. intros x HB HA. exact (Hdis x HA HB).
Qed.

Lemma swapState_good st : good st -> good (swapState st).
Proof.
  unfold good. cbn. destruct (meetingPoint st) as [mp|]; cbn.
  - intros (nA & nB & HA & HB & HidA & HidB & HndA & HndB & Hchain & Hdis).
    exists nB, nA. cbn.
    split; [exact HB|]. split; [exact HA|]. split; [exact HidB|].
    split; [exact HidA|]. split; [exact HndB|]. split; [exact HndA|].
    split; intros x H1 H2; auto.
  - apply swapState_running.
Qed.

(** Storing a new child of a stored node under a fresh id keeps the map
    well formed. *)
Lemma wfVisited_insert V c current m :
  wfVisited V -> V !! c = None -> V !! actorId current = Some current ->
  wfVisited (<[c := {| actorId := c; parent := Some current; node_movie := m |}]> V).
Proof.
  intros Hwf Hfresh Hcur k n Hk.
  destruct (decide (c = k)) as [->|Hne].
  - rewrite lookup_insert_eq in Hk. injection Hk as <-.
    destruct (Hwf _ _ Hcur) as (_ & Hnd & Hin).
    split; [reflexivity|]. rewrite chainIds_child. split.
    + constructor; [|exact Hnd]. intros Hc. apply Hin in Hc.
      rewrite Hfresh in Hc. now destruct Hc.
    + intros x Hx. apply elem_of_cons in Hx. destruct Hx as [->|Hx].
      * rewrite lookup_insert_eq. eauto.
      * destruct (decide (k = x)) as [->|Hkx]; [rewrite lookup_insert_eq; eauto|].
        rewrite lookup_insert_ne by assumption. now apply Hin.
  - rewrite lookup_insert_ne in Hk by assumption.
    destruct (Hwf _ _ Hk) as (Hid & Hnd & Hin).
    repeat split; auto. intros x Hx.
    destruct (decide (c = x)) as [->|Hcx]; [rewrite lookup_insert_eq; eauto|].
    rewrite lookup_insert_ne by assumption. now apply Hin.
Qed.

Lemma scanCoStarsA_good current coStars st :
  running st ->
  visitedFromA st !! actorId current = Some current ->
  good (scanCoStarsA current coStars st).
Proof.
  revert st. induction coStars as [|[c info] rest IH]; intros st Hrun Hcur.
  - unfold good. cbn. destruct Hrun as (Hmp & Hrest). rewrite Hmp.
    split; assumption.
  - pose proof Hrun as (Hmp & HwA & HwB & Hdis & HrA & HrB).
    cbn [scanCoStarsA].
    destruct (visitedFromB st !! c) as [nodeB|] eqn:HB.
    + (* the frontiers meet at [c] *)
      assert (HfreshA : visitedFromA st !! c = None).
      { destruct (visitedFromA st !! c) eqn:HA; [|reflexivity].
        exfalso. apply (Hdis c); eauto. }
      destruct (HwA _ _ Hcur) as (_ & HndCur & HinCur).
      destruct (HwB _ _ HB) as (HidB & HndB & HinB).
      unfold good, met. cbn.
      eexists _, nodeB. rewrite lookup_insert_eq.
      split; [reflexivity|]. split; [exact HB|].
      split; [reflexivity|]. split; [exact HidB|].
      rewrite chainIds_child. split; [|split; [exact HndB|split]].
      * constructor; [|exact HndCur]. intros Hc. apply HinCur in Hc.
        rewrite HfreshA in Hc. now destruct Hc.
      * intros x Hx HxB. apply elem_of_cons in Hx. destruct Hx as [->|Hx]; auto.
        exfalso. apply (Hdis x); auto.
      * intros x HxA HxB. destruct (decide (c = x)) as [->|Hne]; auto.
        rewrite lookup_insert_ne in HxA by assumption.
        exfalso. apply (Hdis x); auto.
    + destruct (visitedFromA st !! c) as [nodeA|] eqn:HA.
      * now apply IH.
      * apply IH.
        -- unfold running. cbn. split; [exact Hmp|].
           split; [now apply wfVisited_insert|]. split; [exact HwB|].
           split; [|split; [|exact HrB]].
           ++ intros x HxA HxB. destruct (decide (c = x)) as [->|Hne].
              ** rewrite HB in HxB. now destruct HxB.
              ** rewrite lookup_insert_ne in HxA by assumption.
                 apply (Hdis x); auto.
           ++ intros n Hn. apply elem_of_app in Hn. destruct Hn as [Hn|Hn].
              ** assert (Hne : c <> actorId n).
                 { intros ->. rewrite (HrA n Hn) in HA. discriminate. }
                 rewrite lookup_insert_ne by assumption. now apply HrA.
              ** apply list_elem_of_singleton in Hn. subst n. cbn.
                 apply lookup_insert_eq.
        -- cbn. assert (Hne : c <> actorId current).
           { intros ->. rewrite Hcur in HA. discriminate. }
           now rewrite lookup_insert_ne.
Qed.

Section Frontiers.

Context (P : Providers).

Lemma expandA_good st w st' w' :
  running st -> expandA P st w = (Ok st', w') -> good st'.
Proof.
  intros Hrun Hexp. unfold expandA in Hexp.
  assert (Hscan : forall s current coStars,
             good s -> meetingPoint s = None ->
             head (queueA s) = Some current ->
             good (scanCoStarsA current coStars (shiftA s))).
  { intros s current coStars Hgood Hmp Hhead.
    unfold good in Hgood. rewrite Hmp in Hgood.
    destruct Hgood as (_ & HwA & HwB & Hdis & HrA & HrB).
    destruct (queueA s) as [|n q] eqn:Hq; [discriminate|].
    cbn in Hhead. injection Hhead as ->.
    apply scanCoStarsA_good.
    - unfold running, shiftA. cbn. rewrite Hq. cbn.
      split; [exact Hmp|]. split; [exact HwA|]. split; [exact HwB|].
      split; [exact Hdis|]. split; [|exact HrB].
      intros n' Hn'. apply HrA. apply elem_of_cons. now right.
    - cbn. apply HrA. apply elem_of_cons. now left. }
  destruct Hrun as (Hmp & Hrest).
  eapply (levelLoopA_keeps P good Hscan); [| |exact Hexp].
  - unfold good. cbn. rewrite Hmp. split; [reflexivity|exact Hrest].
  - exact Hmp.
Qed.

Lemma expandB_good st w st' w' :
  running st -> expandB P st w = (Ok st', w') -> good st'.
Proof.
  intros Hrun Hexp. rewrite expandB_swap in Hexp.
  destruct (expandA P (swapState st) w) as [[s|e|] w1] eqn:HA; try discriminate.
  cbn in Hexp. injection Hexp as <- <-.
  apply swapState_good. eapply expandA_good; [|exact HA].
  now apply swapState_running.
Qed.

Lemma good_running st : good st -> meetingPoint st = None -> running st.
Proof. intros H Hmp. unfold good in H. now rewrite Hmp in H. Qed.

Lemma running_good st : running st -> good st.
Proof. intros H. unfold good. destruct H as (Hmp & Hrest). rewrite Hmp. now split. Qed.

Lemma expandBothSides_good st w flow st' w' :
  running st ->
  expandBothSides P st w = (Ok (flow, st'), w') ->
  good st' /\ (flow = Continue -> meetingPoint st' = None).
Proof.
  intros Hrun Hexp. pose proof Hrun as (Hmp & _).
  apply expandBothSides_inv in Hexp; [|assumption].
  destruct Hexp as (stA & wA & HA & HB).
  assert (HgA : good stA).
  { destruct (nonEmpty (queueA st) && (degreesFromA st <=? degreesFromB st)).
    - eapply expandA_good; eauto.
    - destruct HA as [-> _]. now apply running_good. }
  destruct (hasMeetingPoint stA) eqn:HmA.
  - destruct HB as (-> & -> & ->). split; [assumption|discriminate].
  - apply hasMeetingPoint_false in HmA.
    destruct (nonEmpty (queueB stA)).
    + destruct HB as (HB & ->). split.
      * eapply expandB_good; [|exact HB]. now apply good_running.
      * destruct (hasMeetingPoint st') eqn:Hm'; [discriminate|].
        intros _. now apply hasMeetingPoint_false.
    + destruct HB as (-> & -> & ->). auto.
Qed.

Lemma loopBody_good maxDeg st w flow st' w' :
  running st ->
  loopBody P maxDeg st w = (Ok (flow, st'), w') ->
  good st' /\ (flow = Continue -> meetingPoint st' = None).
Proof.
  intros Hrun Hbody. unfold loopBody in Hbody.
  destruct (maxDeg <=? degreesFromA st + degreesFromB st).
  - injection Hbody as <- <- <-. split; [now apply running_good|discriminate].
  - eapply expandBothSides_good; eauto.
Qed.

Lemma searchLoop_good fuel maxDeg st w st' w' :
  running st ->
  searchLoop P fuel maxDeg st w = (Ok st', w') -> good st'.
Proof.
  revert st w. induction fuel as [|fuel IH]; intros st w Hrun Hloop.
  - discriminate.
  - cbn [searchLoop] in Hloop.
    destruct (nonEmpty (queueA st) || nonEmpty (queueB st)).
    + apply bind_inv_ok in Hloop. destruct Hloop as ([flow s] & w1 & Hbody & Hrest).
      destruct (loopBody_good _ _ _ _ _ _ Hrun Hbody) as (Hgood & Hcont).
      destruct flow.
      * eapply IH; [|exact Hrest]. apply good_running; auto.
      * injection Hrest as <- <-. exact Hgood.
    + injection Hloop as <- <-. now apply running_good.
Qed.

Lemma initialState_running a b : a <> b -> running (initialState a b).
Proof.
  intros Hne. unfold running, initialState. cbn.
  assert (Hroot : forall x : Z,
            wfVisited (<[x := {| actorId := x; parent := None; node_movie := None |}]> ∅)).
  { intros x k n Hk. destruct (decide (x = k)) as [->|Hxk].
    - rewrite lookup_insert_eq in Hk. injection Hk as <-.
      split; [reflexivity|]. split.
      + cbn. apply NoDup_singleton.
      + intros y Hy. cbn in Hy. apply list_elem_of_singleton in Hy. subst y.
        rewrite lookup_insert_eq. eauto.
    - rewrite lookup_insert_ne, lookup_empty in Hk by assumption. discriminate. }
  split; [reflexivity|]. split; [apply Hroot|]. split; [apply Hroot|].
  split; [|split].
  - intros x [nA HA] [nB HB].
    destruct (decide (a = x)) as [->|Hax];
      [|rewrite lookup_insert_ne, lookup_empty in HA by assumption; discriminate].
    rewrite lookup_insert_ne, lookup_empty in HB by congruence. discriminate.
  - intros n Hn. apply list_elem_of_singleton in Hn. subst n. cbn.
    apply lookup_insert_eq.
  - intros n Hn. apply list_elem_of_singleton in Hn. subst n. cbn.
    apply lookup_insert_eq.
Qed.

End Frontiers.

(** ** The reconstructed path *)

Lemma finalSegment_id combined actorDetails i segment s :
  finalSegment combined actorDetails i segment = Some s ->
  actor_id (actor s) = pe_actorId segment.
Proof.
  unfold finalSegment. destruct (actorDetails !! pe_actorId segment); cbn; [|discriminate].
  intros [= <-]. reflexivity.
Qed.

Lemma mapM_finalSegment_ids combined actorDetails (l : list PathEntry)
    (f : nat -> PathEntry -> nat * PathEntry) (finalPath : list PathSegment) :
  (forall i x, (f i x).2 = x) ->
  mapM (fun '(i, segment) => finalSegment combined actorDetails i segment) (imap f l)
    = Some finalPath ->
  segmentIds finalPath = pe_actorId <$> l.
Proof.
  revert f finalPath. induction l as [|x l IH]; intros f finalPath Hf Hmap.
  - cbn in Hmap. injection Hmap as <-. reflexivity.
  - apply mapM_Some in Hmap. cbn [imap] in Hmap.
    apply Forall2_cons_inv_l in Hmap.
    destruct Hmap as (s & rest & Hs & Hrest & ->).
    apply mapM_Some in Hrest. apply IH in Hrest; [|intros; apply Hf].
    unfold segmentIds in *. cbn. rewrite Hrest. f_equal.
    specialize (Hf 0%nat x). destruct (f 0%nat x) as [i seg]. cbn in Hf. subst seg.
    eapply finalSegment_id. exact Hs.
Qed.

Lemma buildFinalPath_ids combined actorDetails finalPath :
  buildFinalPath combined actorDetails = Some finalPath ->
  segmentIds finalPath = pe_actorId <$> combined.
Proof.
  unfold buildFinalPath. apply mapM_finalSegment_ids. reflexivity.
Qed.

Lemma buildResult_inv P st mp w r w' :
  buildResult P st mp w = (Ok r, w') ->
  exists actorDetails,
    buildFinalPath (combinedPath st mp) actorDetails = Some (path r) /\
    degrees r = Z.of_nat (length (path r)) - 1.
Proof.
  unfold buildResult. intros Hrun.
  apply bind_inv_ok in Hrun. destruct Hrun as (details & w1 & _ & Hrun).
  exists details.
  destruct (buildFinalPath (combinedPath st mp) details) as [finalPath|];
    [|discriminate].
  apply bind_inv_ok in Hrun. destruct Hrun as (infoMap & w2 & _ & Hrun).
  cbn in Hrun. injection Hrun as <- _. auto.
Qed.

Lemma filter_eq_absent (l : list Z) (x : Z) :
  x ∉ l -> filter (fun y => y = x) l = [].
Proof.
  induction l as [|y l IH]; intros Hx; [reflexivity|].
  rewrite filter_cons. apply not_elem_of_cons in Hx. destruct Hx as [Hne Hx].
  destruct (decide (y = x)); [congruence|]. now apply IH.
Qed.

Lemma filter_eq_NoDup (l : list Z) (x : Z) :
  NoDup l -> x ∈ l -> length (filter (fun y => y = x) l) = 1%nat.
Proof.
  induction 1 as [|y l Hy Hnd IH]; intros Hx.
  - now apply elem_of_nil in Hx.
  - rewrite filter_cons. apply elem_of_cons in Hx.
    destruct (decide (y = x)) as [->|Hne].
    + now rewrite filter_eq_absent.
    + destruct Hx as [->|Hx]; [contradiction|]. now apply IH.
Qed.

Lemma met_combinedPath st mp :
  met st mp ->
  NoDup (pe_actorId <$> combinedPath st mp) /\
  mp_actorId mp ∈ (pe_actorId <$> combinedPath st mp).
Proof.
  intros (nA & nB & HA & HB & HidA & HidB & HndA & HndB & Hchain & _).
  unfold combinedPath, pathFromA, pathFromB. rewrite HA, HB. cbn [walkUpFrom mbind option_bind].
  rewrite fmap_app, fmap_reverse. fold (chainIds nA).
  assert (HchainB : chainIds nB =
            mp_actorId mp :: (pe_actorId <$> walkUpFrom (parent nB)))
    by (now rewrite (chainIds_unfold nB), HidB).
  rewrite HchainB in HndB.
  apply NoDup_cons in HndB. destruct HndB as (HcB & HndB).
  split.
  - apply NoDup_app. split; [now rewrite reverse_Permutation|]. split; [|exact HndB].
    intros x Hx HxB. rewrite elem_of_reverse in Hx.
    assert (x = mp_actorId mp) as ->.
    { apply Hchain; [exact Hx|]. rewrite HchainB. apply elem_of_cons. now right. }
    contradiction.
  - apply elem_of_app. left. rewrite elem_of_reverse.
    rewrite (chainIds_unfold nA), HidA. apply elem_of_cons. now left.
Qed.

(** C9: when a search between two different actors succeeds, the loop ended
    in a state with a meeting point; the meeting actor is in both visited
    maps and is the only actor in both; the actors of the returned path are
    those of the combined path, the meeting actor is among them exactly once,
    and no actor occurs twice. *)
Theorem C9_path_actors_distinct (P : Providers) (fuel : nat) (a b : Z)
    (options : Options) (w : World) (r : ConnectionResult) (w' : World) :
  a <> b ->
  findConnection P fuel a b options w = (Ok (Some r), w') ->
  exists st mp w1,
    searchLoop P fuel (default 6 (maxDegrees options)) (initialState a b)
      {| filmographyCache := ∅; trace := trace w |} = (Ok st, w1) /\
    meetingPoint st = Some mp /\
    segmentIds (path r) = pe_actorId <$> combinedPath st mp /\
    length (filter (fun x => x = mp_actorId mp) (segmentIds (path r))) = 1%nat /\
    is_Some (visitedFromA st !! mp_actorId mp) /\
    is_Some (visitedFromB st !! mp_actorId mp) /\
    (forall x, is_Some (visitedFromA st !! x) -> is_Some (visitedFromB st !! x) ->
               x = mp_actorId mp) /\
    NoDup (segmentIds (path r)) /\
    degrees r = Z.of_nat (length (path r)) - 1.
Proof.
  intros Hne Hrun. rewrite findConnection_distinct in Hrun by assumption.
  apply bind_inv_ok in Hrun. destruct Hrun as (st & w1 & Hloop & Hrun).
  exists st.
  destruct (meetingPoint st) as [mp|] eqn:Hmp.
  - exists mp, w1. split; [exact Hloop|]. split; [reflexivity|].
    apply bind_inv_ok in Hrun. destruct Hrun as (r' & w2 & Hbuild & Hret).
    injection Hret as <- _.
    apply buildResult_inv in Hbuild. destruct Hbuild as (details & Hpath & Hdeg).
    apply buildFinalPath_ids in Hpath.
    assert (Hgood : good st).
    { eapply searchLoop_good; [|exact Hloop]. now apply initialState_running. }
    unfold good in Hgood. rewrite Hmp in Hgood.
    destruct (met_combinedPath st mp Hgood) as (Hnd & Hin).
    destruct Hgood as (nA & nB & HA & HB & _ & _ & _ & _ & _ & Hdis).
    rewrite <- Hpath in Hnd, Hin.
    split; [exact Hpath|]. split; [now apply filter_eq_NoDup|].
    split; [eauto|]. split; [eauto|]. split; [exact Hdis|]. split; assumption.
  - apply bind_inv_ok in Hrun. destruct Hrun as (u & w2 & _ & Hret). discriminate.
Qed.

Lemma C9_path_actors_witness :
  exists st mp w1,
    searchLoop twoHop 3 6 (initialState 1 2)
      {| filmographyCache := ∅; trace := [] |} = (Ok st, w1) /\
    meetingPoint st = Some mp /\
    segmentIds (path twoHopResult) = pe_actorId <$> combinedPath st mp /\
    length (filter (fun x => x = mp_actorId mp) (segmentIds (path twoHopResult))) = 1%nat /\
    is_Some (visitedFromA st !! mp_actorId mp) /\
    is_Some (visitedFromB st !! mp_actorId mp) /\
    (forall x, is_Some (visitedFromA st !! x) -> is_Some (visitedFromB st !! x) ->
               x = mp_actorId mp) /\
    NoDup (segmentIds (path twoHopResult)) /\
    degrees twoHopResult = Z.of_nat (length (path twoHopResult)) - 1.
Proof.
  apply (C9_path_actors_distinct twoHop 3 1 2 {| maxDegrees := None |} emptyWorld
           twoHopResult
           (findConnection twoHop 3 1 2 {| maxDegrees := None |} emptyWorld).2).
  - discriminate.
  - vm_compute. reflexivity.
Defined.

(** ** Provider failures *)

Section Failures.

Context (P : Providers).
Hypothesis credits_answered : forall a, is_Some (getPersonCredits P a).

Lemma getCoStars_ok a w : exists coStars w', getCoStars P a w = (Ok coStars, w').
Proof.
  assert (Hfg : exists fg w1, getFilmography P a w = (Ok fg, w1)).
  { destruct (filmographyCache w !! a) as [fg|] eqn:Hc.
    - exists fg, w. now apply getFilmography_hit.
    - destruct (credits_answered a) as [fg Hfg]. exists fg. eexists.
      now apply getFilmography_miss. }
  destruct Hfg as (fg & w1 & Hfg). rewrite (getCoStars_run P a w fg w1 Hfg).
  destruct (addMovies_spec P a (topMovies fg) [] w1) as (res & Hrun & _).
  eauto.
Qed.

Lemma scanCoStarsA_queue current coStars st :
  (length (queueA st) <= length (queueA (scanCoStarsA current coStars st)))%nat.
Proof.
  revert st. induction coStars as [|[c info] rest IH]; intros st; cbn; [lia|].
  destruct (visitedFromB st !! c); [cbn; lia|].
  destruct (visitedFromA st !! c); [apply IH|].
  etransitivity; [|apply IH]. cbn. rewrite length_app. lia.
Qed.

Lemma levelLoopA_ok n st w :
  (n <= length (queueA st))%nat ->
  exists st' w', levelLoopA P n st w = (Ok st', w').
Proof.
  revert st w. induction n as [|n IH]; intros st w Hlen; cbn [levelLoopA].
  - now exists st, w.
  - destruct (queueA st) as [|current rest] eqn:Hq; [cbn in Hlen; lia|].
    destruct (getCoStars_ok (actorId current) w) as (coStars & w1 & Hco).
    rewrite (bind_ok _ _ _ _ _ Hco).
    match goal with
    | |- context [scanCoStarsA current coStars ?s] =>
        pose proof (scanCoStarsA_queue current coStars s) as Hgrow;
        set (st1 := scanCoStarsA current coStars s) in *
    end.
    cbn in Hgrow, Hlen.
    destruct (meetingPoint st1); [now exists st1, w1|].
    apply IH. lia.
Qed.

Lemma expandA_ok st w : exists st' w', expandA P st w = (Ok st', w').
Proof. unfold expandA. apply levelLoopA_ok. cbn. lia. Qed.

Lemma expandB_ok st w : exists st' w', expandB P st w = (Ok st', w').
Proof.
  rewrite expandB_swap. destruct (expandA_ok (swapState st) w) as (s & w1 & ->).
  cbn. eauto.
Qed.

Lemma loopBody_ok maxDeg st w :
  exists flow st' w', loopBody P maxDeg st w = (Ok (flow, st'), w').
Proof.
  unfold loopBody. destruct (maxDeg <=? _); [cbn; eauto|].
  unfold expandBothSides.
  destruct (nonEmpty (queueA st) && (degreesFromA st <=? degreesFromB st)).
  - destruct (expandA_ok st w) as (stA & wA & HA).
    unfold bind at 1. unfold bind at 1. rewrite HA. cbn [ret].
    destruct (hasMeetingPoint stA); [cbn; eauto|].
    destruct (nonEmpty (queueB stA) && negb false); [|cbn; eauto].
    destruct (expandB_ok stA wA) as (stB & wB & HB).
    unfold bind. rewrite HB. cbn. eauto.
  - unfold bind at 1. cbn [ret].
    destruct (nonEmpty (queueB st) && negb (hasMeetingPoint st)); [|cbn; eauto].
    destruct (expandB_ok st w) as (stB & wB & HB).
    unfold bind. rewrite HB. cbn. eauto.
Qed.

(** The loop returns or runs out of iterations; it does not throw. *)
Lemma searchLoop_no_throw fuel maxDeg st w :
  (exists st' w', searchLoop P fuel maxDeg st w = (Ok st', w')) \/
  (exists w', searchLoop P fuel maxDeg st w = (OutOfFuel, w')).
Proof.
  revert st w. induction fuel as [|fuel IH]; intros st w; cbn [searchLoop].
  - right. eauto.
  - destruct (nonEmpty (queueA st) || nonEmpty (queueB st)); [|left; cbn; eauto].
    destruct (loopBody_ok maxDeg st w) as (flow & st' & w' & Hbody).
    rewrite (bind_ok _ _ _ _ _ Hbody).
    destruct flow; [apply IH|left; cbn; eauto].
Qed.

Lemma nonEmpty_false {A} (l : list A) : nonEmpty l = false -> l = [].
Proof. now destruct l. Qed.

Lemma nonEmpty_true {A} (l : list A) : nonEmpty l = true -> l <> [].
Proof. now destruct l. Qed.

(** With more iterations allowed than the bound has degrees left, the loop
    has returned, unless it reached a state in which it spins: then it
    returns for no number of iterations. *)
Lemma searchLoop_returns_or_hangs maxDeg fuel st w :
  meetingPoint st = None ->
  (Z.to_nat (maxDeg - (degreesFromA st + degreesFromB st)) < fuel)%nat ->
  (exists st' w', searchLoop P fuel maxDeg st w = (Ok st', w')) \/
  (forall fuel', (searchLoop P fuel' maxDeg st w).1 = OutOfFuel).
Proof.
  revert st w. induction fuel as [|fuel IH]; intros st w Hmp Hfuel; [lia|].
  cbn [searchLoop].
  destruct (nonEmpty (queueA st) || nonEmpty (queueB st)) eqn:Hq;
    [|left; cbn; eauto].
  destruct (Z_lt_le_dec (degreesFromA st + degreesFromB st) maxDeg) as [Hb|Hb].
  2:{ left. unfold loopBody.
      replace (maxDeg <=? degreesFromA st + degreesFromB st) with true by lia.
      cbn. eauto. }
  destruct (loopBody_ok maxDeg st w) as (flow & st' & w1 & Hbody).
  rewrite (bind_ok _ _ _ _ _ Hbody).
  destruct flow; [|left; cbn; eauto].
  destruct (loopBody_degrees P maxDeg st w Continue st' w1 Hmp Hb Hbody)
    as (HdA & _ & _ & HdB & Hflow).
  assert (Hmp' : meetingPoint st' = None).
  { destruct (meetingPoint st') eqn:E; [|reflexivity].
    assert (Continue = Break) by (apply Hflow; discriminate). discriminate. }
  specialize (HdB Hmp').
  assert (HqB : nonEmpty (queueB st) = true \/ nonEmpty (queueB st) = false)
    by (destruct (nonEmpty (queueB st)); auto).
  destruct (nonEmpty (queueA st) && (degreesFromA st <=? degreesFromB st)) eqn:HcA;
    [|destruct HqB as [HqB|HqB]; rewrite HqB in HdB].
  - destruct (IH st' w1 Hmp') as [Hok|Hhang].
    + destruct (nonEmpty (queueB st)); lia.
    + now left.
    + right. intros [|fuel']; [reflexivity|].
      rewrite (searchLoop_continue P fuel' maxDeg st st' w Hq) by now rewrite Hbody.
      rewrite Hbody. apply Hhang.
  - destruct (IH st' w1 Hmp') as [Hok|Hhang].
    + lia.
    + now left.
    + right. intros [|fuel']; [reflexivity|].
      rewrite (searchLoop_continue P fuel' maxDeg st st' w Hq) by now rewrite Hbody.
      rewrite Hbody. apply Hhang.
  - right. intros fuel'. rewrite stuck_forever; [reflexivity|].
    rewrite HqB, orb_false_r in Hq. rewrite Hq in HcA. cbn in HcA.
    unfold stuck. split; [now apply nonEmpty_true|].
    split; [now apply nonEmpty_false|]. lia.
Qed.

Lemma fetchActorDetails_ok actorIds (actorDetails : gmap Z ActorInfo) w :
  exists actorDetails' w',
    fetchActorDetails P actorIds actorDetails w = (Ok actorDetails', w') /\
    forall x, x ∈ actorIds \/ is_Some (actorDetails !! x) ->
              is_Some (actorDetails' !! x).
Proof.
  revert actorDetails w. induction actorIds as [|a rest IH]; intros actorDetails w.
  - exists actorDetails, w. split; [reflexivity|].
    intros x [Hx|Hx]; [now apply elem_of_nil in Hx|assumption].
  - cbn [fetchActorDetails]. unfold bind at 1, tryCatch, bind at 1, call.
    destruct (getPersonDetails P a) as [person|]; cbn [ret].
    + match goal with
      | |- context [fetchActorDetails P rest ?d ?w1] =>
          destruct (IH d w1) as (details' & w' & Hrun & Hdom)
      end.
      exists details', w'. split; [exact Hrun|].
      intros x [Hx|Hx]; apply Hdom.
      * apply elem_of_cons in Hx. destruct Hx as [->|Hx]; [|now left].
        right. rewrite lookup_insert_eq. eauto.
      * right. destruct (decide (a = x)) as [->|Hne];
          [rewrite lookup_insert_eq; eauto|now rewrite lookup_insert_ne].
    + match goal with
      | |- context [fetchActorDetails P rest ?d ?w1] =>
          destruct (IH d w1) as (details' & w' & Hrun & Hdom)
      end.
      exists details', w'. split; [exact Hrun|].
      intros x [Hx|Hx]; apply Hdom.
      * apply elem_of_cons in Hx. destruct Hx as [->|Hx]; [|now left].
        right. rewrite lookup_insert_eq. eauto.
      * right. destruct (decide (a = x)) as [->|Hne];
          [rewrite lookup_insert_eq; eauto|now rewrite lookup_insert_ne].
Qed.

Lemma buildFinalPath_some combined (actorDetails : gmap Z ActorInfo) :
  (forall x, x ∈ (pe_actorId <$> combined) -> is_Some (actorDetails !! x)) ->
  is_Some (buildFinalPath combined actorDetails).
Proof.
  intros Hdom. unfold buildFinalPath. apply mapM_is_Some.
  apply Forall_forall. intros [i segment] Hin.
  apply elem_of_lookup_imap in Hin. destruct Hin as (j & y & Heq & Hj).
  injection Heq as -> ->. cbn. unfold finalSegment.
  destruct (Hdom (pe_actorId y)) as [info Hinfo].
  { apply list_elem_of_fmap. exists y. split; [reflexivity|].
    eapply list_elem_of_lookup_2. exact Hj. }
  rewrite Hinfo. cbn. eauto.
Qed.

Hypothesis deceased_answered : forall ids, is_Some (getDeceasedPersons P ids).

Lemma buildResult_ok st mp w : exists r w', buildResult P st mp w = (Ok r, w').
Proof.
  unfold buildResult.
  destruct (fetchActorDetails_ok (pe_actorId <$> combinedPath st mp) ∅ w)
    as (details & w1 & Hrun & Hdom).
  rewrite (bind_ok _ _ _ _ _ Hrun).
  destruct (buildFinalPath_some (combinedPath st mp) details) as [finalPath Hfinal].
  { intros x Hx. apply Hdom. now left. }
  rewrite Hfinal. unfold bind, call.
  destruct (deceased_answered
              ((fun p => actor_id (actor p)) <$> deceasedSegments finalPath))
    as [infoMap ->].
  cbn. eauto.
Qed.

Lemma findConnection_no_throw fuel a b options w :
  a <> b ->
  (exists r w', findConnection P fuel a b options w = (Ok r, w')) \/
  (exists w', findConnection P fuel a b options w = (OutOfFuel, w')).
Proof.
  intros Hne. rewrite findConnection_distinct by assumption.
  destruct (searchLoop_no_throw fuel (default 6 (maxDegrees options))
              (initialState a b) {| filmographyCache := ∅; trace := trace w |})
    as [(st & w1 & Hloop)|(w1 & Hloop)].
  - left. rewrite (bind_ok _ _ _ _ _ Hloop).
    destruct (meetingPoint st) as [mp|].
    + destruct (buildResult_ok st mp w1) as (r & w2 & Hbuild).
      rewrite (bind_ok _ _ _ _ _ Hbuild). cbn. eauto.
    + cbn. eauto.
  - right. rewrite (bind_fuel _ _ _ _ Hloop). eauto.
Qed.

(** A search between two different actors returns, or never does. *)
Lemma findConnection_returns_or_hangs a b options w :
  a <> b ->
  (exists r w',
      findConnection P (S (Z.to_nat (default 6 (maxDegrees options)))) a b options w
        = (Ok r, w')) \/
  (forall fuel, (findConnection P fuel a b options w).1 = OutOfFuel).
Proof.
  intros Hne.
  destruct (searchLoop_returns_or_hangs (default 6 (maxDegrees options))
              (S (Z.to_nat (default 6 (maxDegrees options))))
              (initialState a b) {| filmographyCache := ∅; trace := trace w |})
    as [(st & w1 & Hloop)|Hhang].
  - reflexivity.
  - cbn. lia.
  - left. rewrite findConnection_distinct by assumption.
    rewrite (bind_ok _ _ _ _ _ Hloop).
    destruct (meetingPoint st) as [mp|].
    + destruct (buildResult_ok st mp w1) as (r & w2 & Hbuild).
      rewrite (bind_ok _ _ _ _ _ Hbuild). cbn. eauto.
    + cbn. eauto.
  - right. intros fuel. rewrite findConnection_distinct by assumption.
    specialize (Hhang fuel). unfold bind at 1.
    destruct (searchLoop P fuel _ _ _) as [[st|e|] w1]; cbn in Hhang;
      try discriminate. reflexivity.
Qed.

End Failures.

(** C2 (as the claim states it): when the filmography fetch of the actor
    being expanded fails, the search rejects with the error of the provider. *)
Lemma C2_filmography_failure_propagates :
  ~ neverRejects twoHopCreditsDown 1 2 {| maxDegrees := Some 6 |} emptyWorld.
Proof.
  intros H. apply (H 1%nat (ProviderError (FetchPersonCredits 1))).
  vm_compute. reflexivity.
Qed.

(** C2 (amended): in a search between two different actors whose filmography
    fetches and deceased-records lookup succeed, no failure of a movie-cast
    fetch or of an actor-detail fetch gets out: the search rejects for no
    number of iterations, and with one iteration more than [maxDegrees] it has
    returned a result or the no-connection outcome, unless it returns for no
    number of iterations at all. *)
Theorem C2_cast_and_detail_failures_tolerated (P : Providers) (a b : Z)
    (options : Options) (w : World) :
  a <> b ->
  creditsAnswered P ->
  neverRejects P a b options w /\
  ((exists r w',
       findConnection P (S (Z.to_nat (default 6 (maxDegrees options)))) a b options w
         = (Ok r, w')) \/
   (forall fuel, (findConnection P fuel a b options w).1 = OutOfFuel)).
Proof.
  intros Hne [Hcredits Hdeceased]. split.
  - intros fuel e.
    destruct (findConnection_no_throw P Hcredits Hdeceased fuel a b options w Hne)
      as [(r & w' & ->)|(w' & ->)]; discriminate.
  - now apply findConnection_returns_or_hangs.
Qed.

Lemma twoHopFlaky_answers : creditsAnswered twoHopFlaky.
Proof.
  split.
  - intros a. cbn. repeat case_decide; eauto.
  - intros ids. cbn. eauto.
Qed.

Lemma C2_flaky_witness :
  neverRejects twoHopFlaky 1 2 {| maxDegrees := None |} emptyWorld /\
  ((exists r w',
       findConnection twoHopFlaky
         (S (Z.to_nat (default 6 (maxDegrees {| maxDegrees := None |})))) 1 2
         {| maxDegrees := None |} emptyWorld = (Ok r, w')) \/
   (forall fuel,
       (findConnection twoHopFlaky fuel 1 2 {| maxDegrees := None |} emptyWorld).1
         = OutOfFuel)).
Proof.
  apply (C2_cast_and_detail_failures_tolerated twoHopFlaky 1 2
           {| maxDegrees := None |} emptyWorld).
  - discriminate.
  - exact twoHopFlaky_answers.
Defined.

(** With the cast of movie 10 and the details of actor 3 unavailable, the
    search goes through movie 11 and names actor 3 by a placeholder. *)
Example flaky_run :
  (findConnection twoHopFlaky 7 1 2 {| maxDegrees := None |} emptyWorld).1 =
  Ok (Some {| degrees := 2;
              path := [ segmentOf 1 (Some {| pm_id := 11;
                                             pm_title := "Eleven";
                                             pm_year := Some (Int 2011);
                                             posterPath := None |});
                        segmentOf 3 None;
                        segmentOf 2 None ];
              totalDeceased := 0;
              deceasedOnPath := [] |}).
Proof. vm_compute. reflexivity. Qed.


(** ** The exits of a search *)

(** X1: with a bound of zero or less, a search between two different actors
    answers "no connection" in its first iteration: no provider is asked,
    and the cache is left empty. *)
Theorem nonpositive_bound_answers_null (P : Providers) (fuel : nat) (a b m : Z)
    (w : World) :
  a <> b ->
  m <= 0 ->
  findConnection P (S fuel) a b {| maxDegrees := Some m |} w =
    (Ok None, {| filmographyCache := ∅; trace := trace w |}).
Proof.
  intros Hne Hm. rewrite findConnection_distinct by assumption.
  cbn [maxDegrees]. change (default 6 (Some m)) with m.
  unfold bind at 1. cbn [searchLoop].
  cbn [initialState queueA queueB nonEmpty orb]. unfold bind at 1.
  unfold loopBody. cbn [initialState degreesFromA degreesFromB].
  replace (m <=? 0 + 0) with true by lia. reflexivity.
Qed.

Lemma nonpositive_bound_witness :
  findConnection twoHop 1 1 2 {| maxDegrees := Some (-3) |} emptyWorld =
    (Ok None, {| filmographyCache := ∅; trace := trace emptyWorld |}).
Proof.
  apply (nonpositive_bound_answers_null twoHop 0 1 2 (-3) emptyWorld).
  - discriminate.
  - lia.
Defined.

Section Exits.

Context (P : Providers) (t0 : list Call).

Lemma cachedSince_call {A} c (r : option A) :
  notCreditsCall c -> keeps (cachedSince P t0) (cachedSince P t0) (call c r).
Proof.
  intros Hc w (new & Ht & Hin).
  assert (Hnew : cachedSince P t0
            {| filmographyCache := filmographyCache w; trace := c :: trace w |}).
  { exists (c :: new). cbn. rewrite Ht. split; [reflexivity|].
    destruct c; cbn in *; try contradiction; auto. }
  unfold call. destruct r; exact Hnew.
Qed.

Lemma cachedSince_getFilmography a :
  keeps (cachedSince P t0) (cachedSince P t0) (getFilmography P a).
Proof.
  intros w (new & Ht & Hin).
  destruct (filmographyCache w !! a) as [credits|] eqn:Hc.
  - rewrite (getFilmography_hit P a credits w Hc). now exists new.
  - destruct (getPersonCredits P a) as [credits|] eqn:Hp.
    + rewrite (getFilmography_miss P a credits w Hc Hp).
      exists (FetchPersonCredits a :: new). cbn. rewrite Ht.
      split; [reflexivity|]. intros x c Hx Hpx.
      destruct (decide (a = x)) as [->|Hne].
      * rewrite lookup_insert_eq. congruence.
      * rewrite lookup_insert_ne by assumption.
        apply elem_of_cons in Hx. destruct Hx as [->|Hx]; [contradiction|auto].
    + rewrite (getFilmography_fail P a w Hc Hp).
      exists (FetchPersonCredits a :: new). cbn. rewrite Ht.
      split; [reflexivity|]. intros x c Hx Hpx.
      apply elem_of_cons in Hx. destruct Hx as [->|Hx]; [congruence|auto].
Qed.

Lemma cachedSince_searchLoop fuel maxDeg st :
  keeps (cachedSince P t0) (cachedSince P t0) (searchLoop P fuel maxDeg st).
Proof.
  apply (keeps_searchLoop P _ _ notCreditsCall).
  - auto.
  - intros; now apply cachedSince_call.
  - apply cachedSince_getFilmography.
  - intros; exact Logic.I.
Qed.

Lemma cachedSince_fetchActorDetails actorIds actorDetails :
  keeps (cachedSince P t0) (cachedSince P t0)
        (fetchActorDetails P actorIds actorDetails).
Proof.
  apply (keeps_fetchActorDetails P _ _ notCreditsCall).
  - auto.
  - intros; now apply cachedSince_call.
  - intros; exact Logic.I.
Qed.

(** What is left of the cache by the code after the loop. *)
Lemma afterLoop_cache st w :
  cachedSince P t0 w ->
  match (match meetingPoint st with
         | None => clearFilmographyCache ;;; ret None
         | Some mp => result <- buildResult P st mp ;; ret (Some result)
         end) w with
  | (Ok _, w') => filmographyCache w' = ∅
  | (Throw _, w') => cachedSince P t0 w'
  | (OutOfFuel, _) => True
  end.
Proof.
  intros Hw. destruct (meetingPoint st) as [mp|]; [|reflexivity].
  unfold buildResult. unfold bind at 1, bind at 1.
  pose proof (cachedSince_fetchActorDetails
                (pe_actorId <$> combinedPath st mp) ∅ w Hw) as H1.
  destruct (fetchActorDetails _ _ _ w) as [[details|e|] w1]; cbn; auto.
  destruct (buildFinalPath _ details) as [finalPath|]; cbn; auto.
  unfold bind at 1.
  pose proof (cachedSince_call
                (FetchDeceasedPersons
                   ((fun p => actor_id (actor p)) <$> deceasedSegments finalPath))
                (getDeceasedPersons P
                   ((fun p => actor_id (actor p)) <$> deceasedSegments finalPath))
                Logic.I w1 H1) as H2.
  destruct (call _ _ w1) as [[infoMap|e|] w2]; cbn; auto.
Qed.

End Exits.

(** X2: a search between two different actors that returns, with a result
    or with "no connection", leaves the filmography cache empty; one that
    rejects leaves in the cache every filmography it fetched. *)
Theorem cache_reset_on_return_only (P : Providers) (fuel : nat) (a b : Z)
    (options : Options) (w : World) :
  a <> b ->
  match findConnection P fuel a b options w with
  | (Ok _, w') => filmographyCache w' = ∅
  | (Throw _, w') =>
      exists new, trace w' = new ++ trace w /\
        forall x credits,
          x ∈ creditFetches new -> getPersonCredits P x = Some credits ->
          filmographyCache w' !! x = Some credits
  | (OutOfFuel, _) => True
  end.
Proof.
  intros Hne. rewrite findConnection_distinct by assumption.
  set (w0 := {| filmographyCache := ∅; trace := trace w |}).
  assert (H0 : cachedSince P (trace w) w0).
  { exists []. split; [reflexivity|]. intros x c Hx. now apply elem_of_nil in Hx. }
  pose proof (cachedSince_searchLoop P (trace w) fuel (default 6 (maxDegrees options))
                (initialState a b) w0 H0) as Hloop.
  unfold bind at 1.
  destruct (searchLoop P fuel _ _ w0) as [[st|e|] w1]; [|exact Hloop|exact Logic.I].
  apply (afterLoop_cache P (trace w) st w1 Hloop).
Qed.

Lemma cache_reset_witness :
  match findConnection twoHopStoreDown 3 1 2 {| maxDegrees := None |} emptyWorld with
  | (Ok _, w') => filmographyCache w' = ∅
  | (Throw _, w') =>
      exists new, trace w' = new ++ trace emptyWorld /\
        forall x credits,
          x ∈ creditFetches new ->
          getPersonCredits twoHopStoreDown x = Some credits ->
          filmographyCache w' !! x = Some credits
  | (OutOfFuel, _) => True
  end.
Proof.
  apply (cache_reset_on_return_only twoHopStoreDown 3 1 2 {| maxDegrees := None |}
           emptyWorld).
  discriminate.
Defined.

(** With the store down the search rejects after the two filmography
    fetches, and both filmographies stay in the cache. *)
Example store_down_run :
  (findConnection twoHopStoreDown 3 1 2 {| maxDegrees := None |} emptyWorld).1 =
    Throw (ProviderError (FetchDeceasedPersons [])) /\
  filmographyCache
    (findConnection twoHopStoreDown 3 1 2 {| maxDegrees := None |} emptyWorld).2 !! 1
    = Some {| cast := [movie10] |} /\
  filmographyCache
    (findConnection twoHopStoreDown 3 1 2 {| maxDegrees := None |} emptyWorld).2 !! 2
    = Some {| cast := [movie20] |}.
Proof. vm_compute. repeat split; reflexivity. Qed.

(** ** Enrichment of the path *)

Lemma mapM_imap_Some {A B C} (f : C -> option B) (h : nat -> A -> C)
    (g : nat -> A -> B) (l : list A) :
  (forall i x, l !! i = Some x -> f (h i x) = Some (g i x)) ->
  mapM f (imap h l) = Some (imap g l).
Proof.
  revert h g. induction l as [|x l IH]; intros h g Hf; [reflexivity|].
  cbn [imap]. apply mapM_Some. constructor.
  - apply (Hf 0%nat x). reflexivity.
  - apply mapM_Some. apply IH. intros i y Hy. apply (Hf (S i) y). exact Hy.
Qed.

Section Enrichment.

Context (P : Providers).

(** The detail fetches: one per id, in order, each answered or replaced by
    the placeholder. *)
Lemma fetchActorDetails_run actorIds (actorDetails : gmap Z ActorInfo) w :
  fetchActorDetails P actorIds actorDetails w =
    (Ok (foldl (fun acc x => <[x := detailsOf P x]> acc) actorDetails actorIds),
     {| filmographyCache := filmographyCache w;
        trace := reverse (FetchPersonDetails <$> actorIds) ++ trace w |}).
Proof.
  revert actorDetails w. induction actorIds as [|x rest IH]; intros actorDetails w.
  - cbn. now destruct w.
  - replace (reverse (FetchPersonDetails <$> x :: rest) ++ trace w)
      with (reverse (FetchPersonDetails <$> rest) ++ FetchPersonDetails x :: trace w)
      by (rewrite fmap_cons, reverse_cons, <- app_assoc; reflexivity).
    cbn [fetchActorDetails foldl]. unfold bind at 1, tryCatch, bind at 1, call.
    unfold detailsOf at 2.
    destruct (getPersonDetails P x) as [person|]; cbn [ret]; rewrite IH; reflexivity.
Qed.

Lemma foldl_details_lookup actorIds (actorDetails : gmap Z ActorInfo) x :
  foldl (fun acc y => <[y := detailsOf P y]> acc) actorDetails actorIds !! x =
    if decide (x ∈ actorIds) then Some (detailsOf P x) else actorDetails !! x.
Proof.
  revert actorDetails. induction actorIds as [|y rest IH]; intros actorDetails.
  - cbn. destruct (decide (x ∈ [])) as [Hx|_]; [|reflexivity].
    now apply elem_of_nil in Hx.
  - cbn [foldl]. rewrite IH.
    destruct (decide (x ∈ rest)) as [Hin|Hout].
    + destruct (decide (x ∈ y :: rest)) as [_|Hn]; [reflexivity|].
      exfalso. apply Hn. apply elem_of_cons. now right.
    + destruct (decide (y = x)) as [->|Hne].
      * rewrite lookup_insert_eq.
        destruct (decide (x ∈ x :: rest)) as [_|Hn]; [reflexivity|].
        exfalso. apply Hn. apply elem_of_cons. now left.
      * rewrite lookup_insert_ne by assumption.
        destruct (decide (x ∈ y :: rest)) as [Hx|_]; [|reflexivity].
        apply elem_of_cons in Hx. destruct Hx as [->|Hx]; contradiction.
Qed.

(** With the details of all its actors, the final path is the combined
    path with each movie moved one segment up. *)
Lemma buildFinalPath_run combined (actorDetails : gmap Z ActorInfo) :
  (forall segment, segment ∈ combined ->
     actorDetails !! pe_actorId segment = Some (detailsOf P (pe_actorId segment))) ->
  buildFinalPath combined actorDetails = Some (finalPathOf P combined).
Proof.
  intros Hdetails. unfold buildFinalPath, finalPathOf.
  apply mapM_imap_Some. intros i segment Hi. unfold finalSegment.
  rewrite Hdetails by (eapply list_elem_of_lookup_2; exact Hi). cbn.
  destruct (combined !! S i) as [next|]; cbn; [|reflexivity].
  now destruct (pe_movie next).
Qed.

(** Everything after the loop, spelled out. *)
Lemma buildResult_run st mp w :
  buildResult P st mp w =
    let finalPath := finalPathOf P (combinedPath st mp) in
    let w1 := {| filmographyCache := filmographyCache w;
                 trace := FetchDeceasedPersons (deceasedIdsOf finalPath)
                          :: reverse (FetchPersonDetails
                                        <$> (pe_actorId <$> combinedPath st mp))
                          ++ trace w |} in
    match getDeceasedPersons P (deceasedIdsOf finalPath) with
    | Some infoMap =>
        (Ok {| degrees := Z.of_nat (length finalPath) - 1;
               path := finalPath;
               totalDeceased := Z.of_nat (length (deceasedSegments finalPath));
               deceasedOnPath := collectDeceased (deceasedIdsOf finalPath) infoMap |},
         {| filmographyCache := ∅; trace := trace w1 |})
    | None =>
        (Throw (ProviderError (FetchDeceasedPersons (deceasedIdsOf finalPath))), w1)
    end.
Proof.
  unfold buildResult. unfold bind at 1. rewrite fetchActorDetails_run.
  rewrite buildFinalPath_run.
  - unfold bind, call, deceasedIdsOf. cbn [filmographyCache trace].
    destruct (getDeceasedPersons P _); reflexivity.
  - intros segment Hin. rewrite foldl_details_lookup.
    destruct (decide (pe_actorId segment ∈ pe_actorId <$> combinedPath st mp))
      as [_|Hn]; [reflexivity|].
    exfalso. apply Hn. now apply list_elem_of_fmap_2.
Qed.

(** A successful search between two different actors, taken apart. *)
Lemma findConnection_success fuel a b options w r w' :
  a <> b ->
  findConnection P fuel a b options w = (Ok (Some r), w') ->
  exists st mp w1 infoMap,
    searchLoop P fuel (default 6 (maxDegrees options)) (initialState a b)
      {| filmographyCache := ∅; trace := trace w |} = (Ok st, w1) /\
    meetingPoint st = Some mp /\
    getDeceasedPersons P (deceasedIdsOf (path r)) = Some infoMap /\
    path r = finalPathOf P (combinedPath st mp) /\
    degrees r = Z.of_nat (length (path r)) - 1 /\
    totalDeceased r = Z.of_nat (length (deceasedSegments (path r))) /\
    deceasedOnPath r = collectDeceased (deceasedIdsOf (path r)) infoMap /\
    trace w' = FetchDeceasedPersons (deceasedIdsOf (path r))
               :: reverse (FetchPersonDetails <$> (pe_actorId <$> combinedPath st mp))
               ++ trace w1.
Proof.
  intros Hne Hrun. rewrite findConnection_distinct in Hrun by assumption.
  apply bind_inv_ok in Hrun. destruct Hrun as (st & w1 & Hloop & Hrun).
  destruct (meetingPoint st) as [mp|] eqn:Hmp.
  - apply bind_inv_ok in Hrun. destruct Hrun as (r' & w2 & Hbuild & Hret).
    injection Hret as <- <-. rewrite buildResult_run in Hbuild. cbn zeta in Hbuild.
    destruct (getDeceasedPersons P _) as [infoMap|] eqn:Hstore; [|discriminate].
    injection Hbuild as <- <-. cbn [path degrees totalDeceased deceasedOnPath trace].
    exists st, mp, w1, infoMap. repeat (split; [first [assumption|reflexivity]|]).
    reflexivity.
  - apply bind_inv_ok in Hrun. destruct Hrun as (u & w2 & _ & Hret). discriminate.
Qed.

Lemma segmentIds_finalPathOf combined :
  segmentIds (finalPathOf P combined) = pe_actorId <$> combined.
Proof.
  unfold segmentIds, finalPathOf. rewrite fmap_imap.
  rewrite <- (imap_const pe_actorId combined). reflexivity.
Qed.

Lemma omap_length_le {A B} (f : A -> option B) (l : list A) :
  (length (omap f l) <= length l)%nat.
Proof.
  induction l as [|x l IH]; cbn; [lia|]. destruct (f x); cbn; lia.
Qed.

Lemma collectDeceased_omap ids (infoMap : gmap Z DeceasedRow) :
  collectDeceased ids infoMap = omap (fun x => rowToDeceased <$> infoMap !! x) ids.
Proof.
  induction ids as [|x rest IH]; [reflexivity|]. cbn.
  destruct (infoMap !! x); cbn; now rewrite IH.
Qed.

End Enrichment.

(** X3: every actor of a returned path shows what the details provider
    answered for them (the deceased flag being that a death date is there),
    or, when their detail fetch failed, the placeholder: the name "Actor"
    followed by the id, no image, not deceased. *)
Theorem path_actors_enriched_or_placeholder (P : Providers) (fuel : nat) (a b : Z)
    (options : Options) (w : World) (r : ConnectionResult) (w' : World) :
  a <> b ->
  findConnection P fuel a b options w = (Ok (Some r), w') ->
  forall s, s ∈ path r ->
    match getPersonDetails P (actor_id (actor s)) with
    | Some person =>
        actor_name (actor s) = person_name person /\
        profilePath (actor s) = profile_path person /\
        isDeceased (actor s) = truthy (person_deathday person)
    | None =>
        actor_name (actor s) = "Actor " +:+ pretty (actor_id (actor s)) /\
        profilePath (actor s) = None /\
        isDeceased (actor s) = false
    end.
Proof.
  intros Hne Hrun s Hs.
  destruct (findConnection_success P fuel a b options w r w' Hne Hrun)
    as (st & mp & w1 & infoMap & _ & _ & _ & Hpath & _).
  rewrite Hpath in Hs. unfold finalPathOf in Hs.
  apply elem_of_lookup_imap_1 in Hs. destruct Hs as (i & e & -> & _).
  cbn. unfold detailsOf. destruct (getPersonDetails P (pe_actorId e)); cbn; auto.
Qed.

Lemma path_actors_enriched_witness :
  actor_name (actor (segmentOf 2 None)) = "Actor " +:+ pretty 2 /\
  profilePath (actor (segmentOf 2 None)) = None /\
  isDeceased (actor (segmentOf 2 None)) = false.
Proof.
  apply (path_actors_enriched_or_placeholder twoHopMourning 3 1 2
           {| maxDegrees := None |} emptyWorld twoHopMourningResult
           (findConnection twoHopMourning 3 1 2 {| maxDegrees := None |} emptyWorld).2
           ltac:(discriminate) ltac:(vm_compute; reflexivity) (segmentOf 2 None)).
  cbn. do 2 right. left.
Defined.

(** X4: [totalDeceased] counts the path actors flagged deceased, and
    [deceasedOnPath] holds, for exactly those of them that the store knows,
    the record of the store: never more entries than [totalDeceased], and a
    flagged actor the store does not know is counted but not listed. *)
Theorem deceased_counted_and_listed (P : Providers) (fuel : nat) (a b : Z)
    (options : Options) (w : World) (r : ConnectionResult) (w' : World) :
  a <> b ->
  findConnection P fuel a b options w = (Ok (Some r), w') ->
  exists infoMap,
    getDeceasedPersons P (deceasedIdsOf (path r)) = Some infoMap /\
    totalDeceased r = Z.of_nat (length (deceasedIdsOf (path r))) /\
    0 <= Z.of_nat (length (deceasedOnPath r)) <= totalDeceased r /\
    (forall d, d ∈ deceasedOnPath r <->
       exists x row, x ∈ deceasedIdsOf (path r) /\ infoMap !! x = Some row /\
                     d = rowToDeceased row).
Proof.
  intros Hne Hrun.
  destruct (findConnection_success P fuel a b options w r w' Hne Hrun)
    as (st & mp & w1 & infoMap & _ & _ & Hstore & _ & _ & Htotal & Hlist & _).
  exists infoMap. split; [exact Hstore|].
  assert (Hlen : length (deceasedIdsOf (path r)) = length (deceasedSegments (path r)))
    by (unfold deceasedIdsOf; apply length_fmap).
  split; [now rewrite Hlen|]. rewrite Hlist, collectDeceased_omap. split.
  - rewrite Htotal, <- Hlen.
    pose proof (omap_length_le (fun x => rowToDeceased <$> infoMap !! x)
                  (deceasedIdsOf (path r))). lia.
  - intros d. rewrite list_elem_of_omap. split.
    + intros (x & Hx & Hd). destruct (infoMap !! x) as [row|] eqn:Hrow; [|discriminate].
      injection Hd as <-. eauto.
    + intros (x & row & Hx & Hrow & ->). exists x. now rewrite Hrow.
Qed.

Lemma deceased_counted_witness :
  exists infoMap,
    getDeceasedPersons twoHopMourning (deceasedIdsOf (path twoHopMourningResult))
      = Some infoMap /\
    totalDeceased twoHopMourningResult =
      Z.of_nat (length (deceasedIdsOf (path twoHopMourningResult))) /\
    0 <= Z.of_nat (length (deceasedOnPath twoHopMourningResult))
      <= totalDeceased twoHopMourningResult /\
    (forall d, d ∈ deceasedOnPath twoHopMourningResult <->
       exists x row, x ∈ deceasedIdsOf (path twoHopMourningResult) /\
                     infoMap !! x = Some row /\ d = rowToDeceased row).
Proof.
  apply (deceased_counted_and_listed twoHopMourning 3 1 2
           {| maxDegrees := None |} emptyWorld twoHopMourningResult
           (findConnection twoHopMourning 3 1 2 {| maxDegrees := None |} emptyWorld).2).
  - discriminate.
  - vm_compute. reflexivity.
Defined.

(** X5: after its loop a successful search makes one detail fetch per actor
    of the returned path, in path order, then one lookup in the deceased
    store for the flagged actors, and no other external call. *)
Theorem enrichment_calls (P : Providers) (fuel : nat) (a b : Z)
    (options : Options) (w : World) (r : ConnectionResult) (w' : World) :
  a <> b ->
  findConnection P fuel a b options w = (Ok (Some r), w') ->
  exists st w1,
    searchLoop P fuel (default 6 (maxDegrees options)) (initialState a b)
      {| filmographyCache := ∅; trace := trace w |} = (Ok st, w1) /\
    trace w' = FetchDeceasedPersons (deceasedIdsOf (path r))
               :: reverse (FetchPersonDetails <$> segmentIds (path r))
               ++ trace w1.
Proof.
  intros Hne Hrun.
  destruct (findConnection_success P fuel a b options w r w' Hne Hrun)
    as (st & mp & w1 & infoMap & Hloop & _ & _ & Hpath & _ & _ & _ & Htrace).
  exists st, w1. split; [exact Hloop|].
  rewrite Htrace, Hpath, segmentIds_finalPathOf. reflexivity.
Qed.

Lemma enrichment_calls_witness :
  exists st w1,
    searchLoop twoHopMourning 3 6 (initialState 1 2)
      {| filmographyCache := ∅; trace := [] |} = (Ok st, w1) /\
    trace (findConnection twoHopMourning 3 1 2 {| maxDegrees := None |} emptyWorld).2 =
      FetchDeceasedPersons (deceasedIdsOf (path twoHopMourningResult))
      :: reverse (FetchPersonDetails <$> segmentIds (path twoHopMourningResult))
      ++ trace w1.
Proof.
  apply (enrichment_calls twoHopMourning 3 1 2 {| maxDegrees := None |} emptyWorld
           twoHopMourningResult
           (findConnection twoHopMourning 3 1 2 {| maxDegrees := None |} emptyWorld).2).
  - discriminate.
  - vm_compute. reflexivity.
Defined.

(** The search on that graph: actor 3 is flagged and listed, actor 2 is
    shown by the placeholder. *)
Example mourning_run :
  (findConnection twoHopMourning 3 1 2 {| maxDegrees := None |} emptyWorld).1 =
    Ok (Some twoHopMourningResult) /\
  trace (findConnection twoHopMourning 3 1 2 {| maxDegrees := None |} emptyWorld).2 =
    [ FetchDeceasedPersons [3]; FetchPersonDetails 2; FetchPersonDetails 3;
      FetchPersonDetails 1; FetchMovieCredits 20; FetchPersonCredits 2;
      FetchMovieCredits 10; FetchPersonCredits 1 ].
Proof. vm_compute. split; reflexivity. Qed.

(** ** Hops along a list *)

Lemma eachHop_nil {A} (R : A -> A -> Prop) : eachHop R [].
Proof. intros i x y Hi. now rewrite lookup_nil in Hi. Qed.

Lemma eachHop_cons {A} (R : A -> A -> Prop) x l :
  (forall y, head l = Some y -> R x y) -> eachHop R l -> eachHop R (x :: l).
Proof.
  intros Hhd Hl [|i] u v Hi HSi; cbn in Hi, HSi.
  - injection Hi as <-. apply Hhd. now rewrite head_lookup.
  - now apply (Hl i).
Qed.

Lemma eachHop_app {A} (R : A -> A -> Prop) l1 l2 :
  eachHop R l1 -> eachHop R l2 ->
  (forall x y, last l1 = Some x -> head l2 = Some y -> R x y) ->
  eachHop R (l1 ++ l2).
Proof.
  intros H1 H2 Hjoin i x y Hi HSi.
  destruct (decide (S i < length l1)%nat) as [Hlt|Hge].
  - rewrite lookup_app_l in Hi by lia. rewrite lookup_app_l in HSi by lia.
    now apply (H1 i).
  - destruct (decide (i < length l1)%nat) as [Hlast|Hin2].
    + rewrite lookup_app_l in Hi by lia. rewrite lookup_app_r in HSi by lia.
      apply Hjoin.
      * rewrite last_lookup. now replace (pred (length l1)) with i by lia.
      * rewrite head_lookup. now replace (S i - length l1)%nat with 0%nat in HSi by lia.
    + rewrite lookup_app_r in Hi by lia. rewrite lookup_app_r in HSi by lia.
      apply (H2 (i - length l1)%nat); [assumption|].
      now replace (S (i - length l1)) with (S i - length l1)%nat by lia.
Qed.

Lemma eachHop_reverse {A} (R : A -> A -> Prop) l :
  eachHop R l -> eachHop (flip R) (reverse l).
Proof.
  intros Hl i x y Hi HSi.
  apply reverse_lookup_Some in Hi. destruct Hi as [Hi _].
  apply reverse_lookup_Some in HSi. destruct HSi as [HSi Hlt].
  apply (Hl (length l - S (S i))%nat); [assumption|].
  now replace (S (length l - S (S i))) with (length l - S i)%nat by lia.
Qed.

Lemma eachHop_fmap {A B} (f : A -> B) (R : B -> B -> Prop) l :
  eachHop (fun x y => R (f x) (f y)) l -> eachHop R (f <$> l).
Proof.
  intros Hl i x y Hi HSi. rewrite list_lookup_fmap in Hi, HSi.
  destruct (l !! i) as [u|] eqn:Hu; [|discriminate].
  destruct (l !! S i) as [v|] eqn:Hv; [|discriminate].
  injection Hi as <-. injection HSi as <-. now apply (Hl i).
Qed.

Lemma eachHop_impl {A} (R S : A -> A -> Prop) l :
  (forall x y, R x y -> S x y) -> eachHop R l -> eachHop S l.
Proof. intros HRS Hl i x y Hi HSi. apply HRS. now apply (Hl i). Qed.

(** ** The trees of the two sides *)

Section Trees.

Context (P : Providers).

(** The co-stars an expansion returns are co-stars by the provider's data,
    also when the filmography came from the cache. *)
Lemma getCoStars_sound x w coStars w' :
  cacheSound P w ->
  getCoStars P x w = (Ok coStars, w') ->
  cacheSound P w' /\
  forall c info, (c, info) ∈ coStars -> coStarVia P x c info.
Proof.
  intros Hsound Hrun. unfold getCoStars in Hrun.
  apply bind_inv_ok in Hrun. destruct Hrun as (fg & w1 & Hfg & Hrun).
  assert (Hfg' : getPersonCredits P x = Some fg /\ cacheSound P w1).
  { destruct (filmographyCache w !! x) as [credits|] eqn:Hc.
    - rewrite (getFilmography_hit P x credits w Hc) in Hfg.
      injection Hfg as <- <-. split; [now apply Hsound|assumption].
    - destruct (getPersonCredits P x) as [credits|] eqn:Hp.
      + rewrite (getFilmography_miss P x credits w Hc Hp) in Hfg.
        injection Hfg as <- <-. split; [reflexivity|].
        intros y c Hy. cbn in Hy. destruct (decide (x = y)) as [->|Hne].
        * rewrite lookup_insert_eq in Hy. congruence.
        * rewrite lookup_insert_ne in Hy by assumption. now apply Hsound.
      + rewrite (getFilmography_fail P x w Hc Hp) in Hfg. discriminate. }
  destruct Hfg' as (Hp & Hsound1).
  destruct (addMovies_spec P x (topMovies fg) [] w1)
    as (res & Hres & _ & Hentries & _).
  rewrite Hres in Hrun. injection Hrun as <- <-. split.
  - intros y c Hy. cbn in Hy. now apply Hsound1.
  - intros c info Hin.
    destruct (Hentries c info Hin)
      as [Hnil|(_ & Hne & i & movie & Hi & Hinfo & Hcast & _)].
    { now apply elem_of_nil in Hnil. }
    split; [assumption|]. exists fg, movie. repeat split; auto.
    eapply list_elem_of_lookup_2. exact Hi.
Qed.

Lemma nodeOk_mono root d d' n : d <= d' -> nodeOk P root d n -> nodeOk P root d' n.
Proof. intros Hd (Hlen & Hlast & Hhops). repeat split; auto. lia. Qed.

(** A new child of a node that is one level up is a node of the tree. *)
Lemma nodeOk_child root d current c info :
  nodeOk P root (d - 1) current ->
  coStarVia P (actorId current) c info ->
  nodeOk P root d {| actorId := c; parent := Some current;
                     node_movie := Some (nodeMovieOf info) |}.
Proof.
  intros (Hlen & Hlast & Hhops) Hvia.
  change (walkUp {| actorId := c; parent := Some current;
                    node_movie := Some (nodeMovieOf info) |})
    with ({| pe_actorId := c; pe_movie := Some (nodeMovieOf info) |} :: walkUp current).
  unfold nodeOk.
  change (walkUp {| actorId := c; parent := Some current;
                    node_movie := Some (nodeMovieOf info) |})
    with ({| pe_actorId := c; pe_movie := Some (nodeMovieOf info) |} :: walkUp current).
  split; [cbn [length]; lia|]. split.
  - rewrite walkUp_unfold in Hlast |- *. now rewrite last_cons_cons.
  - apply eachHop_cons; [|assumption].
    intros e He. rewrite walkUp_unfold in He. cbn in He. injection He as <-.
    exists info. split; [exact Hvia|reflexivity].
Qed.

Lemma scanCoStarsA_tracked a b n current coStars st w :
  (forall c info, (c, info) ∈ coStars -> coStarVia P (actorId current) c info) ->
  nodeOk P a (degreesFromA st - 1) current ->
  trackedLevel P a b n st w ->
  trackedLevel P a b n (scanCoStarsA current coStars st) w.
Proof.
  revert st. induction coStars as [|[c info] rest IH]; intros st Hcs Hcur Hst;
    [exact Hst|].
  assert (Hvia : coStarVia P (actorId current) c info)
    by (apply Hcs; apply elem_of_cons; now left).
  assert (Hrest : forall c' info', (c', info') ∈ rest ->
                                   coStarVia P (actorId current) c' info')
    by (intros; apply Hcs; apply elem_of_cons; now right).
  destruct Hst as ((Hsound & HA & HB) & Hn & Hfirst).
  assert (HA' : forall k nd,
             <[c := {| actorId := c; parent := Some current;
                       node_movie := Some (nodeMovieOf info) |}]>
               (visitedFromA st) !! k = Some nd ->
             nodeOk P a (degreesFromA st) nd).
  { intros k nd Hk. destruct (decide (c = k)) as [->|Hne].
    - rewrite lookup_insert_eq in Hk. injection Hk as <-.
      now apply nodeOk_child.
    - rewrite lookup_insert_ne in Hk by assumption. now apply (HA k). }
  cbn [scanCoStarsA].
  destruct (visitedFromB st !! c) as [nodeB|].
  - split; [split; [assumption|split; assumption]|split; assumption].
  - destruct (visitedFromA st !! c) as [nodeA|].
    + apply IH; [assumption..|].
      split; [split; [assumption|split; assumption]|split; assumption].
    + apply IH; [assumption..|].
      split; [split; [assumption|split; assumption]|].
      cbn [queueA degreesFromA]. split.
      * rewrite length_app. lia.
      * now rewrite take_app_le by assumption.
Qed.

(** A level of the A side, from what its scans keep: [R n] holds with [n]
    nodes of the level left, [Q] when the level is over or the sides met. *)
Lemma levelLoopA_inv (R : nat -> SearchState -> World -> Prop)
    (Q : SearchState -> World -> Prop) :
  (forall st w, R 0%nat st w -> Q st w) ->
  (forall n st w current coStars w',
      R (S n) st w -> meetingPoint st = None ->
      head (queueA st) = Some current ->
      getCoStars P (actorId current) w = (Ok coStars, w') ->
      Q (scanCoStarsA current coStars (shiftA st)) w' /\
      (meetingPoint (scanCoStarsA current coStars (shiftA st)) = None ->
       R n (scanCoStarsA current coStars (shiftA st)) w')) ->
  forall n st w st' w',
    R n st w -> meetingPoint st = None ->
    levelLoopA P n st w = (Ok st', w') -> Q st' w'.
Proof.
  intros Hend Hstep n. induction n as [|n IH]; intros st w st' w' HR Hmp Hrun.
  - cbn in Hrun. injection Hrun as <- <-. now apply Hend.
  - cbn [levelLoopA] in Hrun.
    destruct (queueA st) as [|current rest] eqn:Hq; [discriminate|].
    apply bind_inv_ok in Hrun. destruct Hrun as (coStars & w1 & Hco & Hrun).
    destruct (Hstep n st w current coStars w1 HR Hmp) as (HQ & HR1);
      [now rewrite Hq|exact Hco|].
    unfold shiftA in HQ, HR1. rewrite Hq in HQ, HR1. cbn [tail] in HQ, HR1.
    destruct (meetingPoint (scanCoStarsA current coStars _)) as [mp|] eqn:Hmp1.
    + injection Hrun as <- <-. exact HQ.
    + eapply IH; [apply HR1; reflexivity|exact Hmp1|exact Hrun].
Qed.

Lemma expandA_tracked a b st w st' w' :
  running st -> tracked P a b st w ->
  expandA P st w = (Ok st', w') ->
  good st' /\ tracked P a b st' w'.
Proof.
  intros Hrun Htr Hexp. unfold expandA in Hexp.
  pose proof Hrun as (Hmp & HwA & HwB & Hdis & HrA & HrB).
  set (R := fun (n : nat) s w0 => running s /\ trackedLevel P a b n s w0).
  set (Q := fun s w0 => good s /\ tracked P a b s w0).
  assert (Hend : forall s w0, R 0%nat s w0 -> Q s w0).
  { intros s w0 (Hs & Hlevel & _). split; [now apply running_good|assumption]. }
  assert (Hstep : forall n s w0 current coStars w1,
             R (S n) s w0 -> meetingPoint s = None ->
             head (queueA s) = Some current ->
             getCoStars P (actorId current) w0 = (Ok coStars, w1) ->
             Q (scanCoStarsA current coStars (shiftA s)) w1 /\
             (meetingPoint (scanCoStarsA current coStars (shiftA s)) = None ->
              R n (scanCoStarsA current coStars (shiftA s)) w1)).
  { intros n s w0 current coStars w1 (Hs & (Hsound & HA & HB) & Hn & Hfirst)
      Hmps Hhead Hco.
    destruct (queueA s) as [|nd q] eqn:Hq; [discriminate|].
    cbn in Hhead. injection Hhead as ->.
    pose proof Hs as (_ & HwAs & HwBs & Hdiss & HrAs & HrBs).
    assert (Hreg : visitedFromA s !! actorId current = Some current)
      by (apply HrAs; rewrite Hq; apply elem_of_cons; now left).
    destruct (getCoStars_sound _ _ _ _ Hsound Hco) as (Hsound1 & Hcs).
    assert (Hshift : running (shiftA s)).
    { unfold running, shiftA. cbn. rewrite Hq. cbn.
      split; [exact Hmps|]. split; [exact HwAs|]. split; [exact HwBs|].
      split; [exact Hdiss|]. split; [|exact HrBs].
      intros n' Hn'. apply HrAs. rewrite Hq. apply elem_of_cons. now right. }
    assert (Hgood : good (scanCoStarsA current coStars (shiftA s)))
      by (now apply scanCoStarsA_good).
    assert (Hlevel : trackedLevel P a b n (scanCoStarsA current coStars (shiftA s)) w1).
    { apply scanCoStarsA_tracked; [exact Hcs| |].
      - cbn [shiftA degreesFromA]. destruct (HA _ _ Hreg) as (Hlen & Hlast & Hhops).
        cbn [take] in Hfirst.
        apply Forall_cons in Hfirst. destruct Hfirst as (Hcur & _).
        split; [lia|]. split; assumption.
      - unfold trackedLevel, tracked, shiftA. cbn. rewrite Hq. cbn [tail].
        cbn in Hn. cbn [take] in Hfirst.
        apply Forall_cons in Hfirst. destruct Hfirst as (_ & Hfirst).
        split; [split; [assumption|split; assumption]|]. split; [lia|assumption]. }
    split.
    - split; [assumption|apply Hlevel].
    - intros Hmp1. split; [now apply good_running|assumption]. }
  refine (levelLoopA_inv R Q Hend Hstep _ _ _ _ _ _ _ Hexp); [|exact Hmp].
  split.
  - split; [exact Hmp|]. repeat (split; [assumption|]). assumption.
  - destruct Htr as (Hsound & HA & HB).
    unfold trackedLevel, tracked. cbn.
    split; [split; [assumption|split; [|assumption]]|split; [lia|]].
    + intros k nd Hk. eapply nodeOk_mono; [|now apply (HA k)]. lia.
    + rewrite take_ge by lia. apply Forall_forall. intros nd Hnd.
      destruct (HA _ _ (HrA nd Hnd)) as (Hlen & _). lia.
Qed.

Lemma swapState_tracked a b st w :
  tracked P a b st w -> tracked P b a (swapState st) w.
Proof. intros (Hsound & HA & HB). split; [assumption|split; assumption]. Qed.

Lemma expandB_tracked a b st w st' w' :
  running st -> tracked P a b st w ->
  expandB P st w = (Ok st', w') ->
  good st' /\ tracked P a b st' w'.
Proof.
  intros Hrun Htr Hexp. rewrite expandB_swap in Hexp.
  destruct (expandA P (swapState st) w) as [[s|e|] w1] eqn:HA; try discriminate.
  cbn in Hexp. injection Hexp as <- <-.
  destruct (expandA_tracked b a (swapState st) w s w1) as (Hgood & Htr').
  - now apply swapState_running.
  - now apply swapState_tracked.
  - exact HA.
  - split; [now apply swapState_good|now apply swapState_tracked].
Qed.

Lemma loopBody_tracked a b maxDeg st w flow st' w' :
  running st -> tracked P a b st w ->
  loopBody P maxDeg st w = (Ok (flow, st'), w') ->
  tracked P a b st' w'.
Proof.
  intros Hrun Htr Hbody. unfold loopBody in Hbody.
  destruct (maxDeg <=? degreesFromA st + degreesFromB st).
  { injection Hbody as <- <- <-. assumption. }
  pose proof Hrun as (Hmp & _).
  apply expandBothSides_inv in Hbody; [|assumption].
  destruct Hbody as (stA & wA & HA & HB).
  assert (HstA : good stA /\ tracked P a b stA wA).
  { destruct (nonEmpty (queueA st) && (degreesFromA st <=? degreesFromB st)).
    - eapply expandA_tracked; eauto.
    - destruct HA as [-> ->]. split; [now apply running_good|assumption]. }
  destruct HstA as (HgA & HtrA).
  destruct (hasMeetingPoint stA) eqn:HmA.
  - destruct HB as (-> & -> & _). assumption.
  - apply hasMeetingPoint_false in HmA. destruct (nonEmpty (queueB stA)).
    + destruct HB as (HB & _).
      eapply expandB_tracked; [| |exact HB]; [now apply good_running|assumption].
    + destruct HB as (-> & -> & _). assumption.
Qed.

Lemma searchLoop_tracked a b fuel maxDeg st w st' w' :
  running st -> tracked P a b st w ->
  searchLoop P fuel maxDeg st w = (Ok st', w') ->
  tracked P a b st' w'.
Proof.
  revert st w. induction fuel as [|fuel IH]; intros st w Hrun Htr Hloop.
  - discriminate.
  - cbn [searchLoop] in Hloop.
    destruct (nonEmpty (queueA st) || nonEmpty (queueB st)).
    + apply bind_inv_ok in Hloop. destruct Hloop as ([flow s] & w1 & Hbody & Hrest).
      pose proof (loopBody_tracked a b _ _ _ _ _ _ Hrun Htr Hbody) as Htr1.
      destruct (loopBody_good P _ _ _ _ _ _ Hrun Hbody) as (Hgood & Hcont).
      destruct flow.
      * eapply IH; [|exact Htr1|exact Hrest]. apply good_running; auto.
      * injection Hrest as <- <-. exact Htr1.
    + injection Hloop as <- <-. assumption.
Qed.

Lemma initialState_tracked a b t :
  tracked P a b (initialState a b) {| filmographyCache := ∅; trace := t |}.
Proof.
  assert (Hroot : forall x k n,
            (<[x := {| actorId := x; parent := None; node_movie := None |}]> ∅
               : gmap Z BFSNode) !! k = Some n ->
            nodeOk P x 0 n).
  { intros x k n Hk. destruct (decide (x = k)) as [->|Hne].
    - rewrite lookup_insert_eq in Hk. injection Hk as <-.
      split; [cbn; lia|]. split; [reflexivity|].
      intros [|i] u v Hi HSi; cbn in HSi; discriminate.
    - rewrite lookup_insert_ne, lookup_empty in Hk by assumption. discriminate. }
  split; [|split].
  - intros x c Hx. cbn in Hx. now rewrite lookup_empty in Hx.
  - apply Hroot.
  - apply Hroot.
Qed.

(** The state in which a successful search left its loop. *)
Lemma success_state fuel a b options w r w' :
  a <> b ->
  findConnection P fuel a b options w = (Ok (Some r), w') ->
  exists st mp w1 nA nB,
    searchLoop P fuel (default 6 (maxDegrees options)) (initialState a b)
      {| filmographyCache := ∅; trace := trace w |} = (Ok st, w1) /\
    meetingPoint st = Some mp /\
    path r = finalPathOf P (combinedPath st mp) /\
    degrees r = Z.of_nat (length (path r)) - 1 /\
    combinedPath st mp = reverse (walkUp nA) ++ walkUpFrom (parent nB) /\
    actorId nA = mp_actorId mp /\ actorId nB = mp_actorId mp /\
    nodeOk P a (degreesFromA st) nA /\ nodeOk P b (degreesFromB st) nB.
Proof.
  intros Hne Hrun.
  destruct (findConnection_success P fuel a b options w r w' Hne Hrun)
    as (st & mp & w1 & infoMap & Hloop & Hmp & _ & Hpath & Hdeg & _).
  assert (Hgood : good st).
  { eapply searchLoop_good; [|exact Hloop]. now apply initialState_running. }
  assert (Htr : tracked P a b st w1).
  { eapply searchLoop_tracked; [| |exact Hloop].
    - now apply initialState_running.
    - apply initialState_tracked. }
  unfold good in Hgood. rewrite Hmp in Hgood.
  destruct Hgood as (nA & nB & HA & HB & HidA & HidB & _).
  destruct Htr as (_ & HokA & HokB).
  exists st, mp, w1, nA, nB. repeat (split; [assumption|]).
  split.
  - unfold combinedPath, pathFromA, pathFromB. now rewrite HA, HB.
  - repeat (split; [first [assumption|now apply (HokA _ _ HA)]|]).
    now apply (HokB _ _ HB).
Qed.

End Trees.

(** ** How far the counters and the path get *)

Section Bounds.

Context (P : Providers).

(** An exhausted queue stays exhausted, and the B side then stands still. *)
Lemma loopBody_empty_queues maxDeg st w flow st' w' :
  meetingPoint st = None ->
  loopBody P maxDeg st w = (Ok (flow, st'), w') ->
  (queueA st = [] -> queueA st' = []) /\
  (queueB st = [] -> queueB st' = []).
Proof.
  intros Hmp Hbody. unfold loopBody in Hbody.
  destruct (maxDeg <=? degreesFromA st + degreesFromB st).
  { injection Hbody as <- <- <-. auto. }
  apply expandBothSides_inv in Hbody; [|assumption].
  destruct Hbody as (stA & wA & HA & HB).
  assert (HstA : (queueA st = [] -> stA = st) /\ queueB stA = queueB st).
  { destruct (nonEmpty (queueA st) && (degreesFromA st <=? degreesFromB st)) eqn:Hc.
    - split.
      + intros Hq. rewrite Hq in Hc. discriminate.
      + now apply expandA_other_side in HA.
    - destruct HA as [-> _]. auto. }
  destruct HstA as (HqA & HqB).
  destruct (hasMeetingPoint stA) eqn:HmA.
  - destruct HB as (-> & _). split; intros Hq; [now rewrite (HqA Hq)|congruence].
  - apply hasMeetingPoint_false in HmA.
    destruct (nonEmpty (queueB stA)) eqn:HnB.
    + destruct HB as (HB & _). apply expandB_other_side in HB; [|assumption].
      destruct HB as (_ & HqA' & _). split.
      * intros Hq. rewrite HqA', (HqA Hq). exact Hq.
      * intros Hq. rewrite HqB, Hq in HnB. discriminate.
    + destruct HB as (-> & _). split; intros Hq; [now rewrite (HqA Hq)|congruence].
Qed.

Lemma loopBody_paced maxDeg st w flow st' w' :
  meetingPoint st = None ->
  paced st -> bounded maxDeg st ->
  loopBody P maxDeg st w = (Ok (flow, st'), w') ->
  bounded maxDeg st' /\ (flow = Continue -> paced st').
Proof.
  intros Hmp Hpaced (Hb1 & Hb2) Hbody.
  destruct (Z_lt_le_dec (degreesFromA st + degreesFromB st) maxDeg) as [Hlt|Hge].
  2:{ unfold loopBody in Hbody.
      replace (maxDeg <=? degreesFromA st + degreesFromB st) with true in Hbody by lia.
      injection Hbody as <- <- <-. split; [split; assumption|discriminate]. }
  destruct (loopBody_empty_queues _ _ _ _ _ _ Hmp Hbody) as (HqA & HqB).
  destruct (loopBody_degrees P _ _ _ _ _ _ Hmp Hlt Hbody)
    as (HdA & HdB & HdBq & HdBn & Hflow).
  assert (HcA : nonEmpty (queueA st) && (degreesFromA st <=? degreesFromB st) = true \/
                nonEmpty (queueA st) && (degreesFromA st <=? degreesFromB st) = false)
    by (destruct (_ && _); auto).
  assert (Heven : Z.even maxDeg = true ->
                  degreesFromA st = degreesFromB st ->
                  degreesFromA st + degreesFromB st + 2 <= maxDeg).
  { intros He Heq. apply Z.even_spec in He. destruct He as [k ->]. lia. }
  split.
  - split.
    + destruct HcA as [HcA|HcA]; rewrite HcA in HdA; lia.
    + intros He. specialize (Hb2 He).
      destruct Hpaced as [Heq|[(Hahead & Hq)|(Hq & Hbehind)]].
      * specialize (Heven He Heq).
        destruct HcA as [HcA|HcA]; rewrite HcA in HdA; lia.
      * assert (degreesFromB st' = degreesFromB st).
        { destruct HdB as [|HdB]; [assumption|].
          apply HdBq in HdB. rewrite Hq in HdB. discriminate. }
        replace (degreesFromA st <=? degreesFromB st) with false in HdA by lia.
        rewrite andb_false_r in HdA. lia.
      * rewrite Hq in HdA. cbn in HdA. lia.
  - intros ->.
    assert (Hmp' : meetingPoint st' = None).
    { destruct (meetingPoint st') eqn:E; [|reflexivity].
      assert (Continue = Break) by (apply Hflow; discriminate). discriminate. }
    specialize (HdBn Hmp'). unfold paced.
    destruct Hpaced as [Heq|[(Hahead & Hq)|(Hq & Hbehind)]].
    + destruct (queueA st) as [|nd qa] eqn:EA.
      * cbn in HdA. right. right. split; [now apply HqA|].
        destruct (nonEmpty (queueB st)); lia.
      * replace (degreesFromA st <=? degreesFromB st) with true in HdA by lia.
        cbn in HdA. destruct (queueB st) as [|nd' qb] eqn:EB.
        -- cbn in HdBn. right. left. split; [lia|now apply HqB].
        -- cbn in HdBn. left. lia.
    + right. left. rewrite Hq in HdBn. cbn in HdBn.
      replace (degreesFromA st <=? degreesFromB st) with false in HdA by lia.
      rewrite andb_false_r in HdA. split; [lia|now apply HqB].
    + right. right. rewrite Hq in HdA. cbn in HdA. split; [now apply HqA|].
      destruct (nonEmpty (queueB st)); lia.
Qed.

Lemma searchLoop_bounded fuel maxDeg st w st' w' :
  meetingPoint st = None ->
  paced st -> bounded maxDeg st ->
  searchLoop P fuel maxDeg st w = (Ok st', w') ->
  bounded maxDeg st'.
Proof.
  revert st w. induction fuel as [|fuel IH]; intros st w Hmp Hpaced Hb Hloop.
  - discriminate.
  - cbn [searchLoop] in Hloop.
    destruct (nonEmpty (queueA st) || nonEmpty (queueB st)).
    + apply bind_inv_ok in Hloop. destruct Hloop as ([flow s] & w1 & Hbody & Hrest).
      destruct (loopBody_paced _ _ _ _ _ _ Hmp Hpaced Hb Hbody) as (Hb' & Hp').
      destruct flow.
      * eapply IH; [|now apply Hp'|exact Hb'|exact Hrest].
        destruct (Z_lt_le_dec (degreesFromA st + degreesFromB st) maxDeg) as [Hlt|Hge].
        -- destruct (loopBody_degrees P _ _ _ _ _ _ Hmp Hlt Hbody)
             as (_ & _ & _ & _ & Hflow).
           destruct (meetingPoint s) eqn:E; [|reflexivity].
           assert (Continue = Break) by (apply Hflow; discriminate). discriminate.
        -- unfold loopBody in Hbody.
           replace (maxDeg <=? degreesFromA st + degreesFromB st) with true
             in Hbody by lia.
           discriminate.
      * injection Hrest as <- <-. exact Hb'.
    + injection Hloop as <- <-. exact Hb.
Qed.

End Bounds.

(** ** The returned path, end to end *)

Section Combined.

Context (P : Providers) (a b c dA dB : Z) (nA nB : BFSNode).
Hypothesis nA_ok : nodeOk P a dA nA.
Hypothesis nB_ok : nodeOk P b dB nB.
Hypothesis nA_id : actorId nA = c.
Hypothesis nB_id : actorId nB = c.

Let combined : list PathEntry := reverse (walkUp nA) ++ walkUpFrom (parent nB).

Lemma walkUp_length n : (1 <= length (walkUp n))%nat.
Proof. rewrite walkUp_unfold. cbn. lia. Qed.

Lemma combined_length :
  length combined = (length (walkUp nA) + length (walkUp nB) - 1)%nat.
Proof.
  unfold combined. rewrite length_app, length_reverse, (walkUp_unfold nB). cbn. lia.
Qed.

Lemma combined_lookup_A i :
  (i < length (walkUp nA))%nat ->
  combined !! i = walkUp nA !! (length (walkUp nA) - S i)%nat.
Proof.
  intros Hi. unfold combined.
  rewrite lookup_app_l by (rewrite length_reverse; lia).
  now apply reverse_lookup.
Qed.

Lemma combined_lookup_B i :
  (length (walkUp nA) <= i)%nat ->
  combined !! i = walkUp nB !! S (i - length (walkUp nA)).
Proof.
  intros Hi. unfold combined.
  rewrite lookup_app_r by (rewrite length_reverse; lia).
  rewrite length_reverse, (walkUp_unfold nB). reflexivity.
Qed.

Lemma combined_head :
  head combined = Some {| pe_actorId := a; pe_movie := None |}.
Proof.
  destruct nA_ok as (_ & Hlast & _). pose proof (walkUp_length nA).
  rewrite head_lookup, combined_lookup_A by lia.
  rewrite last_lookup in Hlast.
  now replace (length (walkUp nA) - 1)%nat with (pred (length (walkUp nA))) by lia.
Qed.

Lemma combined_meeting :
  (pe_actorId <$> combined) !! pred (length (walkUp nA)) = Some c.
Proof.
  pose proof (walkUp_length nA).
  rewrite list_lookup_fmap, combined_lookup_A by lia.
  replace (length (walkUp nA) - S (pred (length (walkUp nA))))%nat with 0%nat by lia.
  rewrite walkUp_unfold. cbn. now rewrite nA_id.
Qed.

Lemma combined_last : last (pe_actorId <$> combined) = Some b.
Proof.
  destruct nB_ok as (_ & Hlast & _). rewrite fmap_last.
  unfold combined. rewrite last_app.
  rewrite (walkUp_unfold nB), last_cons in Hlast.
  destruct (last (walkUpFrom (parent nB))) as [e|] eqn:HB.
  - injection Hlast as ->. reflexivity.
  - injection Hlast as Hid _. rewrite last_reverse, walkUp_unfold. cbn.
    now rewrite nA_id, <- nB_id, Hid.
Qed.

Lemma combined_hops :
  eachHop (fun e1 e2 => hop P (pe_actorId e1) (pe_actorId e2)) combined.
Proof.
  destruct nA_ok as (_ & _ & HhopsA). destruct nB_ok as (_ & _ & HhopsB).
  apply eachHop_app.
  - apply eachHop_reverse in HhopsA. eapply eachHop_impl; [|exact HhopsA].
    intros e1 e2 (info & Hvia & _). exists info. now left.
  - intros i e1 e2 Hi HSi. rewrite (walkUp_unfold nB) in HhopsB.
    destruct (HhopsB (S i) e1 e2 Hi HSi) as (info & Hvia & _).
    exists info. now right.
  - intros e1 e2 He1 He2. rewrite last_reverse, walkUp_unfold in He1.
    cbn in He1. injection He1 as <-. cbn.
    rewrite (walkUp_unfold nB) in HhopsB. rewrite head_lookup in He2.
    destruct (HhopsB 0%nat _ e2 eq_refl He2) as (info & Hvia & _).
    cbn in Hvia. exists info. right. now rewrite nA_id, <- nB_id.
Qed.

(** On the A side an entry follows its parent, and carries the movie of
    the hop between them. *)
Lemma combined_A_side i e e' :
  (S i < length (walkUp nA))%nat ->
  combined !! i = Some e -> combined !! S i = Some e' ->
  entryLinked P e' e.
Proof.
  intros Hi He He'. destruct nA_ok as (_ & _ & Hhops).
  rewrite combined_lookup_A in He, He' by lia.
  apply (Hhops (length (walkUp nA) - S (S i))%nat); [assumption|].
  now replace (S (length (walkUp nA) - S (S i))) with (length (walkUp nA) - S i)%nat
    by lia.
Qed.

(** On the B side an entry precedes its parent, and carries the movie of
    the hop between them. *)
Lemma combined_B_side i e e' :
  (length (walkUp nA) <= i)%nat ->
  combined !! i = Some e -> combined !! S i = Some e' ->
  entryLinked P e e'.
Proof.
  intros Hi He He'. destruct nB_ok as (_ & _ & Hhops).
  rewrite combined_lookup_B in He, He' by lia.
  apply (Hhops (S (i - length (walkUp nA)))); [assumption|].
  now replace (S (S (i - length (walkUp nA)))) with (S (S i - length (walkUp nA)))
    by lia.
Qed.

(** Past the A side, the last entry is the root of the B side. *)
Lemma combined_B_root i e :
  (length (walkUp nA) <= i)%nat -> S i = length combined ->
  combined !! i = Some e -> pe_movie e = None.
Proof.
  intros Hi Hlen He. destruct nB_ok as (_ & Hlast & _).
  rewrite combined_lookup_B in He by lia. rewrite last_lookup in Hlast.
  rewrite combined_length in Hlen.
  replace (S (i - length (walkUp nA))) with (pred (length (walkUp nB))) in He by lia.
  rewrite Hlast in He. now injection He as <-.
Qed.

Lemma combined_depth :
  Z.of_nat (length combined) - 1 <= dA + dB.
Proof.
  destruct nA_ok as (HlenA & _). destruct nB_ok as (HlenB & _).
  pose proof (walkUp_length nA). pose proof (walkUp_length nB).
  rewrite combined_length. lia.
Qed.

End Combined.

Section ReturnedPath.

Context (P : Providers).

Lemma finalPathOf_lookup combined i s :
  finalPathOf P combined !! i = Some s ->
  exists e,
    combined !! i = Some e /\
    actor s = actorOf P (pe_actorId e) /\
    movie s = toPathMovie <$> (combined !! S i ≫= pe_movie).
Proof.
  unfold finalPathOf. rewrite list_lookup_imap.
  destruct (combined !! i) as [e|]; [|discriminate].
  cbn. intros [= <-]. exists e. auto.
Qed.

Lemma short_list_ends {A} (l : list A) : (length l <= 1)%nat -> head l = last l.
Proof. destruct l as [|x [|y l]]; cbn; try reflexivity. lia. Qed.

(** The ends of the path of a successful search, and its length. *)
Lemma success_ends fuel a b options w r w' :
  a <> b ->
  findConnection P fuel a b options w = (Ok (Some r), w') ->
  head (segmentIds (path r)) = Some a /\
  last (segmentIds (path r)) = Some b /\
  1 <= degrees r.
Proof.
  intros Hne Hrun.
  destruct (success_state P fuel a b options w r w' Hne Hrun)
    as (st & mp & w1 & nA & nB & _ & _ & Hpath & Hdeg & Hcomb & HidA & HidB & HokA & HokB).
  assert (Hids : segmentIds (path r) =
                 pe_actorId <$> (reverse (walkUp nA) ++ walkUpFrom (parent nB)))
    by (now rewrite Hpath, segmentIds_finalPathOf, Hcomb).
  assert (Hhead : head (segmentIds (path r)) = Some a).
  { rewrite Hids, head_lookup, list_lookup_fmap, <- head_lookup.
    now rewrite (combined_head P a (degreesFromA st) nA nB HokA). }
  assert (Hlast : last (segmentIds (path r)) = Some b).
  { rewrite Hids.
    exact (combined_last P b (mp_actorId mp) (degreesFromB st) nA nB HokB HidA HidB). }
  repeat (split; [assumption|]).
  assert (Hlen : (2 <= length (segmentIds (path r)))%nat).
  { destruct (decide (length (segmentIds (path r)) <= 1)%nat) as [Hshort|]; [|lia].
    apply short_list_ends in Hshort. congruence. }
  unfold segmentIds in Hlen. rewrite length_fmap in Hlen. lia.
Qed.

End ReturnedPath.

(** X6: the path of a successful search between two different actors
    starts with actor A and ends with actor B, so it has at least one
    degree. *)
Theorem path_runs_from_A_to_B (P : Providers) (fuel : nat) (a b : Z)
    (options : Options) (w : World) (r : ConnectionResult) (w' : World) :
  a <> b ->
  findConnection P fuel a b options w = (Ok (Some r), w') ->
  head (segmentIds (path r)) = Some a /\
  last (segmentIds (path r)) = Some b /\
  1 <= degrees r.
Proof. apply success_ends. Qed.

Lemma path_runs_witness :
  head (segmentIds (path twoHopResult)) = Some 1 /\
  last (segmentIds (path twoHopResult)) = Some 2 /\
  1 <= degrees twoHopResult.
Proof.
  apply (path_runs_from_A_to_B twoHop 3 1 2 {| maxDegrees := None |} emptyWorld
           twoHopResult
           (findConnection twoHop 3 1 2 {| maxDegrees := None |} emptyWorld).2).
  - discriminate.
  - vm_compute. reflexivity.
Defined.

(** X7: a returned path has at most [maxDegrees + 1] degrees, and at most
    [maxDegrees] when the bound is even; with the default bound, at most 6. *)
Theorem degrees_within_bound (P : Providers) (fuel : nat) (a b : Z)
    (options : Options) (w : World) (r : ConnectionResult) (w' : World) :
  a <> b ->
  findConnection P fuel a b options w = (Ok (Some r), w') ->
  degrees r <= default 6 (maxDegrees options) + 1 /\
  (Z.even (default 6 (maxDegrees options)) = true ->
   degrees r <= default 6 (maxDegrees options)) /\
  (maxDegrees options = None -> degrees r <= 6).
Proof.
  intros Hne Hrun.
  destruct (success_ends P fuel a b options w r w' Hne Hrun) as (_ & _ & Hpos).
  destruct (success_state P fuel a b options w r w' Hne Hrun)
    as (st & mp & w1 & nA & nB & Hloop & _ & Hpath & Hdeg & Hcomb & HidA & HidB
        & HokA & HokB).
  assert (Hb : bounded (default 6 (maxDegrees options)) st).
  { eapply searchLoop_bounded; [| | |exact Hloop].
    - reflexivity.
    - left. reflexivity.
    - split; cbn; intros; lia. }
  assert (Hdepth : degrees r <= degreesFromA st + degreesFromB st).
  { rewrite Hdeg, Hpath. unfold finalPathOf. rewrite length_imap, Hcomb.
    exact (combined_depth P a b (degreesFromA st) (degreesFromB st) nA nB HokA HokB). }
  destruct Hb as (Hb1 & Hb2).
  assert (Heven : Z.even (default 6 (maxDegrees options)) = true ->
                  degrees r <= default 6 (maxDegrees options))
    by (intros He; specialize (Hb2 He); lia).
  split; [lia|]. split; [exact Heven|].
  intros Hnone. rewrite Hnone in Heven. now apply Heven.
Qed.

Lemma degrees_within_bound_witness :
  degrees twoHopResult <= default 6 (maxDegrees {| maxDegrees := Some 2 |}) + 1 /\
  (Z.even (default 6 (maxDegrees {| maxDegrees := Some 2 |})) = true ->
   degrees twoHopResult <= default 6 (maxDegrees {| maxDegrees := Some 2 |})) /\
  (maxDegrees {| maxDegrees := Some 2 |} = None -> degrees twoHopResult <= 6).
Proof.
  apply (degrees_within_bound twoHop 3 1 2 {| maxDegrees := Some 2 |} emptyWorld
           twoHopResult
           (findConnection twoHop 3 1 2 {| maxDegrees := Some 2 |} emptyWorld).2).
  - discriminate.
  - vm_compute. reflexivity.
Defined.

(** X8: every two neighbours on a returned path share a movie: one of them
    has, among their top movies, one whose cast fetch succeeded and bills the
    other among its first 30. *)
Theorem path_hops_share_a_movie (P : Providers) (fuel : nat) (a b : Z)
    (options : Options) (w : World) (r : ConnectionResult) (w' : World) :
  a <> b ->
  findConnection P fuel a b options w = (Ok (Some r), w') ->
  eachHop (hop P) (segmentIds (path r)).
Proof.
  intros Hne Hrun.
  destruct (success_state P fuel a b options w r w' Hne Hrun)
    as (st & mp & w1 & nA & nB & _ & _ & Hpath & _ & Hcomb & HidA & HidB & HokA & HokB).
  rewrite Hpath, segmentIds_finalPathOf, Hcomb. apply eachHop_fmap.
  exact (combined_hops P a b (mp_actorId mp) _ _ nA nB HokA HokB HidA HidB).
Qed.

Lemma path_hops_witness : eachHop (hop twoHop) (segmentIds (path twoHopResult)).
Proof.
  apply (path_hops_share_a_movie twoHop 3 1 2 {| maxDegrees := None |} emptyWorld
           twoHopResult
           (findConnection twoHop 3 1 2 {| maxDegrees := None |} emptyWorld).2).
  - discriminate.
  - vm_compute. reflexivity.
Defined.

(** X9: up to the meeting actor the path shows the right movies: a segment
    in front of the meeting actor carries the movie recorded when its
    neighbour was found among its co-stars. *)
Theorem movies_up_to_meeting_actor (P : Providers) (fuel : nat) (a b : Z)
    (options : Options) (w : World) (r : ConnectionResult) (w' : World) :
  a <> b ->
  findConnection P fuel a b options w = (Ok (Some r), w') ->
  exists st mp w1 j,
    searchLoop P fuel (default 6 (maxDegrees options)) (initialState a b)
      {| filmographyCache := ∅; trace := trace w |} = (Ok st, w1) /\
    meetingPoint st = Some mp /\
    segmentIds (path r) !! j = Some (mp_actorId mp) /\
    forall i s s',
      (i < j)%nat -> path r !! i = Some s -> path r !! S i = Some s' ->
      exists info,
        coStarVia P (actor_id (actor s)) (actor_id (actor s')) info /\
        movie s = Some (toPathMovie (nodeMovieOf info)).
Proof.
  intros Hne Hrun.
  destruct (success_state P fuel a b options w r w' Hne Hrun)
    as (st & mp & w1 & nA & nB & Hloop & Hmp & Hpath & _ & Hcomb & HidA & HidB
        & HokA & HokB).
  exists st, mp, w1, (pred (length (walkUp nA))).
  split; [exact Hloop|]. split; [exact Hmp|]. split.
  - rewrite Hpath, segmentIds_finalPathOf, Hcomb.
    exact (combined_meeting (mp_actorId mp) nA nB HidA).
  - intros i s s' Hi Hs Hs'. rewrite Hpath, Hcomb in Hs, Hs'.
    apply finalPathOf_lookup in Hs. destruct Hs as (e & He & Hactor & Hmovie).
    apply finalPathOf_lookup in Hs'. destruct Hs' as (e' & He' & Hactor' & _).
    destruct (combined_A_side P a _ nA nB HokA i e e' ltac:(lia) He He')
      as (info & Hvia & Hm).
    exists info. rewrite Hactor, Hactor', Hmovie, He'. cbn. rewrite Hm.
    split; [exact Hvia|reflexivity].
Qed.

Lemma movies_up_to_meeting_witness :
  exists st mp w1 j,
    searchLoop twoHop 3 6 (initialState 1 2)
      {| filmographyCache := ∅; trace := [] |} = (Ok st, w1) /\
    meetingPoint st = Some mp /\
    segmentIds (path twoHopResult) !! j = Some (mp_actorId mp) /\
    forall i s s',
      (i < j)%nat -> path twoHopResult !! i = Some s ->
      path twoHopResult !! S i = Some s' ->
      exists info,
        coStarVia twoHop (actor_id (actor s)) (actor_id (actor s')) info /\
        movie s = Some (toPathMovie (nodeMovieOf info)).
Proof.
  apply (movies_up_to_meeting_actor twoHop 3 1 2 {| maxDegrees := None |} emptyWorld
           twoHopResult
           (findConnection twoHop 3 1 2 {| maxDegrees := None |} emptyWorld).2).
  - discriminate.
  - vm_compute. reflexivity.
Defined.

(** X10: from the meeting actor on, the movies are one hop late: a segment
    there carries the movie of the hop between its two successors, and the
    segment in front of actor B carries none. *)
Theorem movies_from_meeting_actor_on (P : Providers) (fuel : nat) (a b : Z)
    (options : Options) (w : World) (r : ConnectionResult) (w' : World) :
  a <> b ->
  findConnection P fuel a b options w = (Ok (Some r), w') ->
  exists st mp w1 j,
    searchLoop P fuel (default 6 (maxDegrees options)) (initialState a b)
      {| filmographyCache := ∅; trace := trace w |} = (Ok st, w1) /\
    meetingPoint st = Some mp /\
    segmentIds (path r) !! j = Some (mp_actorId mp) /\
    (forall i s s' s'',
        (j <= i)%nat -> path r !! i = Some s ->
        path r !! S i = Some s' -> path r !! S (S i) = Some s'' ->
        exists info,
          coStarVia P (actor_id (actor s'')) (actor_id (actor s')) info /\
          movie s = Some (toPathMovie (nodeMovieOf info))) /\
    (forall i s,
        (j <= i)%nat -> path r !! i = Some s -> S (S i) = length (path r) ->
        movie s = None).
Proof.
  intros Hne Hrun.
  destruct (success_state P fuel a b options w r w' Hne Hrun)
    as (st & mp & w1 & nA & nB & Hloop & Hmp & Hpath & _ & Hcomb & HidA & HidB
        & HokA & HokB).
  pose proof (walkUp_length nA) as HlenA.
  exists st, mp, w1, (pred (length (walkUp nA))).
  split; [exact Hloop|]. split; [exact Hmp|]. split; [|split].
  - rewrite Hpath, segmentIds_finalPathOf, Hcomb.
    exact (combined_meeting (mp_actorId mp) nA nB HidA).
  - intros i s s' s'' Hi Hs Hs' Hs''. rewrite Hpath, Hcomb in Hs, Hs', Hs''.
    apply finalPathOf_lookup in Hs. destruct Hs as (e & He & _ & Hmovie).
    apply finalPathOf_lookup in Hs'. destruct Hs' as (e' & He' & Hactor' & _).
    apply finalPathOf_lookup in Hs''. destruct Hs'' as (e'' & He'' & Hactor'' & _).
    destruct (combined_B_side P b _ nA nB HokB (S i) e' e'' ltac:(lia) He' He'')
      as (info & Hvia & Hm).
    exists info. rewrite Hactor', Hactor'', Hmovie, He'. cbn. rewrite Hm.
    split; [exact Hvia|reflexivity].
  - intros i s Hi Hs Hlen. rewrite Hpath, Hcomb in Hs, Hlen.
    unfold finalPathOf in Hlen. rewrite length_imap in Hlen.
    apply finalPathOf_lookup in Hs. destruct Hs as (e & He & _ & Hmovie).
    rewrite Hmovie.
    destruct ((reverse (walkUp nA) ++ walkUpFrom (parent nB)) !! S i) as [e'|] eqn:He';
      [|reflexivity].
    cbn. rewrite (combined_B_root P b _ nA nB HokB (S i) e'); [reflexivity|lia| |exact He'].
    now rewrite <- Hlen.
Qed.

Lemma movies_from_meeting_witness :
  exists st mp w1 j,
    searchLoop twoHop 3 6 (initialState 1 2)
      {| filmographyCache := ∅; trace := [] |} = (Ok st, w1) /\
    meetingPoint st = Some mp /\
    segmentIds (path twoHopResult) !! j = Some (mp_actorId mp) /\
    (forall i s s' s'',
        (j <= i)%nat -> path twoHopResult !! i = Some s ->
        path twoHopResult !! S i = Some s' -> path twoHopResult !! S (S i) = Some s'' ->
        exists info,
          coStarVia twoHop (actor_id (actor s'')) (actor_id (actor s')) info /\
          movie s = Some (toPathMovie (nodeMovieOf info))) /\
    (forall i s,
        (j <= i)%nat -> path twoHopResult !! i = Some s ->
        S (S i) = length (path twoHopResult) ->
        movie s = None).
Proof.
  apply (movies_from_meeting_actor_on twoHop 3 1 2 {| maxDegrees := None |} emptyWorld
           twoHopResult
           (findConnection twoHop 3 1 2 {| maxDegrees := None |} emptyWorld).2).
  - discriminate.
  - vm_compute. reflexivity.
Defined.

(** On the chain of four hops the sides meet at actor 4: actors 1 and 3
    carry movies 10 and 20, actor 4 carries movie 40 of the hop from 5 to 2,
    and actor 5 carries none. *)
Example four_hop_run :
  match (findConnection fourHop 4 1 2 {| maxDegrees := None |} emptyWorld).1 with
  | Ok (Some r) =>
      degrees r = 4 /\ segmentIds (path r) = [1; 3; 4; 5; 2] /\
      (fun s => pm_id <$> movie s) <$> path r = [Some 10; Some 20; Some 40; None; None]
  | _ => False
  end.
Proof. vm_compute. repeat split; reflexivity. Qed.

(** ** A direct co-star *)

Section Direct.

Context (P : Providers).

Lemma getCoStars_NoDup x w coStars w' :
  getCoStars P x w = (Ok coStars, w') -> NoDup (coStars.*1).
Proof.
  intros Hrun. pose proof Hrun as Hrun'. unfold getCoStars in Hrun'.
  apply bind_inv_ok in Hrun'. destruct Hrun' as (fg & w1 & Hfg & _).
  rewrite (getCoStars_run P x w fg w1 Hfg) in Hrun.
  destruct (addMovies_spec P x (topMovies fg) [] w1) as (res & Hres & Hnd & _).
  rewrite Hres in Hrun. injection Hrun as <- _. apply Hnd. constructor.
Qed.

(** Scanning co-stars among which is the only actor the B side has visited
    ends at that actor. *)
Lemma scanCoStarsA_meets b nodeB info current coStars st :
  visitedFromB st !! b = Some nodeB ->
  (forall c, c <> b -> visitedFromB st !! c = None) ->
  NoDup (coStars.*1) ->
  (b, info) ∈ coStars ->
  meetingPoint (scanCoStarsA current coStars st) =
    Some {| mp_actorId := b;
            movieFromA := Some (nodeMovieOf info);
            movieFromB := node_movie nodeB |} /\
  visitedFromA (scanCoStarsA current coStars st) !! b =
    Some {| actorId := b; parent := Some current;
            node_movie := Some (nodeMovieOf info) |} /\
  visitedFromB (scanCoStarsA current coStars st) = visitedFromB st.
Proof.
  revert st. induction coStars as [|[c info'] rest IH]; intros st HB Honly Hnd Hin.
  - now apply elem_of_nil in Hin.
  - cbn in Hnd. apply NoDup_cons in Hnd. destruct Hnd as (Hfresh & Hnd).
    cbn [scanCoStarsA]. destruct (decide (c = b)) as [->|Hne].
    + assert (info' = info) as ->.
      { apply elem_of_cons in Hin. destruct Hin as [Heq|Hin]; [congruence|].
        exfalso. apply Hfresh. apply list_elem_of_fmap. now exists (b, info). }
      rewrite HB. cbn. rewrite lookup_insert_eq. auto.
    + rewrite (Honly c Hne).
      assert (Hin' : (b, info) ∈ rest).
      { apply elem_of_cons in Hin. destruct Hin as [Heq|Hin]; [congruence|assumption]. }
      destruct (visitedFromA st !! c); [now apply IH|].
      match goal with
      | |- context [scanCoStarsA current rest ?s] =>
          destruct (IH s HB Honly Hnd Hin') as (H1 & H2 & H3)
      end.
      repeat split; assumption.
Qed.

Lemma levelLoopA_meets n st w current rest coStars w1 mp :
  queueA st = current :: rest ->
  getCoStars P (actorId current) w = (Ok coStars, w1) ->
  meetingPoint (scanCoStarsA current coStars (shiftA st)) = Some mp ->
  levelLoopA P (S n) st w = (Ok (scanCoStarsA current coStars (shiftA st)), w1).
Proof.
  intros Hq Hco Hmp. cbn [levelLoopA]. unfold shiftA in *. rewrite Hq in *.
  cbn [tail] in *. rewrite (bind_ok _ _ _ _ _ Hco). now rewrite Hmp.
Qed.

(** The search for a direct co-star, up to the end of its loop. *)
Lemma searchLoop_direct fuel maxDeg a b coStars w w1 info :
  a <> b -> 0 < maxDeg ->
  getCoStars P a w = (Ok coStars, w1) ->
  (b, info) ∈ coStars ->
  exists st,
    searchLoop P (S fuel) maxDeg (initialState a b) w = (Ok st, w1) /\
    meetingPoint st = Some {| mp_actorId := b;
                              movieFromA := Some (nodeMovieOf info);
                              movieFromB := None |} /\
    combinedPath st {| mp_actorId := b;
                       movieFromA := Some (nodeMovieOf info);
                       movieFromB := None |} =
      [ {| pe_actorId := a; pe_movie := None |};
        {| pe_actorId := b; pe_movie := Some (nodeMovieOf info) |} ].
Proof.
  intros Hne Hpos Hco Hin.
  pose (rootA := {| actorId := a; parent := None; node_movie := None |}).
  pose (rootB := {| actorId := b; parent := None; node_movie := None |}).
  pose (stUp := {| visitedFromA := visitedFromA (initialState a b);
                   visitedFromB := visitedFromB (initialState a b);
                   queueA := queueA (initialState a b);
                   queueB := queueB (initialState a b);
                   degreesFromA := degreesFromA (initialState a b) + 1;
                   degreesFromB := degreesFromB (initialState a b);
                   meetingPoint := meetingPoint (initialState a b) |}).
  destruct (scanCoStarsA_meets b rootB info rootA coStars (shiftA stUp))
    as (Hmp & HA & HB).
  { cbn. apply lookup_insert_eq. }
  { intros c Hc. cbn. now rewrite lookup_insert_ne, lookup_empty. }
  { eapply getCoStars_NoDup. exact Hco. }
  { exact Hin. }
  assert (HexpA : expandA P (initialState a b) w =
                  (Ok (scanCoStarsA rootA coStars (shiftA stUp)), w1)).
  { unfold expandA. fold stUp.
    change (length (queueA (initialState a b))) with 1%nat.
    eapply levelLoopA_meets; [reflexivity|exact Hco|exact Hmp]. }
  assert (Hbody : loopBody P maxDeg (initialState a b) w =
                  (Ok (Break, scanCoStarsA rootA coStars (shiftA stUp)), w1)).
  { unfold loopBody.
    change (degreesFromA (initialState a b) + degreesFromB (initialState a b))
      with (0 + 0).
    replace (maxDeg <=? 0 + 0) with false by lia.
    unfold expandBothSides.
    change (nonEmpty (queueA (initialState a b)) &&
            (degreesFromA (initialState a b) <=? degreesFromB (initialState a b)))
      with true.
    cbv iota. unfold bind at 1. unfold bind at 1. rewrite HexpA. cbn [ret].
    unfold hasMeetingPoint. rewrite Hmp. reflexivity. }
  exists (scanCoStarsA rootA coStars (shiftA stUp)). split; [|split].
  - cbn [searchLoop].
    change (nonEmpty (queueA (initialState a b)) || nonEmpty (queueB (initialState a b)))
      with true.
    cbv iota. now rewrite (bind_ok _ _ _ _ _ Hbody).
  - exact Hmp.
  - unfold combinedPath, pathFromA, pathFromB. cbn [mp_actorId].
    rewrite HA, HB. cbn [shiftA stUp visitedFromB initialState].
    rewrite lookup_insert_eq. reflexivity.
Qed.

End Direct.

(** X11: when actor B is among the co-stars the expander returns for actor
    A, a search with a positive bound ends in its first level: it returns one
    degree, the segment of A with the movie recorded for B, and the segment
    of B with no movie. *)
Theorem direct_costar_is_one_degree (P : Providers) (fuel : nat) (a b : Z)
    (options : Options) (w : World) (coStars : CoStars) (w1 : World)
    (info : MovieInfo) :
  a <> b ->
  0 < default 6 (maxDegrees options) ->
  getCoStars P a {| filmographyCache := ∅; trace := trace w |} = (Ok coStars, w1) ->
  (b, info) ∈ coStars ->
  (forall ids, is_Some (getDeceasedPersons P ids)) ->
  exists r w',
    findConnection P (S fuel) a b options w = (Ok (Some r), w') /\
    degrees r = 1 /\
    path r = [ {| actor := actorOf P a;
                  movie := Some (toPathMovie (nodeMovieOf info)) |};
               {| actor := actorOf P b; movie := None |} ].
Proof.
  intros Hne Hpos Hco Hin Hstore.
  destruct (searchLoop_direct P fuel (default 6 (maxDegrees options)) a b coStars
              {| filmographyCache := ∅; trace := trace w |} w1 info Hne Hpos Hco Hin)
    as (st & Hloop & Hmp & Hcomb).
  rewrite findConnection_distinct by assumption.
  rewrite (bind_ok _ _ _ _ _ Hloop). rewrite Hmp.
  unfold bind at 1. rewrite buildResult_run. cbn zeta. rewrite Hcomb.
  destruct (Hstore (deceasedIdsOf
                      (finalPathOf P
                         [ {| pe_actorId := a; pe_movie := None |};
                           {| pe_actorId := b;
                              pe_movie := Some (nodeMovieOf info) |} ])))
    as [infoMap ->].
  do 2 eexists. split; [reflexivity|]. split; reflexivity.
Qed.

Lemma direct_costar_witness :
  exists r w',
    findConnection twoHop 1 1 3 {| maxDegrees := None |} emptyWorld
      = (Ok (Some r), w') /\
    degrees r = 1 /\
    path r = [ {| actor := actorOf twoHop 1;
                  movie := Some (toPathMovie (nodeMovieOf (infoOf twoHop movie10))) |};
               {| actor := actorOf twoHop 3; movie := None |} ].
Proof.
  apply (direct_costar_is_one_degree twoHop 0 1 3 {| maxDegrees := None |} emptyWorld
           [(3, infoOf twoHop movie10)]
           (getCoStars twoHop 1 {| filmographyCache := ∅; trace := [] |}).2).
  - discriminate.
  - reflexivity.
  - vm_compute. reflexivity.
  - apply list_elem_of_singleton. reflexivity.
  - intros ids. cbn. eauto.
Defined.

(** * The actor search route *)

Lemma append_cons (c : Ascii.ascii) (s t : string) :
  String.append (String c s) t = String c (String.append s t).
Proof. reflexivity. Qed.

Lemma append_empty (t : string) : String.append EmptyString t = t.
Proof. reflexivity. Qed.

Lemma trimStart_split (s : string) :
  exists pre, s = String.append pre (trimStart s) /\ blank pre = true.
Proof.
  induction s as [|c s [pre [IH Hpre]]]; cbn.
  - now exists EmptyString.
  - destruct (isWhiteSpace c) eqn:Hc.
    + exists (String c pre). rewrite append_cons. cbn. rewrite Hc, Hpre.
      split; [now f_equal|reflexivity].
    + now exists EmptyString.
Qed.

Lemma trimStart_first (s : string) :
  trimStart s = EmptyString \/ solid (firstChar (trimStart s)).
Proof.
  induction s as [|c s IH]; cbn; [now left|].
  destruct (isWhiteSpace c) eqn:Hc; [exact IH|].
  right. exists c. now split.
Qed.

Lemma trimEnd_split (s : string) :
  exists post, s = String.append (trimEnd s) post /\ blank post = true.
Proof.
  induction s as [|c s [post [IH Hpost]]]; cbn.
  - now exists EmptyString.
  - destruct (trimEnd s) as [|d t] eqn:Ht.
    + rewrite append_empty in IH. destruct (isWhiteSpace c) eqn:Hc.
      * exists (String c post). rewrite append_empty. cbn. rewrite Hc, Hpost.
        split; [now f_equal|reflexivity].
      * exists post. rewrite append_cons, append_empty. split; [now f_equal|assumption].
    + exists post. rewrite append_cons. split; [now f_equal|assumption].
Qed.

Lemma lastChar_cons (c d : Ascii.ascii) (t : string) :
  lastChar (String c (String d t)) = lastChar (String d t).
Proof.
  unfold lastChar. cbn [String.length]. 
  replace (S (S (String.length t)) - 1)%nat with (S (String.length t)) by lia.
  replace (S (String.length t) - 1)%nat with (String.length t) by lia.
  reflexivity.
Qed.

Lemma trimEnd_last (s : string) :
  trimEnd s = EmptyString \/ solid (lastChar (trimEnd s)).
Proof.
  induction s as [|c s IH]; cbn [trimEnd]; [now left|].
  destruct (trimEnd s) as [|d t] eqn:Ht.
  - destruct (isWhiteSpace c) eqn:Hc; [now left|].
    right. exists c. now split.
  - right. rewrite lastChar_cons. destruct IH as [IH|IH]; [discriminate|exact IH].
Qed.

Lemma trimEnd_first (s : string) :
  solid (firstChar s) -> firstChar (trimEnd s) = firstChar s.
Proof.
  destruct s as [|c s]; intros (x & Hx & Hws); [discriminate|].
  cbn in Hx. injection Hx as ->. cbn.
  destruct (trimEnd s); [now rewrite Hws|reflexivity].
Qed.

(** [trim] removes a blank prefix and a blank suffix and leaves a string
    that is empty or has solid ends. *)
Lemma trim_spec (s : string) :
  (exists pre post,
     s = String.append pre (String.append (trim s) post) /\
     blank pre = true /\ blank post = true) /\
  (trim s = EmptyString \/ (solid (firstChar (trim s)) /\ solid (lastChar (trim s)))).
Proof.
  unfold trim. split.
  - destruct (trimStart_split s) as (pre & Hs & Hpre).
    destruct (trimEnd_split (trimStart s)) as (post & Ht & Hpost).
    exists pre, post. split; [|now split].
    now rewrite <- Ht.
  - destruct (trimEnd_last (trimStart s)) as [He|Hl]; [now left|]. right.
    split; [|exact Hl].
    destruct (trimStart_first s) as [He|Hf].
    + rewrite He in Hl. destruct Hl as (x & Hx & _). discriminate.
    + now rewrite trimEnd_first.
Qed.

Lemma formatActor_knownFor (person : TMDBSearchPerson) :
  (length (knownFor (formatActor person)) <= 3)%nat /\
  Forall (fun k => exists s, k = Some s /\ s <> EmptyString) (knownFor (formatActor person)).
Proof.
  cbn. split.
  - rewrite length_fmap, length_take. lia.
  - apply Forall_fmap, Forall_take. 
    apply Forall_forall. intros item Hin.
    apply list_elem_of_filter in Hin as [Ht _].
    cbn. unfold orElse in *.
    destruct (truthy (kf_title item)) eqn:Htitle.
    + destruct (kf_title item) as [s|]; [|discriminate].
      exists s. split; [reflexivity|]. intros ->. discriminate.
    + destruct (kf_name item) as [s|]; [|discriminate].
      exists s. split; [reflexivity|]. intros ->. discriminate.
Qed.

(** The handler on a string, the case its cast expects. *)
Lemma searchActorsRoute_string (searchPerson : string -> option TMDBSearchResponse)
    (query : string) :
  searchActorsRoute searchPerson (Some (QueryString query)) =
    if negb (truthy (Some query)) || (String.length (trim query) <? 2)%nat
    then ({| status := 200; body := ResultsBody [] |}, [])
    else
      match searchPerson (trim query) with
      | Some response =>
          ({| status := 200;
              body := ResultsBody
                        (formatActor <$> take 10 (filter isActing (results response))) |},
           [trim query])
      | None =>
          ({| status := 500; body := ErrorBody "Failed to search actors" |},
           [trim query])
      end.
Proof.
  unfold searchActorsRoute. cbn [truthyQuery trimQuery].
  destruct (negb (truthy (Some query))); [reflexivity|].
  cbn [orb]. destruct (String.length (trim query) <? 2)%nat; reflexivity.
Qed.

(** The handler on an array or an object: [query.trim()] throws, the
    [catch] answers, and [searchPerson] is not called. *)
Lemma searchActorsRoute_not_a_string (searchPerson : string -> option TMDBSearchResponse)
    (query : QueryValue) :
  (forall s, query <> QueryString s) ->
  searchActorsRoute searchPerson (Some query) =
    ({| status := 500; body := ErrorBody "Failed to search actors" |}, []).
Proof. intros Hns. destruct query as [s| |]; [now destruct (Hns s)|reflexivity..]. Qed.

(** X12: [searchActorsRoute] passes at most one query to [searchPerson],
    and what it passes is the request's query without the blank characters
    around it: at least two characters long, starting and ending with a
    character that is not white space. *)
Theorem search_query_is_trimmed (searchPerson : string -> option TMDBSearchResponse)
    (q : option QueryValue) (response : Response) (sent : list string) (query' : string) :
  searchActorsRoute searchPerson q = (response, sent) ->
  query' ∈ sent ->
  sent = [query'] /\
  (2 <= String.length query')%nat /\
  solid (firstChar query') /\ solid (lastChar query') /\
  exists query pre post,
    q = Some (QueryString query) /\
    query = String.append pre (String.append query' post) /\
    blank pre = true /\ blank post = true.
Proof.
  intros Hrun Hin.
  destruct q as [[query|items|]|];
    [|injection Hrun as _ <-; now apply elem_of_nil in Hin ..].
  rewrite searchActorsRoute_string in Hrun.
  destruct (negb (truthy (Some query)) || (String.length (trim query) <? 2)%nat) eqn:Hshort;
    [injection Hrun as _ <-; now apply elem_of_nil in Hin|].
  apply orb_false_iff in Hshort as [_ Hlen]. apply Nat.ltb_ge in Hlen.
  assert (Hsent : sent = [trim query])
    by (destruct (searchPerson (trim query)); now injection Hrun as _ <-).
  subst sent. apply list_elem_of_singleton in Hin. subst query'.
  destruct (trim_spec query) as [(pre & post & Hq & Hpre & Hpost) [He|[Hf Hl]]].
  - rewrite He in Hlen. cbn in Hlen. lia.
  - split; [reflexivity|]. split; [exact Hlen|]. split; [exact Hf|]. split; [exact Hl|].
    now exists query, pre, post.
Qed.

Lemma search_query_witness :
  [ "tom h"%string ] = [ "tom h"%string ] /\
  (2 <= String.length "tom h")%nat /\
  solid (firstChar "tom h") /\ solid (lastChar "tom h") /\
  exists query pre post,
    Some (QueryString "  tom h ") = Some (QueryString query) /\
    query = String.append pre (String.append "tom h" post) /\
    blank pre = true /\ blank post = true.
Proof.
  apply (search_query_is_trimmed stubSearch (Some (QueryString "  tom h "))
           (searchActorsRoute stubSearch (Some (QueryString "  tom h "))).1
           [ "tom h"%string ]).
  - vm_compute. reflexivity.
  - vm_compute. left.
Defined.

(** X13: When [searchActorsRoute] answers with a list of actors, the list
    has at most ten entries; they are the formatted actors of
    [searchPerson]'s answer, in its order, the ones beyond the tenth
    dropped, and no one whose department is not "Acting" is among them;
    each entry names at most three known-for titles, none of them missing
    or empty.  Without a query sent the list is empty. *)
Theorem search_results_shape (searchPerson : string -> option TMDBSearchResponse)
    (q : option QueryValue) (code : Z) (actors : list ActorSearchResult)
    (sent : list string) :
  searchActorsRoute searchPerson q = ({| status := code; body := ResultsBody actors |}, sent) ->
  code = 200 /\
  (length actors <= 10)%nat /\
  Forall (fun r => (length (knownFor r) <= 3)%nat /\
                   Forall (fun k => exists s, k = Some s /\ s <> EmptyString) (knownFor r))
         actors /\
  (sent = [] -> actors = []) /\
  (forall query', query' ∈ sent ->
     exists found,
       searchPerson query' = Some found /\
       length actors = Nat.min 10 (length (filter isActing (results found))) /\
       (result_id <$> actors) `prefix_of` (sp_id <$> filter isActing (results found)) /\
       (result_id <$> actors) `sublist_of` (sp_id <$> results found) /\
       forall r, r ∈ actors ->
         exists person, person ∈ results found /\ isActing person /\ r = formatActor person).
Proof.
  intros Hrun.
  assert (Hempty : forall s : list string,
            ({| status := 200; body := ResultsBody [] |}, @nil string)
              = ({| status := code; body := ResultsBody actors |}, s) ->
            code = 200 /\ actors = [] /\ s = []).
  { intros s Heq. injection Heq as <- <- <-. now repeat split. }
  assert (Hnone : code = 200 /\ actors = [] /\ sent = [] ->
            code = 200 /\ (length actors <= 10)%nat /\
            Forall (fun r => (length (knownFor r) <= 3)%nat /\
                     Forall (fun k => exists s, k = Some s /\ s <> EmptyString) (knownFor r))
                   actors /\
            (sent = [] -> actors = []) /\
            (forall query', query' ∈ sent ->
               exists found,
                 searchPerson query' = Some found /\
                 length actors = Nat.min 10 (length (filter isActing (results found))) /\
                 (result_id <$> actors) `prefix_of` (sp_id <$> filter isActing (results found)) /\
                 (result_id <$> actors) `sublist_of` (sp_id <$> results found) /\
                 forall r, r ∈ actors ->
                   exists person, person ∈ results found /\ isActing person /\
                                  r = formatActor person)).
  { intros (-> & -> & ->). split; [reflexivity|]. split; [cbn; lia|].
    split; [constructor|]. split; [reflexivity|].
    intros query' Hin. now apply elem_of_nil in Hin. }
  destruct q as [[query|items|]|]; [|discriminate..|now apply Hnone, Hempty].
  rewrite searchActorsRoute_string in Hrun.
  destruct (negb (truthy (Some query)) || (String.length (trim query) <? 2)%nat);
    [now apply Hnone, Hempty|].
  clear Hempty Hnone.
  destruct (searchPerson (trim query)) as [found|] eqn:Hfound; [|discriminate].
  injection Hrun as <- <- <-.
  split; [reflexivity|]. split; [rewrite length_fmap, length_take; lia|].
  split.
  { apply Forall_fmap, Forall_forall. intros person _. apply formatActor_knownFor. }
  split; [discriminate|].
  intros query' Hin. apply list_elem_of_singleton in Hin. subst query'.
  exists found. split; [exact Hfound|].
  split; [now rewrite length_fmap, length_take|].
  assert (Hids : result_id <$> (formatActor <$> take 10 (filter isActing (results found)))
                 = take 10 (sp_id <$> filter isActing (results found))).
  { rewrite <- list_fmap_compose, fmap_take. reflexivity. }
  split; [rewrite Hids; exists (drop 10 (sp_id <$> filter isActing (results found)));
          now rewrite take_drop|].
  split.
  { rewrite Hids. etransitivity; [apply sublist_take|].
    apply fmap_sublist, sublist_filter. }
  intros r Hr. apply list_elem_of_fmap in Hr as (person & -> & Hp).
  apply elem_of_take in Hp as (i & Hp & _). apply list_elem_of_lookup_2 in Hp.
  apply list_elem_of_filter in Hp as [Hact Hp].
  now exists person.
Qed.

Lemma search_results_witness :
  exists actors,
    (result_id <$> actors) = seqZ 600 10 /\
    (knownFor <$> head actors) = Some [Some "Big"; Some "Show"; Some "Cast Away"]%string /\
    (length actors <= 10)%nat.
Proof.
  destruct (searchActorsRoute stubSearch (Some (QueryString "  tom h ")))
    as [[code [actors|msg]] sent] eqn:Hrun;
    [|vm_compute in Hrun; discriminate].
  exists actors.
  pose proof (search_results_shape stubSearch _ code actors sent Hrun) as (_ & Hlen & _).
  vm_compute in Hrun. injection Hrun as _ <- _.
  split; [vm_compute; reflexivity|]. split; [vm_compute; reflexivity|exact Hlen].
Defined.

(** X14: [searchActorsRoute] lets nothing thrown inside its [try] escape.
    It answers 500 with the message "Failed to search actors" in exactly two
    cases: the query parameter is there but is no string, an array or an
    object, so that [query.trim()] throws and nothing is sent; or the query
    it sent failed.  In every other case it answers 200 with a list of
    actors: the parameter is missing or a string, and what was sent, if
    anything, was answered. *)
Theorem search_failure_is_500 (searchPerson : string -> option TMDBSearchResponse)
    (q : option QueryValue) (response : Response) (sent : list string) :
  searchActorsRoute searchPerson q = (response, sent) ->
  (response = {| status := 500; body := ErrorBody "Failed to search actors" |} /\
   ((sent = [] /\ exists query, q = Some query /\ forall s, query <> QueryString s) \/
    (exists s query', q = Some (QueryString s) /\ sent = [query'] /\
                      searchPerson query' = None))) \/
  (status response = 200 /\ (exists actors, body response = ResultsBody actors) /\
   (q = None \/ exists s, q = Some (QueryString s)) /\
   forall query', query' ∈ sent -> is_Some (searchPerson query')).
Proof.
  intros Hrun.
  destruct q as [[query|items|]|].
  - rewrite searchActorsRoute_string in Hrun.
    destruct (negb (truthy (Some query)) || (String.length (trim query) <? 2)%nat).
    { injection Hrun as <- <-. right. split; [reflexivity|]. split; [now eexists|].
      split; [right; now exists query|].
      intros query' Hin. now apply elem_of_nil in Hin. }
    destruct (searchPerson (trim query)) as [found|] eqn:Hfound; injection Hrun as <- <-.
    + right. split; [reflexivity|]. split; [now eexists|].
      split; [right; now exists query|].
      intros query' Hin. apply list_elem_of_singleton in Hin. subst. now rewrite Hfound.
    + left. split; [reflexivity|]. right. now exists query, (trim query).
  - injection Hrun as <- <-. left. split; [reflexivity|]. left. split; [reflexivity|].
    exists (QueryStrings items). split; [reflexivity|discriminate].
  - injection Hrun as <- <-. left. split; [reflexivity|]. left. split; [reflexivity|].
    exists QueryNested. split; [reflexivity|discriminate].
  - injection Hrun as <- <-. right. split; [reflexivity|]. split; [now eexists|].
    split; [now left|].
    intros query' Hin. now apply elem_of_nil in Hin.
Qed.

Lemma search_failure_witness :
  (searchActorsRoute stubSearch (Some (QueryStrings ["tom"; "h"]%string))).1
    = {| status := 500; body := ErrorBody "Failed to search actors" |} /\
  (searchActorsRoute stubSearch (Some (QueryStrings ["tom"; "h"]%string))).2 = [].
Proof.
  destruct (search_failure_is_500 stubSearch (Some (QueryStrings ["tom"; "h"]%string))
              _ _ eq_refl) as [[Hr [[Hs _]|(s & query' & Hq & _)]]|[Hs _]].
  - split; [exact Hr|exact Hs].
  - discriminate.
  - vm_compute in Hs. discriminate.
Defined.

(** A repeated parameter is answered 500 although each of its values would
    have been a good query; a query the provider fails on is answered 500
    after it was sent. *)
Example repeated_parameter_run :
  searchActorsRoute stubSearch (Some (QueryStrings ["tom h"; "tom h"]%string)) =
    ({| status := 500; body := ErrorBody "Failed to search actors" |}, []) /\
  searchActorsRoute stubSearch (Some (QueryString "nobody")) =
    ({| status := 500; body := ErrorBody "Failed to search actors" |}, ["nobody"%string]) /\
  searchActorsRoute stubSearch (Some (QueryString " t ")) =
    ({| status := 200; body := ResultsBody [] |}, []).
Proof. vm_compute. repeat split; reflexivity. Qed.

(** * A search towards an actor without co-stars *)

Section Stranded.

Context (P : Providers).

(** Every co-star link of [x] has its entry in the expander of [x]. *)
Lemma getCoStars_complete x w coStars w' y info :
  cacheSound P w ->
  getCoStars P x w = (Ok coStars, w') ->
  coStarVia P x y info ->
  y ∈ coStars.*1.
Proof.
  intros Hsound Hrun (Hne & fg' & movie & Hfg' & Hmovie & Hcast & _).
  unfold getCoStars in Hrun.
  apply bind_inv_ok in Hrun. destruct Hrun as (fg & w1 & Hfg & Hrun).
  assert (Hp : getPersonCredits P x = Some fg).
  { destruct (filmographyCache w !! x) as [credits|] eqn:Hc.
    - rewrite (getFilmography_hit P x credits w Hc) in Hfg.
      injection Hfg as <- <-. now apply Hsound.
    - destruct (getPersonCredits P x) as [credits|] eqn:Hp.
      + rewrite (getFilmography_miss P x credits w Hc Hp) in Hfg.
        now injection Hfg as <- <-.
      + rewrite (getFilmography_fail P x w Hc Hp) in Hfg. discriminate. }
  assert (fg' = fg) by congruence. subst fg'.
  destruct (addMovies_spec P x (topMovies fg) [] w1)
    as (res & Hres & _ & _ & Hall & _).
  rewrite Hres in Hrun. injection Hrun as <- <-.
  now apply (Hall y movie).
Qed.

(** A scan none of whose co-stars the B side has visited finds no meeting
    point; it appends the co-stars that are new to the A side, and visits
    no one else. *)
Lemma scanCoStarsA_quiet current (coStars : CoStars) st :
  (forall c, c ∈ coStars.*1 -> visitedFromB st !! c = None) ->
  meetingPoint (scanCoStarsA current coStars st) = meetingPoint st /\
  exists new,
    queueA (scanCoStarsA current coStars st) = queueA st ++ new /\
    forall y, visitedFromA st !! y = None ->
      (y ∈ coStars.*1 -> exists nd, nd ∈ new /\ actorId nd = y) /\
      ((y ∉ coStars.*1) -> visitedFromA (scanCoStarsA current coStars st) !! y = None).
Proof.
  revert st. induction coStars as [|[c info] rest IH]; intros st Hfree.
  - split; [reflexivity|]. exists []. split; [now rewrite app_nil_r|].
    intros y Hy. split; [intros Hin; now apply elem_of_nil in Hin|now intros _].
  - cbn [scanCoStarsA]. rewrite (Hfree c) by (cbn; left).
    assert (Hrest : forall c', c' ∈ rest.*1 -> visitedFromB st !! c' = None).
    { intros c' Hc'. apply Hfree. cbn. now right. }
    destruct (visitedFromA st !! c) as [seen|] eqn:Hc.
    + destruct (IH st Hrest) as (Hmp & new & Hq & Hnew).
      split; [exact Hmp|]. exists new. split; [exact Hq|].
      intros y Hy. destruct (Hnew y Hy) as (Hin & Hout).
      assert (y <> c) by congruence.
      split.
      * intros Hyc. cbn in Hyc. apply elem_of_cons in Hyc as [->|Hyc]; [congruence|].
        now apply Hin.
      * intros Hyc. apply Hout. intros Hy'. apply Hyc. cbn. now right.
    + match goal with
      | |- context [scanCoStarsA current rest ?s] =>
          destruct (IH s Hrest) as (Hmp & new & Hq & Hnew)
      end.
      cbn [meetingPoint queueA visitedFromA] in Hmp, Hq, Hnew.
      split; [exact Hmp|].
      exists ({| actorId := c; parent := Some current;
                 node_movie := Some (nodeMovieOf info) |} :: new).
      split; [rewrite Hq, <- app_assoc; reflexivity|].
      intros y Hy. destruct (decide (y = c)) as [->|Hyc].
      * split.
        -- intros _. eexists. split; [left|reflexivity].
        -- intros Hout. exfalso. apply Hout. cbn. left.
      * assert (Hy' : <[c := {| actorId := c; parent := Some current;
                                 node_movie := Some (nodeMovieOf info) |}]>
                        (visitedFromA st) !! y = None)
          by now rewrite lookup_insert_ne.
        destruct (Hnew y Hy') as (Hin & Hout). split.
        -- intros Hyr. cbn in Hyr. apply elem_of_cons in Hyr as [->|Hyr]; [congruence|].
           destruct (Hin Hyr) as (nd & Hnd & Hid). exists nd. split; [now right|exact Hid].
        -- intros Hyr. apply Hout. intros Hy''. apply Hyr. cbn. now right.
Qed.

(** One level of the A side, when no actor the B side has visited is in
    anyone's top casts: no meeting point is found, and an unvisited co-star
    [y] of a queued actor [x] ends in the new queue. *)
Lemma levelLoopA_progress (VB : gmap Z BFSNode) (x y : Z) (info : MovieInfo) :
  (forall k z i, is_Some (VB !! k) -> ~ coStarVia P z k i) ->
  coStarVia P x y info ->
  forall n st w st' w',
    cacheSound P w -> meetingPoint st = None -> visitedFromB st = VB ->
    (n <= length (queueA st))%nat ->
    ((exists nd, nd ∈ drop n (queueA st) /\ actorId nd = y) \/
     (visitedFromA st !! y = None /\
      exists nd, nd ∈ take n (queueA st) /\ actorId nd = x)) ->
    levelLoopA P n st w = (Ok st', w') ->
    cacheSound P w' /\ meetingPoint st' = None /\
    exists nd, nd ∈ queueA st' /\ actorId nd = y.
Proof.
  intros Hunseen Hxy n. induction n as [|n IH];
    intros st w st' w' Hsound Hmp HVB Hlen Hcase Hrun.
  - cbn in Hrun. injection Hrun as <- <-. split; [assumption|]. split; [assumption|].
    destruct Hcase as [Hfound|(_ & nd & Hnd & _)]; [|now apply elem_of_nil in Hnd].
    exact Hfound.
  - cbn [levelLoopA] in Hrun.
    destruct (queueA st) as [|current rest] eqn:Hq; [discriminate|].
    apply bind_inv_ok in Hrun. destruct Hrun as (coStars & w1 & Hco & Hrun).
    destruct (getCoStars_sound P _ _ _ _ Hsound Hco) as (Hsound1 & Hlinks).
    cbn [length] in Hlen.
    match type of Hrun with
    | context [scanCoStarsA current coStars ?s] =>
        destruct (scanCoStarsA_quiet current coStars s) as (Hmp1 & new & Hq1 & Hnew);
        [|pose proof (proj1 (scanCoStarsA_other_side current coStars s)) as HVB1;
          set (st1 := scanCoStarsA current coStars s) in *]
    end.
    { intros c Hc. cbn [visitedFromB]. rewrite HVB.
      apply list_elem_of_fmap in Hc as ([c' i] & -> & Hc). cbn [fst].
      destruct (VB !! c') as [nodeB|] eqn:HB; [|reflexivity].
      exfalso. apply (Hunseen c' (actorId current) i); [now rewrite HB|].
      now apply Hlinks. }
    cbn [meetingPoint queueA visitedFromA visitedFromB] in Hmp1, Hq1, Hnew, HVB1.
    rewrite Hmp in Hmp1. rewrite Hmp1 in Hrun.
    apply (IH st1 w1 st' w'); try assumption.
    + now rewrite HVB1.
    + rewrite Hq1, length_app. lia.
    + rewrite Hq1.
      destruct Hcase as [(nd & Hnd & Hid)|(Hy & nd & Hnd & Hid)].
      * left. exists nd. split; [|exact Hid].
        cbn [drop] in Hnd. rewrite drop_app.
        apply elem_of_app. now left.
      * cbn [take] in Hnd.
        destruct (decide (y ∈ coStars.*1)) as [Hin|Hout].
        -- left. destruct (proj1 (Hnew y Hy) Hin) as (nd' & Hnd' & Hid').
           exists nd'. split; [|exact Hid'].
           rewrite drop_app. apply elem_of_app. right.
           replace (n - length rest)%nat with 0%nat by lia. exact Hnd'.
        -- apply elem_of_cons in Hnd as [->|Hnd].
           ++ exfalso. apply Hout. rewrite Hid in Hco.
              exact (getCoStars_complete _ _ _ _ _ _ Hsound Hco Hxy).
           ++ right. split; [exact (proj2 (Hnew y Hy) Hout)|].
              exists nd. split; [|exact Hid].
              rewrite take_app_le by lia. exact Hnd.
Qed.

Lemma expandA_progress st w st' w' nd y info :
  cacheSound P w -> meetingPoint st = None ->
  (forall k z i, is_Some (visitedFromB st !! k) -> ~ coStarVia P z k i) ->
  nd ∈ queueA st -> coStarVia P (actorId nd) y info ->
  visitedFromA st !! y = None ->
  expandA P st w = (Ok st', w') ->
  cacheSound P w' /\ meetingPoint st' = None /\
  exists nd', nd' ∈ queueA st' /\ actorId nd' = y.
Proof.
  intros Hsound Hmp Hunseen Hnd Hlink Hy Hexp. unfold expandA in Hexp.
  eapply (levelLoopA_progress (visitedFromB st) (actorId nd) y info Hunseen Hlink);
    [exact Hsound| | | | |exact Hexp]; cbn [meetingPoint visitedFromB queueA visitedFromA].
  - exact Hmp.
  - reflexivity.
  - lia.
  - right. split; [exact Hy|]. exists nd. split; [|reflexivity].
    now rewrite firstn_all.
Qed.

(** One level of the B side whose only queued actor has no co-star link:
    the queue is left empty. *)
Lemma expandB_alone st w st' w' current :
  cacheSound P w -> queueB st = [current] ->
  (forall y info, ~ coStarVia P (actorId current) y info) ->
  expandB P st w = (Ok st', w') ->
  meetingPoint st' = meetingPoint st /\ queueB st' = [] /\
  visitedFromB st' = visitedFromB st /\ cacheSound P w'.
Proof.
  intros Hsound Hq Halone Hexp. unfold expandB in Hexp. rewrite Hq in Hexp.
  cbn [length levelLoopB queueB] in Hexp.
  apply bind_inv_ok in Hexp. destruct Hexp as (coStars & w1 & Hco & Hexp).
  destruct (getCoStars_sound P _ _ _ _ Hsound Hco) as (Hsound1 & Hlinks).
  destruct coStars as [|[c info] rest].
  2:{ exfalso. apply (Halone c info), Hlinks. left. }
  cbn [scanCoStarsB meetingPoint] in Hexp.
  destruct (meetingPoint st) as [mp|] eqn:Hmp; cbn in Hexp;
    injection Hexp as <- <-; cbn; rewrite ?Hmp; now repeat split.
Qed.

Context (a b c d : Z) (infoC infoD : MovieInfo) (maxDeg : Z).

Hypothesis credits_answered : forall x, is_Some (getPersonCredits P x).
Hypothesis b_alone : forall y info, ~ coStarVia P b y info.
Hypothesis b_unseen : forall x info, ~ coStarVia P x b info.
Hypothesis a_c : coStarVia P a c infoC.
Hypothesis c_d : coStarVia P c d infoD.
Hypothesis d_far : d <> a /\ forall info, ~ coStarVia P a d info.
Hypothesis bound : 3 < maxDeg.

Lemma stranded_distinct : a <> b.
Proof. intros Hab. apply (b_alone c infoC). rewrite <- Hab. exact a_c. Qed.

(** What the A side has visited after its first level. *)
Lemma first_level_actors st k n :
  wfVisited (visitedFromA st) ->
  (forall k n, visitedFromA st !! k = Some n -> nodeOk P a 1 n) ->
  visitedFromA st !! k = Some n ->
  k = a \/ exists info, coStarVia P a k info.
Proof.
  intros Hwf Hok Hk. destruct (Hwf k n Hk) as (Hid & _).
  destruct (Hok k n Hk) as (Hlen & Hlast & Hhops).
  rewrite walkUp_unfold in Hlen, Hlast, Hhops.
  destruct (walkUpFrom (parent n)) as [|e1 [|e2 up]].
  - cbn in Hlast. injection Hlast as Hroot _. left. congruence.
  - cbn in Hlast. injection Hlast as ->. right.
    destruct (Hhops 0%nat _ _ eq_refl eq_refl) as (info & Hlink & _).
    cbn in Hlink. rewrite Hid in Hlink. now exists info.
  - cbn [length] in Hlen. lia.
Qed.

(** The first two iterations: both sides expand once, then the A side
    alone, and the loop is left spinning. *)
Lemma stranded_two_iterations (t : list Call) :
  exists s1 w1 s2 w2,
    let w0 := {| filmographyCache := ∅; trace := t |} in
    loopBody P maxDeg (initialState a b) w0 = (Ok (Continue, s1), w1) /\
    (nonEmpty (queueA s1) || nonEmpty (queueB s1) = true) /\
    loopBody P maxDeg s1 w1 = (Ok (Continue, s2), w2) /\
    stuck maxDeg s2.
Proof.
  pose proof stranded_distinct as Hab.
  set (w0 := {| filmographyCache := ∅; trace := t |}).
  set (s0 := initialState a b).
  assert (Hrun0 : running s0) by now apply initialState_running.
  assert (Htr0 : tracked P a b s0 w0) by apply initialState_tracked.
  assert (HB0 : forall k z i, is_Some (visitedFromB s0 !! k) -> ~ coStarVia P z k i).
  { intros k z i Hk. cbn in Hk. destruct (decide (b = k)) as [<-|Hne].
    - apply b_unseen.
    - rewrite lookup_insert_ne, lookup_empty in Hk by assumption.
      now destruct Hk. }
  (* first iteration, A side *)
  destruct (expandA_ok P credits_answered s0 w0) as (sA & wA & HexpA).
  destruct (expandA_progress s0 w0 sA wA
              {| actorId := a; parent := None; node_movie := None |} c infoC)
    as (HsoundA & HmpA & ndc & Hndc & Hidc); try assumption.
  { apply Htr0. }
  { reflexivity. }
  { cbn. left. }
  { cbn. rewrite lookup_insert_ne, lookup_empty; [reflexivity|]. intros ->. now destruct a_c. }
  destruct (expandA_other_side P s0 w0 sA wA eq_refl HexpA) as (HVBA & HQBA & HdAA & HdBA).
  destruct (expandA_tracked P a b s0 w0 sA wA Hrun0 Htr0 HexpA) as (HgoodA & HtrA).
  pose proof (good_running sA HgoodA HmpA) as HrunA.
  (* first iteration, B side *)
  destruct (expandB_ok P credits_answered sA wA) as (s1 & w1 & HexpB).
  destruct (expandB_alone sA wA s1 w1
              {| actorId := b; parent := None; node_movie := None |})
    as (Hmp1 & HQB1 & HVB1 & Hsound1); try assumption.
  rewrite HmpA in Hmp1.
  destruct (expandB_other_side P sA wA s1 w1 HmpA HexpB) as (HVA1 & HQA1 & HdB1 & HdA1).
  assert (Hbody1 : loopBody P maxDeg s0 w0 = (Ok (Continue, s1), w1)).
  { unfold loopBody. replace (maxDeg <=? degreesFromA s0 + degreesFromB s0) with false
      by (cbn; lia).
    unfold expandBothSides.
    replace (nonEmpty (queueA s0) && (degreesFromA s0 <=? degreesFromB s0)) with true
      by reflexivity.
    rewrite (bind_ok _ _ _ _ _ (bind_ok _ _ _ _ _ HexpA)).
    unfold ret at 1. unfold hasMeetingPoint at 1. rewrite HmpA.
    unfold hasMeetingPoint at 1. rewrite HmpA, HQBA. cbn [nonEmpty queueB s0 initialState andb negb].
    rewrite (bind_ok _ _ _ _ _ HexpB). unfold hasMeetingPoint. now rewrite Hmp1. }
  (* second iteration: the A side alone *)
  assert (HB1 : forall k z i, is_Some (visitedFromB s1 !! k) -> ~ coStarVia P z k i).
  { rewrite HVB1, HVBA. exact HB0. }
  assert (Hd1 : visitedFromA s1 !! d = None).
  { rewrite HVA1. destruct (visitedFromA sA !! d) as [n|] eqn:Hd; [|reflexivity].
    exfalso. destruct HrunA as (_ & HwfA & _). destruct HtrA as (_ & HokA & _).
    rewrite HdAA in HokA. 
    destruct (first_level_actors sA d n HwfA HokA Hd) as [Hda|(info & Hda)].
    - now destruct d_far.
    - now apply (proj2 d_far info). }
  destruct (expandA_ok P credits_answered s1 w1) as (s2 & w2 & HexpA2).
  destruct (expandA_progress s1 w1 s2 w2 ndc d infoD)
    as (Hsound2 & Hmp2 & ndd & Hndd & Hidd); try assumption.
  { now rewrite HQA1. }
  { now rewrite Hidc. }
  destruct (expandA_other_side P s1 w1 s2 w2 Hmp1 HexpA2) as (HVB2 & HQB2 & HdA2 & HdB2).
  assert (HqA1 : nonEmpty (queueA s1) = true).
  { rewrite HQA1. destruct (queueA sA); [now apply elem_of_nil in Hndc|reflexivity]. }
  assert (Hbody2 : loopBody P maxDeg s1 w1 = (Ok (Continue, s2), w2)).
  { unfold loopBody. replace (maxDeg <=? degreesFromA s1 + degreesFromB s1) with false
      by (rewrite HdA1, HdB1, HdAA, HdBA; cbn; lia).
    unfold expandBothSides. rewrite HqA1.
    replace (degreesFromA s1 <=? degreesFromB s1) with true
      by (rewrite HdA1, HdB1, HdAA, HdBA; cbn; lia).
    cbn [andb].
    rewrite (bind_ok _ _ _ _ _ (bind_ok _ _ _ _ _ HexpA2)).
    unfold ret at 1. unfold hasMeetingPoint at 1. rewrite Hmp2.
    rewrite HQB2, HQB1. reflexivity. }
  exists s1, w1, s2, w2. cbn zeta.
  split; [exact Hbody1|]. split; [now rewrite HqA1|]. split; [exact Hbody2|].
  unfold stuck. split; [|split; [|split]].
  - intros Hq. rewrite Hq in Hndd. now apply elem_of_nil in Hndd.
  - now rewrite HQB2.
  - rewrite HdA2, HdB2, HdA1, HdB1, HdAA, HdBA. cbn. lia.
  - rewrite HdA2, HdB2, HdA1, HdB1, HdAA, HdBA. cbn. lia.
Qed.

Lemma stranded_loop (fuel : nat) (t : list Call) :
  (searchLoop P fuel maxDeg (initialState a b)
     {| filmographyCache := ∅; trace := t |}).1 = OutOfFuel.
Proof.
  destruct (stranded_two_iterations t) as (s1 & w1 & s2 & w2 & H1 & Hq1 & H2 & Hstuck).
  cbn zeta in H1.
  destruct fuel as [|fuel]; [reflexivity|].
  rewrite (searchLoop_continue P fuel maxDeg _ s1); [|reflexivity|now rewrite H1].
  rewrite H1. cbn [snd].
  destruct fuel as [|fuel]; [reflexivity|].
  rewrite (searchLoop_continue P fuel maxDeg _ s2); [|exact Hq1|now rewrite H2].
  rewrite H2. cbn [snd].
  now rewrite (stuck_forever P maxDeg s2 Hstuck).
Qed.

End Stranded.

(** X15: A search towards an actor [b] without co-star links never
    returns, whenever the other actor [a] has a co-star [c] who has a
    co-star [d] that is neither [a] nor a co-star of [a], the bound is
    above 3 and no filmography fetch fails: after [b]'s only level the B
    queue is empty, the A side is one level ahead after its second, and no
    iteration of the loop expands anything or ends it. *)
Theorem search_towards_loner_never_returns (P : Providers) (a b c d : Z)
    (infoC infoD : MovieInfo) (options : Options) (w : World) (fuel : nat) :
  (forall x, is_Some (getPersonCredits P x)) ->
  (forall y info, ~ coStarVia P b y info) ->
  (forall x info, ~ coStarVia P x b info) ->
  coStarVia P a c infoC ->
  coStarVia P c d infoD ->
  d <> a /\ (forall info, ~ coStarVia P a d info) ->
  3 < default 6 (maxDegrees options) ->
  (findConnection P fuel a b options w).1 = OutOfFuel.
Proof.
  intros Hcredits Halone Hunseen Hac Hcd Hfar Hbound.
  rewrite findConnection_distinct
    by (apply (stranded_distinct P a b c infoC); assumption).
  unfold bind at 1.
  pose proof (stranded_loop P a b c d infoC infoD (default 6 (maxDegrees options))
                Hcredits Halone Hunseen Hac Hcd Hfar Hbound fuel (trace w)) as Hloop.
  destruct (searchLoop P fuel (default 6 (maxDegrees options)) (initialState a b)
              {| filmographyCache := ∅; trace := trace w |}) as [[st|e|] w1];
    cbn in Hloop; try discriminate.
  reflexivity.
Qed.

Lemma strandedB_topMovies (x : Z) (fg : TMDBPersonCredits) (movie : TMDBCredit) :
  getPersonCredits strandedB x = Some fg -> movie ∈ topMovies fg ->
  (x = 1 /\ movie = movie10) \/ (x = 3 /\ (movie = movie10 \/ movie = movie20)) \/
  (x = 4 /\ movie = movie20).
Proof.
  cbn. intros Hfg Hmovie.
  destruct (decide (x = 1)) as [->|_]; [injection Hfg as <-|].
  { left. split; [reflexivity|]. vm_compute in Hmovie.
    apply list_elem_of_singleton in Hmovie. exact Hmovie. }
  destruct (decide (x = 3)) as [->|_]; [injection Hfg as <-|].
  { right. left. split; [reflexivity|].
    change (topMovies {| cast := [movie10; movie20] |}) with [movie20; movie10] in Hmovie.
    apply elem_of_cons in Hmovie as [->|Hmovie]; [now right|].
    apply list_elem_of_singleton in Hmovie. now left. }
  destruct (decide (x = 4)) as [->|_]; injection Hfg as <-.
  { right. right. split; [reflexivity|]. vm_compute in Hmovie.
    apply list_elem_of_singleton in Hmovie. exact Hmovie. }
  vm_compute in Hmovie. now apply elem_of_nil in Hmovie.
Qed.

Lemma strandedB_casts (movie : TMDBCredit) (y : Z) :
  castIncludes strandedB movie y ->
  (credit_id movie = 10 /\ (y = 1 \/ y = 3)) \/ (credit_id movie = 20 /\ (y = 3 \/ y = 4)).
Proof.
  intros (credits & Hcredits & Hy). cbn in Hcredits.
  destruct (decide (credit_id movie = 10)) as [Hid|_]; [injection Hcredits as <-|].
  { left. split; [exact Hid|]. cbn in Hy.
    apply elem_of_cons in Hy as [->|Hy]; [now left|].
    apply list_elem_of_singleton in Hy. now right. }
  destruct (decide (credit_id movie = 20)) as [Hid|_]; [injection Hcredits as <-|discriminate].
  right. split; [exact Hid|]. cbn in Hy.
  apply elem_of_cons in Hy as [->|Hy]; [now left|].
  apply list_elem_of_singleton in Hy. now right.
Qed.

Lemma strandedB_links (x y : Z) (info : MovieInfo) :
  coStarVia strandedB x y info ->
  (x = 1 /\ y = 3) \/ (x = 3 /\ (y = 1 \/ y = 4)) \/ (x = 4 /\ y = 3).
Proof.
  intros (Hne & fg & movie & Hfg & Hmovie & Hcast & _).
  apply strandedB_casts in Hcast.
  destruct (strandedB_topMovies x fg movie Hfg Hmovie)
    as [(-> & ->)|[(-> & [->| ->])|(-> & ->)]];
    cbn in Hcast; lia.
Qed.

Lemma strandedB_link_1_3 : coStarVia strandedB 1 3 (infoOf strandedB movie10).
Proof.
  split; [discriminate|]. exists {| cast := [movie10] |}, movie10.
  split; [reflexivity|]. split; [vm_compute; left|]. split; [|reflexivity].
  exists {| movie_cast := [1; 3] |}. split; [reflexivity|]. cbn. right. left.
Qed.

Lemma strandedB_link_3_4 : coStarVia strandedB 3 4 (infoOf strandedB movie20).
Proof.
  split; [discriminate|]. exists {| cast := [movie10; movie20] |}, movie20.
  split; [reflexivity|]. split; [vm_compute; left|]. split; [|reflexivity].
  exists {| movie_cast := [3; 4] |}. split; [reflexivity|]. cbn. right. left.
Qed.

Lemma search_towards_loner_witness :
  (findConnection strandedB 10 1 2 {| maxDegrees := None |} emptyWorld).1 = OutOfFuel.
Proof.
  apply (search_towards_loner_never_returns strandedB 1 2 3 4
           (infoOf strandedB movie10) (infoOf strandedB movie20)).
  - intros x. cbn. repeat (destruct (decide _)); eauto.
  - intros y info H. apply strandedB_links in H. lia.
  - intros x info H. apply strandedB_links in H. lia.
  - exact strandedB_link_1_3.
  - exact strandedB_link_3_4.
  - split; [lia|]. intros info H. apply strandedB_links in H. lia.
  - cbn. lia.
Defined.

(** * What a search rejects with *)

Section Rejections.

Context (P : Providers).

Lemma getFilmography_rejects x w e w' :
  getFilmography P x w = (Throw e, w') -> creditsRejection P e w'.
Proof.
  intros Hrun. destruct (filmographyCache w !! x) as [credits|] eqn:Hc.
  - rewrite (getFilmography_hit P x credits w Hc) in Hrun. discriminate.
  - destruct (getPersonCredits P x) as [credits|] eqn:Hp.
    + rewrite (getFilmography_miss P x credits w Hc Hp) in Hrun. discriminate.
    + rewrite (getFilmography_fail P x w Hc Hp) in Hrun. injection Hrun as <- <-.
      exists x. now repeat split.
Qed.

Lemma getCoStars_rejects x w e w' :
  getCoStars P x w = (Throw e, w') -> creditsRejection P e w'.
Proof.
  unfold getCoStars, bind. intros Hrun.
  destruct (getFilmography P x w) as [[fg|e1|] w1] eqn:Hfg; [| |discriminate].
  - destruct (addMovies_spec P x (topMovies fg) [] w1) as (res & Hres & _).
    rewrite Hres in Hrun. discriminate.
  - injection Hrun as <- <-. eapply getFilmography_rejects; eassumption.
Qed.

Lemma levelLoopA_rejects n st w e w' :
  (n <= length (queueA st))%nat ->
  levelLoopA P n st w = (Throw e, w') -> creditsRejection P e w'.
Proof.
  revert st w. induction n as [|n IH]; intros st w Hlen Hrun; cbn [levelLoopA] in Hrun.
  - discriminate.
  - destruct (queueA st) as [|current rest] eqn:Hq; [cbn in Hlen; lia|].
    unfold bind in Hrun.
    destruct (getCoStars P (actorId current) w) as [[coStars|e1|] w1] eqn:Hco;
      [| |discriminate].
    + match type of Hrun with
      | context [scanCoStarsA current coStars ?s] =>
          pose proof (scanCoStarsA_queue current coStars s) as Hgrow;
          set (st1 := scanCoStarsA current coStars s) in *
      end.
      cbn in Hgrow, Hlen.
      destruct (meetingPoint st1); [discriminate|].
      apply (IH st1 w1); [lia|exact Hrun].
    + injection Hrun as <- <-. eapply getCoStars_rejects; eassumption.
Qed.

Lemma expandA_rejects st w e w' :
  expandA P st w = (Throw e, w') -> creditsRejection P e w'.
Proof. unfold expandA. apply levelLoopA_rejects. cbn. lia. Qed.

Lemma expandB_rejects st w e w' :
  expandB P st w = (Throw e, w') -> creditsRejection P e w'.
Proof.
  rewrite expandB_swap.
  destruct (expandA P (swapState st) w) as [[s|e1|] w1] eqn:HA; cbn; try discriminate.
  intros Hrun. injection Hrun as <- <-. now apply (expandA_rejects (swapState st) w).
Qed.

Lemma loopBody_rejects maxDeg st w e w' :
  loopBody P maxDeg st w = (Throw e, w') -> creditsRejection P e w'.
Proof.
  unfold loopBody. destruct (maxDeg <=? _); [discriminate|].
  unfold expandBothSides.
  destruct (nonEmpty (queueA st) && (degreesFromA st <=? degreesFromB st)).
  - unfold bind at 1. unfold bind at 1.
    destruct (expandA P st w) as [[stA|e1|] wA] eqn:HA; [| |discriminate].
    + cbn [ret]. destruct (hasMeetingPoint stA); [discriminate|].
      destruct (nonEmpty (queueB stA) && negb false); [|discriminate].
      unfold bind.
      destruct (expandB P stA wA) as [[stB|e1|] wB] eqn:HB; try discriminate.
      intros Hrun. injection Hrun as <- <-. eapply expandB_rejects; eassumption.
    + intros Hrun. injection Hrun as <- <-. eapply expandA_rejects; eassumption.
  - unfold bind at 1. cbn [ret].
    destruct (nonEmpty (queueB st) && negb (hasMeetingPoint st)); [|discriminate].
    unfold bind.
    destruct (expandB P st w) as [[stB|e1|] wB] eqn:HB; try discriminate.
    intros Hrun. injection Hrun as <- <-. eapply expandB_rejects; eassumption.
Qed.

Lemma searchLoop_rejects fuel maxDeg st w e w' :
  searchLoop P fuel maxDeg st w = (Throw e, w') -> creditsRejection P e w'.
Proof.
  revert st w. induction fuel as [|fuel IH]; intros st w; cbn [searchLoop].
  - discriminate.
  - destruct (nonEmpty (queueA st) || nonEmpty (queueB st)); [|discriminate].
    unfold bind.
    destruct (loopBody P maxDeg st w) as [[[flow st1]|e1|] w1] eqn:Hbody;
      [| |discriminate].
    + destruct flow; [apply IH|discriminate].
    + intros Hrun. injection Hrun as <- <-. eapply loopBody_rejects; eassumption.
Qed.

Lemma buildResult_rejects st mp w e w' :
  buildResult P st mp w = (Throw e, w') ->
  exists ids, e = ProviderError (FetchDeceasedPersons ids) /\
              getDeceasedPersons P ids = None /\
              head (trace w') = Some (FetchDeceasedPersons ids).
Proof.
  unfold buildResult.
  destruct (fetchActorDetails_ok P (pe_actorId <$> combinedPath st mp) ∅ w)
    as (details & w1 & Hrun & Hdom).
  rewrite (bind_ok _ _ _ _ _ Hrun).
  destruct (buildFinalPath_some (combinedPath st mp) details) as [finalPath Hfinal].
  { intros x Hx. apply Hdom. now left. }
  rewrite Hfinal. unfold bind, call.
  destruct (getDeceasedPersons P _) as [infoMap|] eqn:Hstore; [discriminate|].
  intros Hthrow. injection Hthrow as <- <-. eexists. now repeat split.
Qed.

End Rejections.

(** X16: [findConnection] rejects only with the failure of a provider
    call, the last call it made: the detail fetch when both ids are the same
    actor; between two different actors a filmography fetch or the lookup in
    the deceased store, and never a cast fetch or a detail fetch. *)
Theorem rejection_is_a_failed_fetch (P : Providers) (fuel : nat) (a b : Z)
    (options : Options) (w : World) (e : Error) (w' : World) :
  findConnection P fuel a b options w = (Throw e, w') ->
  exists c,
    e = ProviderError c /\ failedCall P c /\ head (trace w') = Some c /\
    match c with
    | FetchPersonDetails x => a = b /\ x = a
    | FetchPersonCredits _ | FetchDeceasedPersons _ => a <> b
    | FetchMovieCredits _ => False
    end.
Proof.
  intros Hrun. destruct (decide (a = b)) as [->|Hne].
  - unfold findConnection in Hrun. destruct (decide (b = b)); [|contradiction].
    unfold sameActor, bind, call in Hrun.
    destruct (getPersonDetails P b) as [person|] eqn:Hp; [discriminate|].
    injection Hrun as <- <-. exists (FetchPersonDetails b). now repeat split.
  - rewrite findConnection_distinct in Hrun by assumption.
    unfold bind at 1 in Hrun.
    destruct (searchLoop P fuel _ _ _) as [[st|e1|] w1] eqn:Hloop; [| |discriminate].
    + destruct (meetingPoint st) as [mp|]; [|discriminate].
      unfold bind in Hrun.
      destruct (buildResult P st mp w1) as [[r|e1|] w2] eqn:Hbuild; try discriminate.
      injection Hrun as <- <-.
      destruct (buildResult_rejects P st mp w1 _ _ Hbuild) as (ids & -> & Hstore & Hlast).
      exists (FetchDeceasedPersons ids). now repeat split.
    + injection Hrun as <- <-.
      destruct (searchLoop_rejects P _ _ _ _ _ _ Hloop) as (x & -> & Hp & Hlast).
      exists (FetchPersonCredits x). now repeat split.
Qed.

Lemma rejection_witness :
  exists c,
    ProviderError (FetchPersonCredits 1) = ProviderError c /\
    failedCall twoHopCreditsDown c /\
    head (trace (findConnection twoHopCreditsDown 3 1 2 {| maxDegrees := None |}
                   emptyWorld).2) = Some c /\
    match c with
    | FetchPersonDetails x => 1 = 2 /\ x = 1
    | FetchPersonCredits _ | FetchDeceasedPersons _ => 1 <> 2
    | FetchMovieCredits _ => False
    end.
Proof.
  apply (rejection_is_a_failed_fetch twoHopCreditsDown 3 1 2 {| maxDegrees := None |}
           emptyWorld).
  vm_compute. reflexivity.
Defined.

(** * The movies shown on a path *)

Section Movies.

Context (P : Providers).

(** The entry recorded for a co-star comes from a dated movie, so that its
    year was parsed from the date. *)
Lemma link_movie_dated x y info :
  coStarVia P x y info ->
  exists movie date,
    release_date movie = Some date /\ date <> EmptyString /\
    info = infoOf P movie /\
    movieYear info = Some (parseInt P (slice0 4 date)).
Proof.
  intros (_ & fg & movie & _ & Hmovie & _ & ->).
  apply topMovies_dated in Hmovie as (_ & Hdated). unfold dated in Hdated.
  destruct (release_date movie) as [date|] eqn:Hdate; [|discriminate].
  exists movie, date. split; [exact Hdate|]. split.
  - intros ->. discriminate.
  - split; [reflexivity|]. cbn. unfold yearOf. now rewrite Hdate, Hdated.
Qed.

Lemma walkUp_entry_movie root d n e nm :
  nodeOk P root d n -> e ∈ walkUp n -> pe_movie e = Some nm ->
  exists x y info, coStarVia P x y info /\ nm = nodeMovieOf info.
Proof.
  intros (_ & Hlast & Hhops) He Hnm.
  apply list_elem_of_lookup in He as (i & Hi).
  destruct (walkUp n !! S i) as [e'|] eqn:Hnext.
  - destruct (Hhops i e e' Hi Hnext) as (info & Hvia & Hmovie).
    exists (pe_actorId e'), (pe_actorId e), info. split; [exact Hvia|congruence].
  - exfalso. apply lookup_ge_None in Hnext. apply lookup_lt_Some in Hi as Hlt.
    rewrite last_lookup in Hlast.
    replace (pred (length (walkUp n))) with i in Hlast by lia.
    rewrite Hi in Hlast. injection Hlast as ->. discriminate.
Qed.

End Movies.

(** X17: a movie shown on a returned path has no poster, and its id, title
    and year are those recorded for a co-star link: the year is what
    [parseInt] makes of the first four characters of a release date that is
    not empty, and never [null]. *)
Theorem path_movies_are_dated (P : Providers) (fuel : nat) (a b : Z)
    (options : Options) (w : World) (r : ConnectionResult) (w' : World) :
  a <> b ->
  findConnection P fuel a b options w = (Ok (Some r), w') ->
  forall s m, s ∈ path r -> movie s = Some m ->
    posterPath m = None /\
    exists x y credit date,
      coStarVia P x y (infoOf P credit) /\
      release_date credit = Some date /\ date <> EmptyString /\
      pm_id m = credit_id credit /\ pm_title m = credit_title credit /\
      pm_year m = Some (parseInt P (slice0 4 date)).
Proof.
  intros Hne Hrun s m Hs Hm.
  destruct (success_state P fuel a b options w r w' Hne Hrun)
    as (st & mp & w1 & nA & nB & _ & _ & Hpath & _ & Hcomb & _ & _ & HokA & HokB).
  apply list_elem_of_lookup in Hs as (i & Hs). rewrite Hpath in Hs.
  apply finalPathOf_lookup in Hs as (_ & _ & _ & Hmovie).
  rewrite Hm in Hmovie.
  destruct (combinedPath st mp !! S i) as [e|] eqn:He; [|discriminate].
  cbn in Hmovie. destruct (pe_movie e) as [nm|] eqn:Hnm; [|discriminate].
  injection Hmovie as ->. split; [reflexivity|].
  assert (Hlink : exists x y info, coStarVia P x y info /\ nm = nodeMovieOf info).
  { rewrite Hcomb in He. apply list_elem_of_lookup_2, elem_of_app in He as [He|He].
    - rewrite elem_of_reverse in He.
      exact (walkUp_entry_movie P a _ nA e nm HokA He Hnm).
    - apply (walkUp_entry_movie P b _ nB e nm HokB); [|exact Hnm].
      rewrite walkUp_unfold. now right. }
  destruct Hlink as (x & y & info & Hvia & ->).
  destruct (link_movie_dated P x y info Hvia) as (credit & date & Hdate & Hne' & -> & Hyear).
  exists x, y, credit, date. repeat (split; [first [assumption|reflexivity]|]).
  exact Hyear.
Qed.

Lemma path_movies_witness :
  posterPath {| pm_id := 10; pm_title := "Ten"; pm_year := Some (Int 2010);
                posterPath := None |} = None /\
  exists x y credit date,
    coStarVia twoHop x y (infoOf twoHop credit) /\
    release_date credit = Some date /\ date <> EmptyString /\
    10 = credit_id credit /\ "Ten"%string = credit_title credit /\
    Some (Int 2010) = Some (parseInt twoHop (slice0 4 date)).
Proof.
  apply (path_movies_are_dated twoHop 3 1 2 {| maxDegrees := None |} emptyWorld
           twoHopResult
           (findConnection twoHop 3 1 2 {| maxDegrees := None |} emptyWorld).2
           ltac:(lia) ltac:(vm_compute; reflexivity)
           (segmentOf 1 (Some {| pm_id := 10; pm_title := "Ten";
                                 pm_year := Some (Int 2010); posterPath := None |}))).
  - cbn. left.
  - reflexivity.
Defined.

(** * What "no connection" means *)

Section NoConnection.

Context (P : Providers).

Lemma loopBody_flow maxDeg st w flow st' w' :
  meetingPoint st = None ->
  loopBody P maxDeg st w = (Ok (flow, st'), w') ->
  match flow with
  | Continue => meetingPoint st' = None
  | Break =>
      meetingPoint st' = None ->
      st' = st /\ maxDeg <= degreesFromA st + degreesFromB st
  end.
Proof.
  intros Hmp Hbody. unfold loopBody in Hbody.
  destruct (maxDeg <=? degreesFromA st + degreesFromB st) eqn:Hbound.
  { injection Hbody as <- <- <-. intros _. split; [reflexivity|lia]. }
  apply expandBothSides_inv in Hbody; [|assumption].
  destruct Hbody as (stA & wA & _ & HB).
  destruct (hasMeetingPoint stA) eqn:HmA.
  { destruct HB as (-> & _ & ->). intros Hnone.
    apply hasMeetingPoint_true in HmA. contradiction. }
  destruct (nonEmpty (queueB stA)).
  - destruct HB as (_ & ->). destruct (hasMeetingPoint st') eqn:Hm'.
    + intros Hnone. apply hasMeetingPoint_true in Hm'. contradiction.
    + now apply hasMeetingPoint_false.
  - destruct HB as (-> & _ & ->). now apply hasMeetingPoint_false.
Qed.

Lemma searchLoop_exit fuel maxDeg st w st' w' :
  meetingPoint st = None ->
  searchLoop P fuel maxDeg st w = (Ok st', w') ->
  meetingPoint st' = None ->
  (queueA st' = [] /\ queueB st' = []) \/
  maxDeg <= degreesFromA st' + degreesFromB st'.
Proof.
  revert st w. induction fuel as [|fuel IH]; intros st w Hmp Hloop Hnone;
    [discriminate|].
  cbn [searchLoop] in Hloop.
  destruct (nonEmpty (queueA st) || nonEmpty (queueB st)) eqn:Hq.
  - apply bind_inv_ok in Hloop. destruct Hloop as ([flow s1] & w1 & Hbody & Hrest).
    pose proof (loopBody_flow maxDeg st w flow s1 w1 Hmp Hbody) as Hflow.
    destruct flow.
    + exact (IH s1 w1 Hflow Hrest Hnone).
    + injection Hrest as <- <-. destruct (Hflow Hnone) as (-> & Hbound). now right.
  - injection Hloop as <- <-. apply orb_false_iff in Hq as (HqA & HqB). left.
    destruct (queueA st), (queueB st); try discriminate. now split.
Qed.

End NoConnection.

(** X18: a search between two different actors answers "no connection"
    only when its loop ended without a meeting point for one of two
    reasons: both queues were empty, or the two degree counters together had
    reached the bound. *)
Theorem null_means_exhausted_or_bound (P : Providers) (fuel : nat) (a b : Z)
    (options : Options) (w w' : World) :
  a <> b ->
  findConnection P fuel a b options w = (Ok None, w') ->
  exists st w1,
    searchLoop P fuel (default 6 (maxDegrees options)) (initialState a b)
      {| filmographyCache := ∅; trace := trace w |} = (Ok st, w1) /\
    meetingPoint st = None /\
    trace w' = trace w1 /\
    ((queueA st = [] /\ queueB st = []) \/
     default 6 (maxDegrees options) <= degreesFromA st + degreesFromB st).
Proof.
  intros Hne Hrun. rewrite findConnection_distinct in Hrun by assumption.
  apply bind_inv_ok in Hrun. destruct Hrun as (st & w1 & Hloop & Hrun).
  destruct (meetingPoint st) as [mp|] eqn:Hmp.
  - apply bind_inv_ok in Hrun. destruct Hrun as (r & w2 & _ & Hret). discriminate.
  - cbn in Hrun. injection Hrun as <-.
    exists st, w1. split; [exact Hloop|]. split; [exact Hmp|]. split; [reflexivity|].
    eapply searchLoop_exit; [|exact Hloop|exact Hmp]. reflexivity.
Qed.

Lemma null_means_witness :
  exists st w1,
    searchLoop lateActor 3 6 (initialState 1 2)
      {| filmographyCache := ∅; trace := [] |} = (Ok st, w1) /\
    meetingPoint st = None /\
    trace (findConnection lateActor 3 1 2 {| maxDegrees := None |} emptyWorld).2
      = trace w1 /\
    ((queueA st = [] /\ queueB st = []) \/ 6 <= degreesFromA st + degreesFromB st).
Proof.
  apply (null_means_exhausted_or_bound lateActor 3 1 2 {| maxDegrees := None |}
           emptyWorld
           (findConnection lateActor 3 1 2 {| maxDegrees := None |} emptyWorld).2).
  - lia.
  - vm_compute. reflexivity.
Defined.
